(** * epicode: read-coverage extraction and count normalisation

    A shallow embedding of [bin/epicode.py]: [dsig], [scarr],
    [scapair], [parse_bam_absolute], [parse_bam_differential],
    [extract_absolute], [extract_differential], the row walk of
    [scale_differential] on the arrays that [np.loadtxt] reads, and the
    handling of names and parameters.

    Numbers.  The program computes on IEEE doubles (numpy [float64]).
    They are idealised here as the real numbers extended with the two
    infinities and a single not-a-number value: special values propagate
    as in IEEE 754, but rounding, overflow, signed zeros and the
    [float32] cast of [dsig] are not modelled.  Every statement about a
    numerical value in this model is a statement about this
    exact-arithmetic reading of the code.  Where rounding decides the
    result, the computation is written a second time on binary64
    numbers (module [B64]) and, for [dsig], on the numbers of [float32]
    (module [F32]).

    Collaborators.  [numpy] and [scipy] routines ([median], [std],
    [mstats.mquantiles], [loadtxt]) and [fnmatch], the matcher behind
    [path.listdir], are written out following their documented
    algorithms; the alignment reader ([pysam.Samfile.count]) and
    Python's [hash] are taken as they are given, and the tasks take
    the matcher as an argument.  Logging is left out. *)

From Stdlib Require Import Reals Lra Lia ZArith List String.
From Stdlib Require PrimFloat Uint63 SpecFloat FloatOps.
From stdpp Require Import base list gmap strings.

Open Scope R_scope.

(** ** Python outcomes *)

Inductive exn : Type :=
| IndexError
| ZeroDivisionError
| ValueError (msg : string)
| IOError (msg : string)
| SystemExit (msg : string).

Inductive result (A : Type) : Type :=
| Ok (a : A)
| Raise (e : exn).
Arguments Ok {A} a.
Arguments Raise {A} e.

Definition bind {A B} (r : result A) (k : A → result B) : result B :=
  match r with
  | Ok a => k a
  | Raise e => Raise e
  end.

Definition is_ok {A} (r : result A) : Prop := ∃ a, r = Ok a.

(** ** Floating-point values *)

Module Float.

Inductive float : Type :=
| Fin (r : R)
| PInf
| NInf
| NaN.

Definition Rltb (x y : R) : bool := if Rlt_dec x y then true else false.
Definition Rleb (x y : R) : bool := if Rle_dec x y then true else false.
Definition Reqb (x y : R) : bool := if Req_dec_T x y then true else false.

Definition isnan (x : float) : bool :=
  match x with NaN => true | _ => false end.

Definition isfinite (x : float) : bool :=
  match x with Fin _ => true | _ => false end.

(** Truth value of a number: everything but zero, also NaN. *)
Definition truthy (x : float) : bool :=
  match x with Fin r => negb (Reqb r 0) | _ => true end.

Definition fneg (x : float) : float :=
  match x with
  | Fin r => Fin (- r)
  | PInf => NInf
  | NInf => PInf
  | NaN => NaN
  end.

Definition fadd (x y : float) : float :=
  match x, y with
  | NaN, _ | _, NaN => NaN
  | Fin a, Fin b => Fin (a + b)
  | PInf, NInf | NInf, PInf => NaN
  | PInf, _ | _, PInf => PInf
  | NInf, _ | _, NInf => NInf
  end.

Definition fsub (x y : float) : float := fadd x (fneg y).

(** The infinity of the sign of [r], or NaN for zero. *)
Definition inf_signed (pos : bool) (r : R) : float :=
  if Reqb r 0 then NaN
  else if Bool.eqb pos (Rltb 0 r) then PInf else NInf.

Definition fmul (x y : float) : float :=
  match x, y with
  | NaN, _ | _, NaN => NaN
  | Fin a, Fin b => Fin (a * b)
  | PInf, Fin r | Fin r, PInf => inf_signed true r
  | NInf, Fin r | Fin r, NInf => inf_signed false r
  | PInf, PInf | NInf, NInf => PInf
  | PInf, NInf | NInf, PInf => NInf
  end.

Definition fdiv (x y : float) : float :=
  match x, y with
  | NaN, _ | _, NaN => NaN
  | Fin a, Fin b => if Reqb b 0 then inf_signed true a else Fin (a / b)
  | Fin _, _ => Fin 0
  | PInf, Fin r => if Rltb r 0 then NInf else PInf
  | NInf, Fin r => if Rltb r 0 then PInf else NInf
  | _, _ => NaN
  end.

Definition fexp (x : float) : float :=
  match x with
  | Fin r => Fin (exp r)
  | PInf => PInf
  | NInf => Fin 0
  | NaN => NaN
  end.

Definition flog (x : float) : float :=
  match x with
  | Fin r => if Rltb 0 r then Fin (ln r) else if Reqb r 0 then NInf else NaN
  | PInf => PInf
  | _ => NaN
  end.

Definition fsqrt (x : float) : float :=
  match x with
  | Fin r => if Rltb r 0 then NaN else Fin (sqrt r)
  | PInf => PInf
  | _ => NaN
  end.

(** [x < y], [x == y]: false as soon as a NaN is involved. *)
Definition flt (x y : float) : bool :=
  match x, y with
  | NaN, _ | _, NaN => false
  | Fin a, Fin b => Rltb a b
  | NInf, NInf | PInf, _ | _, NInf => false
  | _, _ => true
  end.

Definition feq (x y : float) : bool :=
  match x, y with
  | Fin a, Fin b => Reqb a b
  | PInf, PInf | NInf, NInf => true
  | _, _ => false
  end.

Definition fge (x y : float) : bool := flt y x || feq x y.

(** The order [numpy.sort] uses: the numerical one, with NaN last. *)
Definition fleb (x y : float) : bool :=
  match x, y with
  | _, NaN => true
  | NaN, _ => false
  | NInf, _ | _, PInf => true
  | Fin a, Fin b => Rleb a b
  | _, _ => false
  end.

Definition fsum (l : list float) : float := fold_left fadd l (Fin 0).

(** [numpy.mean] of a vector: the sum over the length; empty gives
    0/0 = NaN. *)
Definition fmean (l : list float) : float :=
  fdiv (fsum l) (Fin (INR (length l))).

End Float.
Export Float.

(** Sorting, for [numpy.sort]; the result does not depend on the
    algorithm since the order is total. *)
Section Sort.
Context {A : Type} (leb : A → A → bool).

Fixpoint insert_sorted (x : A) (l : list A) : list A :=
  match l with
  | [] => [x]
  | y :: l' => if leb x y then x :: l else y :: insert_sorted x l'
  end.

Fixpoint isort (l : list A) : list A :=
  match l with
  | [] => []
  | x :: l' => insert_sorted x (isort l')
  end.

End Sort.

Definition np_sort : list float → list float := isort fleb.
Definition Rsort : list R → list R := isort Rleb.

(** ** numpy and scipy routines *)

(** [numpy.median] of a vector: the middle of the sorted values, or the
    mean of the two middle ones; NaN if a NaN is present (numpy 1.10 and
    later) and for an empty vector (the mean of an empty slice). *)
Definition median (l : list float) : float :=
  let s := np_sort l in
  let n := length l in
  if existsb isnan l then NaN
  else if Nat.eqb n 0 then NaN
  else if Nat.odd n then nth (n / 2) s NaN
  else fmean [nth (n / 2 - 1) s NaN; nth (n / 2) s NaN].

(** [numpy.std(l, ddof=ddof)]: deviations from the mean, squared,
    summed, divided by [max (n - ddof) 0], square root. *)
Definition np_std (ddof : nat) (l : list float) : float :=
  let arrmean := fmean l in
  let x := map (λ v, fsub v arrmean) l in
  let x := map (λ v, fmul v v) x in
  fsqrt (fdiv (fsum x) (Fin (INR (length l - ddof)))).

Definition Rclip (x lo hi : R) : R := Rmin (Rmax x lo) hi.

(** [scipy.stats.mstats.mquantiles] on one vector at one probability,
    with the default [alphap = betap = 0.4] ([_quantiles1D]). An empty
    vector gives a masked value, which stands as NaN here. *)
Definition quantile1D (data : list float) (p : R) : float :=
  let x := np_sort data in
  let n := length x in
  match n with
  | O => NaN
  | S O => nth 0 x NaN
  | _ =>
      let m := 0.4 + p * (1 - 0.4 - 0.4) in
      let aleph := INR n * p + m in
      let k := Z.to_nat (Int_part (Rclip aleph 1 (INR n - 1))) in
      let gamma := Rclip (aleph - INR k) 0 1 in
      fadd (fmul (Fin (1 - gamma)) (nth (k - 1) x NaN))
           (fmul (Fin gamma) (nth k x NaN))
  end.

Definition mquantiles (data : list float) (prob : list R) : list float :=
  map (quantile1D data) prob.

(** [numpy.column_stack] of equally long vectors: row [i] holds the
    [i]-th value of every column. *)
Definition column_stack {A} (d : A) (cols : list (list A))
  : result (list (list A)) :=
  match cols with
  | [] => Raise (ValueError "need at least one array to concatenate")
  | c :: _ =>
      if forallb (λ c', Nat.eqb (length c') (length c)) cols
      then Ok (map (λ i, map (λ col, nth i col d) cols) (seq 0 (length c)))
      else Raise (ValueError "all the input array dimensions must match")
  end.

(** ** Python's [xrange] *)

Fixpoint xrange_up (fuel : nat) (s stop step : Z) : list Z :=
  match fuel with
  | O => []
  | S fuel' =>
      if (s <? stop)%Z then s :: xrange_up fuel' (s + step) stop step else []
  end.

Fixpoint xrange_down (fuel : nat) (s stop step : Z) : list Z :=
  match fuel with
  | O => []
  | S fuel' =>
      if (stop <? s)%Z then s :: xrange_down fuel' (s + step) stop step
      else []
  end.

(** One step moves by at least one, so [|stop - start|] iterations are
    enough ([xrange_up_spec] shows that none is lost). *)
Definition xrange (start stop step : Z) : result (list Z) :=
  if (step =? 0)%Z then Raise (ValueError "xrange() arg 3 must not be zero")
  else if (0 <? step)%Z
       then Ok (xrange_up (Z.to_nat (stop - start)) start stop step)
       else Ok (xrange_down (Z.to_nat (start - stop)) start stop step).

(** ** Feature scaling: [dsig] and [scarr] *)

(** [a[sel] = f(a[sel])] for a boolean mask. *)
Definition mask_map {A} (sel : list bool) (f : A → A) (a : list A) : list A :=
  zip_with (λ (s : bool) x, if s then f x else x) sel a.

(** [dsig] in exact arithmetic: [np.asanyarray(a, dtype="f")] changes no
    value here. *)
Definition dsig (a : list float) (lq loc uq : float) : list float :=
  let alpha_l := fsub loc lq in
  let alpha_r := fsub uq loc in
  let a := map (λ x, fsub x loc) a in
  let lsel := map (λ x, flt x (Fin 0)) a in
  let rsel := map (λ x, fge x (Fin 0)) a in
  let a := if truthy alpha_l
           then mask_map lsel (λ x, fdiv x (fmul (Fin (-0.5)) alpha_l)) a
           else a in
  let a := if truthy alpha_r
           then mask_map rsel (λ x, fdiv x (fmul (Fin (-0.5)) alpha_r)) a
           else a in
  let a := map fexp a in
  let a := map (λ x, fadd x (Fin 1)) a in
  map (λ x, fdiv (Fin 1) x) a.

(** The [method] argument of [scarr]: ["sig<p>"] with the number it
    carries already read ([float(method.split("sig")[1])]), ["whiten"],
    or any other name. *)
Inductive scalgo : Type :=
| sig (p : R)
| whiten
| other (name : string).

Definition scarr_sig_row (hi : R) (row : list float) : list float :=
  match mquantiles row [0; 0; hi] with
  | [lq; mu; uq] =>
      map (λ y, fmul (fsub y (Fin 0.5)) (Fin 2)) (dsig row lq mu uq)
  | _ => row
  end.

Definition scarr_whiten_row (row : list float) : list float :=
  let dev := np_std 1 row in
  let dev := if feq dev (Fin 0) then NaN else dev in
  map (λ x, fdiv x dev) row.

(** [data] is the list of rows of [np.array(arr).T], that is the list
    of feature columns of [arr]; the result is the list of rows of the
    scaled [data], whose transpose [scarr] returns. *)
Definition scarr (data : list (list float)) (method : scalgo)
  : result (list (list float)) :=
  match method with
  | sig p => let hi := p / 100 in Ok (map (scarr_sig_row hi) data)
  | whiten => Ok (map scarr_whiten_row data)
  | other _ => Raise (ValueError "unknown method")
  end.

(** ** Sequencing-depth correction: [scapair] *)

Definition width {A} (m : list (list A)) : nat :=
  match m with
  | [] => O
  | row :: _ => length row
  end.

(** [row[col1:col1+2]] *)
Definition slice2 {A} (col1 : nat) (row : list A) : list A :=
  take 2 (drop col1 row).

(** [row[col1:col1+len(vals)] = vals] *)
Definition set_slice {A} (col1 : nat) (vals row : list A) : list A :=
  take col1 row ++ vals ++ drop (col1 + length vals) row.

(** The inner function of [scapair]; [w] is [counts.shape[1]]. *)
Definition size_factors (w : nat) (counts : list (list float)) : list float :=
  let counts := List.filter (forallb truthy) counts in
  let logcounts := map (map flog) counts in
  let loggeommeans := map fmean logcounts in
  let d := zip_with (λ row m, map (λ x, fsub x m) row)
                    logcounts loggeommeans in
  map (λ c, fexp (median (map (λ row, nth c row NaN) d))) (seq 0 w).

(** [np.alltrue(raw != -1, axis=1)] on one row. *)
Definition sel_row (row : list float) : bool :=
  forallb (λ x, negb (feq x (Fin (-1)))) row.

(** One turn of the loop over [col1]. [tmp = raw[sel]] holds the
    selected rows of [raw] in order, so the row of [pair / sf] that the
    masked assignment stores into a selected row of [scaled] is the
    slice of the matching row of [raw], divided by [sf]. *)
Definition scapair_step (raw : list (list float))
    (scaled : list (list float)) (col1 : nat) : list (list float) :=
  let tmp := List.filter sel_row raw in
  let pair := map (slice2 col1) tmp in
  let sf := size_factors (Nat.min 2 (width raw - col1)) pair in
  zip_with (λ rrow srow,
      if sel_row rrow
      then set_slice col1 (zip_with fdiv (slice2 col1 rrow) sf) srow
      else srow)
    raw scaled.

Definition scapair (raw : list (list float)) (method : string)
  : result (list (list float)) :=
  if String.eqb method "deseq" then
    let scaled :=
      map (map (λ x, if feq x (Fin (-1)) then NaN else x)) raw in
    bind (xrange 0 (Z.of_nat (width raw)) 2) (λ cols,
    Ok (fold_left (scapair_step raw) (map Z.to_nat cols) scaled))
  else Raise (ValueError "unknown method").

(** ** Gain and loss: the row walk of [scale_differential] *)

(** [l[0::2]] and [l[1::2]] *)
Fixpoint evens {A} (l : list A) : list A :=
  match l with
  | x :: _ :: l' => x :: evens l'
  | _ => l
  end.

Fixpoint odds {A} (l : list A) : list A :=
  match l with
  | _ :: y :: l' => y :: odds l'
  | _ => []
  end.

(** [gl[k][-1] = f(gl[k][-1])]: [cur] holds the last entry of every
    list of [gl], and a [k] that is no index of [gl] is an
    [IndexError]. *)
Definition update_last (k : nat) (f : float → float) (cur : list float)
  : result (list float) :=
  if (k <? length cur)%nat then Ok (alter f k cur) else Raise IndexError.

(** One turn of the [for c, v in enumerate(row)] loop. *)
Definition accumulate_step (cur : list float) (cv : nat * float)
  : result (list float) :=
  let (c, v) := cv in
  bind (if flt (Fin 0) v
        then update_last (c * 2 + 0) (λ g, fadd g v) cur else Ok cur)
    (λ cur, if flt v (Fin 0)
            then update_last (c * 2 + 1) (λ l, fsub l v) cur else Ok cur).

Fixpoint accumulate_loop (cvs : list (nat * float)) (cur : list float)
  : result (list float) :=
  match cvs with
  | [] => Ok cur
  | cv :: cvs' => bind (accumulate_step cur cv) (accumulate_loop cvs')
  end.

Definition accumulate (cur row : list float) : result (list float) :=
  accumulate_loop (zip (seq 0 (length row)) row) cur.

(** The two nested loops from the [while True] on, as one recursion on
    the rows not yet read: [j] and [cur] are the counter and the
    accumulators of the open block. Reading past the last row is the
    [IndexError] of [dcols[i]]; at a row with a NaN the block is closed
    ([col[-1] /= float(j)]) and the outer test [i < dcols.shape[0]]
    decides whether a new block is opened with [j = 0] and zeros. *)
Fixpoint walk (zeros : list float) (rows : list (list float)) (j : nat)
    (cur : list float) : result (list (list float)) :=
  match rows with
  | [] => Raise IndexError
  | row :: rest =>
      let j := S j in
      if existsb isnan row then
        let closed := map (λ x, fdiv x (Fin (INR j))) cur in
        match rest with
        | [] => Ok [closed]
        | _ => bind (walk zeros rest O zeros) (λ gl, Ok (closed :: gl))
        end
      else bind (accumulate cur row) (walk zeros rest j)
  end.

(** One row of [dcols = bcols - acols]. With as many columns on both
    sides the difference is taken column by column; with three columns
    in all the single column of [bcols] is broadcast over the two of
    [acols]; with one column in all [bcols] has none, and neither has
    [dcols]. *)
Definition deltas (row : list float) : list float :=
  match odds row, evens row with
  | [b], (_ :: _ :: _) as acols => map (λ a, fsub b a) acols
  | bcols, acols => zip_with fsub bcols acols
  end.

(** [scaled] is a two-dimensional array, by rows (without any row it
    stands for an array of no row and some columns); the result is
    [gla], by rows. With five columns or more, in odd number,
    [bcols - acols] is a shape error. *)
Definition scale_differential (scaled : list (list float))
  : result (list (list float)) :=
  let w := width scaled in
  if Nat.odd w && Nat.ltb 3 w
  then Raise (ValueError "operands could not be broadcast together")
  else
    let dcols := map deltas scaled in
    let zeros := repeat (Fin 0) w in
    match dcols with
    | [] => Ok []
    | _ => walk zeros dcols O zeros
    end.

(** ** Regions and alignment files *)

(** A BED6 record: [reg[:3]] and the fields passed through. *)
Record region : Type := {
  chrom : string;
  chromStart : Z;
  chromEnd : Z;
  bed_rest : list string
}.

(** An opened [pysam.Samfile]: [count(chr, start, end)], the number of
    reads overlapping an interval. *)
Record Samfile : Type := { count : string → Z → Z → nat }.

(** ** Absolute mode *)

(** The loop of [parse_bam_absolute] over the regions left, [acc] being
    the list [count] built so far. Python's float division raises on a
    zero divisor. *)
Fixpoint parse_bam_absolute_loop (bam : Samfile) (regs : list region)
    (acc : list float) : result (list float) :=
  match regs with
  | [] => Ok acc
  | reg :: regs' =>
      let chr := chrom reg in
      let start := chromStart reg in
      let end_ := chromEnd reg in
      let n := count bam chr start end_ in
      if (end_ - start =? 0)%Z then Raise ZeroDivisionError
      else parse_bam_absolute_loop bam regs'
             (acc ++ [Fin (INR n / IZR (end_ - start))])
  end.

Definition parse_bam_absolute (bam : Samfile) (regs : list region)
  : result (list float) :=
  parse_bam_absolute_loop bam regs [].

(** ** Differential mode *)

(** The loop [for s in xrange(start, end, step)]. *)
Fixpoint parse_bam_differential_windows (abam bbam : Samfile) (chr : string)
    (step : Z) (ss : list Z) (acount bcount : list Z) : list Z * list Z :=
  match ss with
  | [] => (acount, bcount)
  | s :: ss' =>
      let e := (s + step)%Z in
      let an := count abam chr s e in
      let bn := count bbam chr s e in
      parse_bam_differential_windows abam bbam chr step ss'
        (acount ++ [Z.of_nat an]) (bcount ++ [Z.of_nat bn])
  end.

(** The loop [for reg in regs]. *)
Fixpoint parse_bam_differential_loop (abam bbam : Samfile)
    (regs : list region) (step : Z) (acount bcount : list Z)
  : result (list Z * list Z) :=
  match regs with
  | [] => Ok (acount, bcount)
  | reg :: regs' =>
      let chr := chrom reg in
      let start := chromStart reg in
      let end_ := chromEnd reg in
      bind (xrange start end_ step) (λ ss,
      let (acount, bcount) :=
        parse_bam_differential_windows abam bbam chr step ss acount bcount in
      parse_bam_differential_loop abam bbam regs' step
        (acount ++ [(-1)%Z]) (bcount ++ [(-1)%Z]))
  end.

Definition parse_bam_differential (abam bbam : Samfile) (regs : list region)
    (step : Z) : result (list Z * list Z) :=
  parse_bam_differential_loop abam bbam regs step [] [].

(** [run_par] over the pairs, in submission order, followed by
    [list(chain( *tmp))]: the columns a1, b1, a2, b2, ... *)
Fixpoint differential_columns (pairs : list (Samfile * Samfile))
    (regs : list region) (step : Z) : result (list (list Z)) :=
  match pairs with
  | [] => Ok []
  | (abam, bbam) :: pairs' =>
      bind (parse_bam_differential abam bbam regs step) (λ ab,
      bind (differential_columns pairs' regs step) (λ cols,
      Ok (fst ab :: snd ab :: cols)))
  end.

(** The count matrix of [process_bam_differential]. *)
Definition differential_counts (pairs : list (Samfile * Samfile))
    (regs : list region) (step : Z) : result (list (list Z)) :=
  bind (differential_columns pairs regs step) (column_stack 0%Z).

(** The rows of numbers of the file that [np.savetxt] writes from the
    counts with [fmt="%d"]. *)
Definition savetxt_d (counts : list (list Z)) : list (list float) :=
  map (map (λ z, Fin (IZR z))) counts.

(** ** Reading an array file back *)

(** An array of at most two dimensions: of shape [()], [(n,)] or
    [(n, w)], the last one by rows. *)
Inductive ndarray : Type :=
| Arr0 (x : float)
| Arr1 (v : list float)
| Arr2 (rows : list (list float)).

(** [np.loadtxt] on the rows of numbers of a file: every row must have
    as many numbers as the first one, and the axes of length one are
    dropped ([np.squeeze]), so that a file of a single row or of a
    single column is read as a vector, and a file without any row as
    the empty vector. *)
Definition loadtxt (rows : list (list float)) : result ndarray :=
  if forallb (λ row, length row =? width rows)%nat rows then
    match rows with
    | [] => Ok (Arr1 [])
    | [[x]] => Ok (Arr0 x)
    | [row] => Ok (Arr1 row)
    | _ => if (width rows =? 1)%nat then Ok (Arr1 (concat rows))
           else Ok (Arr2 rows)
    end
  else Raise (ValueError "Wrong number of columns").

(** [scapair] and [scale_differential] on what [np.loadtxt] returns:
    [np.alltrue(raw != -1, axis=1)] and [scaled[:,0::2]] need two
    dimensions. *)
Definition scapair_array (raw : ndarray) (method : string)
  : result (list (list float)) :=
  match raw with
  | Arr2 raw => scapair raw method
  | _ => if String.eqb method "deseq"
         then Raise (ValueError "axis out of bounds")
         else Raise (ValueError "unknown method")
  end.

Definition scale_differential_array (scaled : ndarray)
  : result (list (list float)) :=
  match scaled with
  | Arr2 scaled => scale_differential scaled
  | _ => Raise IndexError
  end.

(** The second and third tasks of [differential] on the counts that
    the first one has written: [scale_pairs] reads them and writes the
    scaled counts, which [scale_differential] reads ([np.savetxt]
    writes every value with the digits that read back as the same
    value). The names of the columns and of the files are left out. *)
Definition scale_pairs_differential (counts : list (list Z))
  : result (list (list float)) :=
  bind (loadtxt (savetxt_d counts)) (λ raw,
  bind (scapair_array raw "deseq") (λ scaled,
  bind (loadtxt scaled) scale_differential_array)).

(** ** The extraction tasks and the file system *)

(** A path: directory and base name. *)
Definition path : Type := string * string.

Inductive file : Type :=
| BedFile (records : list region)
| BamFile (bam : Samfile)
| ArrFile (names : list string) (values : list (list float)).

(** What a task does to the outside, in order. *)
Inductive event : Type :=
| EvMkdir (d : string)
| EvOpenBam (p : path)
| EvWrite (p : path).

Record world : Type := {
  files : gmap path file;
  dirs : gset string;
  trace : list event
}.

(** A task runs on a world and either returns or stops with an
    exception; what it did before stopping stays done. *)
Definition task (A : Type) : Type := world → result A * world.

#[global] Instance task_ret : MRet task := λ A a w, (Ok a, w).

#[global] Instance task_bind : MBind task := λ A B k m w,
  match m w with
  | (Ok a, w') => k a w'
  | (Raise e, w') => (Raise e, w')
  end.

Definition lift {A} (r : result A) : task A := λ w, (r, w).

(** The helpers that the tasks take from the [moke] library, as the
    tasks use them: [chk_exit(cond, msg)] stops the program with [msg]
    when [cond] holds, [inp_file(p)] is the pair of arguments that makes
    [chk_exit] stop when [p] is missing, [chks] passes each pair of a
    list to [chk_exit], [mkdir] makes a directory and keeps the files
    there are. The calls of [log] are left out. *)
Definition chk_exit (cond : bool) (msg : string) : task unit :=
  if cond then lift (Raise (SystemExit msg)) else mret tt.

Definition inp_file (p : path) : task (bool * string) := λ w,
  (Ok (bool_decide (files w !! p = None),
       "missing path: " +:+ p.1 +:+ "/" +:+ p.2), w).

Fixpoint chks (checks : list (task (bool * string))) : task unit :=
  match checks with
  | [] => mret tt
  | c :: checks' => r ← c; _ ← chk_exit r.1 r.2; chks checks'
  end.

Definition mkdir (d : string) : task unit := λ w,
  (Ok tt, {| files := files w; dirs := {[ d ]} ∪ dirs w;
             trace := trace w ++ [EvMkdir d] |}).

Definition write_file (p : path) (f : file) : task unit := λ w,
  (Ok tt, {| files := <[ p := f ]> (files w); dirs := dirs w;
             trace := trace w ++ [EvWrite p] |}).

(** [Samfile(str(fn), "rb")] *)
Definition open_bam (p : path) : task Samfile := λ w,
  match files w !! p with
  | Some (BamFile bam) =>
      (Ok bam, {| files := files w; dirs := dirs w;
                  trace := trace w ++ [EvOpenBam p] |})
  | _ => (Raise (IOError "could not open alignment file"), w)
  end.

(** [parse_bed]: the records with a negative start are skipped. The
    splitting of a line and the reading of its two integers are not
    modelled: a BED file is the list of its records. *)
Definition parse_bed (fn : path) : task (list region) := λ w,
  match files w !! fn with
  | Some (BedFile records) =>
      (Ok (List.filter (λ reg, negb (chromStart reg <? 0)%Z) records), w)
  | Some _ => (Raise (ValueError "invalid literal for int()"), w)
  | None => (Raise (IOError "No such file or directory"), w)
  end.

Section Tasks.

(** [fnmatch name pattern]: the matcher behind [path.listdir(pattern)]. *)
Variable fnmatch : string → string → bool.
(** [str(hash((bed, tuple(bams))))] and [str(hash((bed, abams, bbams)))] *)
Variable hash_absolute : path → list path → string.
Variable hash_differential : path → list path → list path → string.
(** [sorted] on paths. *)
Variable sorted : list path → list path.
(** The column names of [process_bam_absolute] (base names, shortened
    by [common_sub] on request) and of [process_bam_differential] (which
    asserts that the two lists of prefixes agree). *)
Variable absolute_names : bool → list path → list string.
Variable differential_names : bool → list path → list path
                              → result (list string).

(** [odn.listdir(pattern)] *)
Definition listdir (odn : string) (pattern : string) : task (list path) :=
  λ w, (Ok (List.filter
              (λ p : path, String.eqb p.1 odn && fnmatch p.2 pattern)
              (map fst (map_to_list (files w)))), w).

(** Python's [bool] of a list. *)
Definition nonempty {A} (l : list A) : bool :=
  match l with [] => false | _ => true end.

(** Python's [not runid] for [None] and for the empty string. *)
Definition no_runid (runid : option string) : bool :=
  match runid with
  | None => true
  | Some s => String.eqb s ""
  end.

(** [run_par(parse_bam_absolute_star, args)]: one result per file, in
    the order of submission. *)
Fixpoint run_par_absolute (bams : list path) (regs : list region)
  : task (list (list float)) :=
  match bams with
  | [] => mret []
  | fn :: bams' =>
      bam ← open_bam fn;
      col ← lift (parse_bam_absolute bam regs);
      cols ← run_par_absolute bams' regs;
      mret (col :: cols)
  end.

Definition process_bam_absolute (bams : list path) (regs : list region)
    (shorten : bool) : task (list string * list (list float)) :=
  let names := absolute_names shorten bams in
  tmp ← run_par_absolute bams regs;
  counts ← lift (column_stack NaN tmp);
  mret (names, counts).

(** The run identifier in use: the one given, or else the hash of the
    inputs. *)
Definition absolute_runid (bed : path) (bams : list path)
    (runid : option string) : string :=
  if no_runid runid then hash_absolute bed bams else default "" runid.

Definition differential_runid (bed : path) (abams bbams : list path)
    (runid : option string) : string :=
  if no_runid runid then hash_differential bed abams bbams
  else default "" runid.

Definition extract_absolute (bed : option path) (bams : option (list path))
    (odn : string) (runid : option string) (shorten : bool) : task path :=
  _ ← chk_exit (bool_decide (bed = None)) "a BED6+ file is required";
  _ ← chk_exit (bool_decide (bams = None)) "a set of BAM files is required";
  let bed := default ("", "") bed in
  let bams := default [] bams in
  _ ← chks (map inp_file bams);
  _ ← mkdir odn;
  let runid := absolute_runid bed bams runid in
  bed_regions ← parse_bed bed;
  found ← listdir odn (runid +:+ "_lvl.arr");
  _ ← chk_exit (nonempty found) ("error: " +:+ runid +:+ " exists in " +:+ odn);
  nc ← process_bam_absolute bams bed_regions shorten;
  let fn := (odn, runid +:+ "_lvl.arr") in
  _ ← write_file fn (ArrFile nc.1 nc.2);
  mret fn.

Fixpoint run_par_differential (abbams : list (path * path))
  : task (list (Samfile * Samfile)) :=
  match abbams with
  | [] => mret []
  | (afn, bfn) :: abbams' =>
      abam ← open_bam afn;
      bbam ← open_bam bfn;
      pairs ← run_par_differential abbams';
      mret ((abam, bbam) :: pairs)
  end.

Definition process_bam_differential (abams bbams : list path)
    (regs : list region) (shorten : bool) (step : Z)
  : task (list string * list (list Z)) :=
  names ← lift (differential_names shorten abams bbams);
  pairs ← run_par_differential (zip abams bbams);
  counts ← lift (differential_counts pairs regs step);
  mret (names, counts).

Definition extract_differential (bed : path) (abams bbams : list path)
    (odn : string) (runid : option string) (shorten : bool) (step : Z)
  : task path :=
  r ← inp_file bed;
  _ ← chk_exit r.1 r.2;
  _ ← chks (map inp_file (abams ++ bbams));
  let abams := sorted abams in
  let bbams := sorted bbams in
  _ ← mkdir odn;
  let runid := differential_runid bed abams bbams runid in
  bed_regions ← parse_bed bed;
  found ← listdir odn (runid +:+ "_cnt.arr");
  _ ← chk_exit (nonempty found) ("error: " +:+ runid +:+ " exists in " +:+ odn);
  nc ← process_bam_differential abams bbams bed_regions shorten step;
  let fn := (odn, runid +:+ "_cnt.arr") in
  _ ← write_file fn (ArrFile nc.1 (savetxt_d nc.2));
  mret fn.

End Tasks.

(** * Reference quantities used in the statements *)

(** Sum of the positive deltas, and of the negative ones in absolute
    value. *)
Fixpoint gain_sum (ds : list R) : R :=
  match ds with
  | [] => 0
  | d :: ds' => Rmax d 0 + gain_sum ds'
  end.

Fixpoint loss_sum (ds : list R) : R :=
  match ds with
  | [] => 0
  | d :: ds' => Rmax (- d) 0 + loss_sum ds'
  end.

(** [ceil(a / b)] for a positive [b]. *)
Definition ceil_div (a b : Z) : Z := ((a + b - 1) / b)%Z.

(** The windows of one region: the [k]-th starts [k] steps after the
    start of the region and is one step wide. *)
Definition region_windows (abam bbam : Samfile) (step : Z) (reg : region)
  : list (Z * Z) :=
  map (λ k : nat,
         let s := (chromStart reg + Z.of_nat k * step)%Z in
         (Z.of_nat (count abam (chrom reg) s (s + step)),
          Z.of_nat (count bbam (chrom reg) s (s + step))))
      (seq 0 (Z.to_nat (ceil_div (chromEnd reg - chromStart reg) step))).

(** The value [parse_bam_absolute] stores for a region. *)
Definition normalized (bam : Samfile) (reg : region) : float :=
  Fin (INR (count bam (chrom reg) (chromStart reg) (chromEnd reg))
       / IZR (chromEnd reg - chromStart reg)).

(** [w'] differs from [w] by directories made at most: no file is
    written or changed and no alignment file is opened. *)
Definition quiet (w w' : world) : Prop :=
  files w' = files w
  ∧ ∃ ds, trace w' = trace w ++ map EvMkdir ds.

Definition Rsum (l : list R) : R := fold_left Rplus l 0.

(** The sample standard deviation: the sum of the squared deviations
    from the mean over [n - 1], square root. *)
Definition sample_std (l : list R) : R :=
  let m := Rsum l / INR (length l) in
  sqrt (Rsum (map (λ x, (x - m) * (x - m)) l) / INR (length l - 1)).

(** The least value of a column. *)
Fixpoint Rmin_list (l : list R) : R :=
  match l with
  | [] => 0
  | [x] => x
  | x :: l' => Rmin x (Rmin_list l')
  end.

(** [quantile1D] on finite values, in real arithmetic. *)
Definition Rquantile (l : list R) (p : R) : R :=
  let x := Rsort l in
  let n := length x in
  match n with
  | O => 0
  | S O => nth 0 x 0
  | _ =>
      let m := 0.4 + p * (1 - 0.4 - 0.4) in
      let aleph := INR n * p + m in
      let k := Z.to_nat (Int_part (Rclip aleph 1 (INR n - 1))) in
      let gamma := Rclip (aleph - INR k) 0 1 in
      (1 - gamma) * nth (k - 1) x 0 + gamma * nth k x 0
  end.

(** [dsig] on one value. *)
Definition dsig_elem (lq loc uq x : float) : float :=
  let alpha_l := fsub loc lq in
  let alpha_r := fsub uq loc in
  let a := fsub x loc in
  let a1 := if truthy alpha_l && flt a (Fin 0)
            then fdiv a (fmul (Fin (-0.5)) alpha_l) else a in
  let a2 := if truthy alpha_r && fge a (Fin 0)
            then fdiv a1 (fmul (Fin (-0.5)) alpha_r) else a1 in
  fdiv (Fin 1) (fadd (fexp a2) (Fin 1)).

(** The value that [dsig] passes to the exponential, for finite
    arguments: the offset from the location, divided by minus half the
    half-width of its side unless that half-width is zero. *)
Definition dsig_exponent (lq loc uq x : R) : R :=
  let a := x - loc in
  if Rltb a 0
  then if Reqb (loc - lq) 0 then a else a / (-0.5 * (loc - lq))
  else if Reqb (uq - loc) 0 then a else a / (-0.5 * (uq - loc)).

(** The size factors [scapair] computes for the pair of columns that
    starts at [col1]. *)
Definition pair_sf (raw : list (list float)) (col1 : nat) : list float :=
  size_factors (Nat.min 2 (width raw - col1))
    (map (slice2 col1) (List.filter sel_row raw)).

(** [scaled[raw == -1] = nan] on one row. *)
Definition mark_missing (row : list float) : list float :=
  map (λ x, if feq x (Fin (-1)) then NaN else x) row.

(** The values [col1] of the loop of [scapair]. *)
Definition pair_columns (w : nat) : list nat :=
  map (λ k, 2 * k)%nat (seq 0 (Z.to_nat (ceil_div (Z.of_nat w) 2))).

(** What [scapair] makes of one row of [raw]. *)
Definition scapair_row (raw : list (list float)) (rrow : list float)
  : list float :=
  if sel_row rrow
  then fold_left
         (λ srow col1,
            set_slice col1 (zip_with fdiv (slice2 col1 rrow) (pair_sf raw col1))
              srow)
         (pair_columns (width raw)) (mark_missing rrow)
  else mark_missing rrow.

(** The number of rows of the count matrix: for every region its
    windows and its sentinel. *)
Definition window_rows (step : Z) (regs : list region) : nat :=
  list_sum (map (λ reg,
                   S (Z.to_nat (ceil_div (chromEnd reg - chromStart reg) step)))
                regs).

(** * Further reference quantities *)

(** The values of [s] in [for s in xrange(start, end, step)], none when
    [xrange] refuses the step. *)
Definition window_starts (step : Z) (reg : region) : list Z :=
  match xrange (chromStart reg) (chromEnd reg) step with
  | Ok ss => ss
  | Raise _ => []
  end.

(** A value that is neither negative nor NaN. *)
Definition nonneg (x : float) : Prop :=
  match x with
  | Fin r => 0 <= r
  | PInf => True
  | _ => False
  end.

(** A task that leaves every file as it is, whatever it returns. *)
Definition keeps_files {A} (t : task A) : Prop :=
  ∀ w r w', t w = (r, w') → files w' = files w.

(** * Names and parameters

    A Python 2 [str] is a sequence of bytes. *)

From Stdlib Require Import Ascii.

Definition str : Type := list ascii.

Module Str.

(** [s.startswith(sub)] *)
Fixpoint is_prefix (sub s : str) : bool :=
  match sub, s with
  | [], _ => true
  | _ :: _, [] => false
  | a :: sub', b :: s' => Ascii.eqb a b && is_prefix sub' s'
  end.

(** [sub in s] *)
Fixpoint contains (sub s : str) : bool :=
  is_prefix sub s
  || match s with
     | [] => false
     | _ :: s' => contains sub s'
     end.

(** [s[a:b]] for indices that are not negative. *)
Definition slice (s : str) (a b : nat) : str := take (b - a) (drop a s).

(** The optional count of [replace] and [split]: [None] when it is
    left out, and there is no limit. *)
Definition more (count : option nat) : bool :=
  match count with
  | Some O => false
  | _ => true
  end.

Definition less (count : option nat) : option nat :=
  match count with
  | Some n => Some (pred n)
  | None => None
  end.

(** [s.replace(old, new[, count])] for an [old] that is not empty: the
    occurrences of [old] are found from the left and do not overlap;
    [skip] is the number of characters of an occurrence still to pass
    over. *)
Fixpoint replace_from (old new : str) (count : option nat) (skip : nat)
    (s : str) : str :=
  match s with
  | [] => []
  | c :: s' =>
      match skip with
      | S k => replace_from old new count k s'
      | O =>
          if more count && is_prefix old s
          then new ++ replace_from old new (less count) (pred (length old)) s'
          else c :: replace_from old new count 0 s'
      end
  end.

(** With an empty [old], [new] is put before each character and at the
    end, as often as [count] allows. *)
Fixpoint replace_interleave (new : str) (count : option nat) (s : str) : str :=
  match s with
  | [] => []
  | c :: s' =>
      if more count then c :: new ++ replace_interleave new (less count) s'
      else s
  end.

Definition replace (old new : str) (count : option nat) (s : str) : str :=
  match old with
  | [] =>
      match count, s with
      | Some O, _ => s
      | Some _, [] => s
      | _, _ => new ++ replace_interleave new (less count) s
      end
  | _ :: _ => replace_from old new count 0 s
  end.

(** [s.split(sep[, maxsplit])] for a separator of one character. *)
Fixpoint split (sep : ascii) (maxsplit : option nat) (s : str) : list str :=
  match s with
  | [] => [[]]
  | c :: s' =>
      if more maxsplit && Ascii.eqb c sep
      then [] :: split sep (less maxsplit) s'
      else match split sep maxsplit s' with
           | piece :: pieces => (c :: piece) :: pieces
           | [] => [[c]]
           end
  end.

(** [sep.join(l)] *)
Fixpoint join (sep : str) (l : list str) : str :=
  match l with
  | [] => []
  | [s] => s
  | s :: l' => s ++ sep ++ join sep l'
  end.

(** [c.isspace()]: the space, and the characters from the tab to the
    carriage return. *)
Definition isspace (c : ascii) : bool :=
  let n := nat_of_ascii c in
  (n =? 32)%nat || ((9 <=? n)%nat && (n <=? 13)%nat).

Fixpoint lstrip (s : str) : str :=
  match s with
  | [] => []
  | c :: s' => if isspace c then lstrip s' else s
  end.

Definition rstrip (s : str) : str := rev (lstrip (rev s)).

(** [s.strip()] *)
Definition strip (s : str) : str := rstrip (lstrip s).

(** [fh.readline()] on what is left to read of a file: the line with
    its newline, and what is left after it. *)
Fixpoint readline (s : str) : str * str :=
  match s with
  | [] => ([], [])
  | c :: s' =>
      if Ascii.eqb c "010"%char then ([c], s')
      else let (line, rest) := readline s' in (c :: line, rest)
  end.

End Str.

(** [common_sub]: the two loops run over the start [i] and the length
    [j] of a slice of the first string; [common_sub_turn] is a turn of
    the inner loop. *)
Definition common_sub_turn (d0 : str) (data : list str) (i : nat)
    (substr : str) (j : nat) : str :=
  if (length substr <? j)%nat
     && forallb (Str.contains (Str.slice d0 i (i + j))) data
  then Str.slice d0 i (i + j)
  else substr.

Definition common_sub (data : list str) : str :=
  match data with
  | d0 :: _ :: _ =>
      if (0 <? length d0)%nat then
        fold_left
          (λ substr i,
             fold_left (common_sub_turn d0 data i)
               (seq 0 (length d0 - i + 1)) substr)
          (seq 0 (length d0)) []
      else []
  | _ => []
  end.

(** A string found in every string of a list. *)
Definition common_to (data : list str) (s : str) : Prop :=
  forallb (Str.contains s) data = true.

(** The names of [process_bam_absolute] after the stems of the file
    names are taken. *)
Definition shorten_absolute (shorten : bool) (names : list str) : list str :=
  let fx := common_sub names in
  if shorten && (6 <? length fx)%nat
  then map (Str.replace fx [] None) names
  else names.

(** The names of [process_bam_differential] after the stems of the
    file names are taken; [None] is the [AssertionError] raised when
    the two lists of names differ. *)
Definition pair_names (shorten : bool) (anames bnames : list str)
  : option (list str) :=
  let first (a : str) := hd [] (Str.split "_"%char (Some 1%nat) a) in
  let anames := map first anames in
  let bnames := map first bnames in
  if bool_decide (anames = bnames) then
    let fx := common_sub (anames ++ bnames) in
    let cut := shorten && (6 <? length fx)%nat in
    let anames := if cut then map (Str.replace fx [] None) anames else anames in
    let bnames := if cut then map (Str.replace fx [] None) bnames else bnames in
    let anames := map (λ a, a ++ [":"; "a"]%char) anames in
    let bnames := map (λ b, b ++ [":"; "b"]%char) bnames in
    Some (concat (zip_with (λ a b, [a; b]) anames bnames))
  else None.

(** One name of [glnames] in [scale_differential]. *)
Definition glname (n : str) : str :=
  rev (Str.replace ["b"; ":"]%char ["l"; ":"]%char (Some 1%nat)
         (Str.replace ["a"; ":"]%char ["g"; ":"]%char (Some 1%nat) (rev n))).

(** [fh.readline().strip().split("\t")], the names read back from the
    first line of an array file, and [("\t".join(names) + "\n")], the
    line written. *)
Definition read_names (content : str) : list str :=
  Str.split "009"%char None (Str.strip (Str.readline content).1).

Definition names_line (names : list str) : str :=
  Str.join ["009"%char] names ++ ["010"%char].

(** A value of the dictionary of parameters. *)
Inductive pyvalue : Type :=
| VInt (z : Z)
| VFloat (x : float)
| VStr (s : str).

Section Params.

(** [int(v)] and [float(v)] on a string: [None] for the [ValueError]
    of a string that is not a number. *)
Variable py_int : str → option Z.
Variable py_float : str → option float.

Definition guess (v : str) : pyvalue :=
  match py_int v with
  | Some z => VInt z
  | None =>
      match py_float v with
      | Some x => VFloat x
      | None => VStr v
      end
  end.

(** One turn of the loop of [parse_params]. *)
Definition parse_param (kwargs : gmap str pyvalue) (param : str)
  : result (gmap str pyvalue) :=
  match Str.split ":"%char None param with
  | [k; v] => Ok (<[ k := guess v ]> kwargs)
  | [_] => Raise (ValueError "need more than 1 value to unpack")
  | _ => Raise (ValueError "too many values to unpack")
  end.

Fixpoint parse_params_loop (params : list str) (kwargs : gmap str pyvalue)
  : result (gmap str pyvalue) :=
  match params with
  | [] => Ok kwargs
  | param :: params' =>
      bind (parse_param kwargs param) (parse_params_loop params')
  end.

Definition parse_params (params : option str) (kwargs : gmap str pyvalue)
  : result (gmap str pyvalue) :=
  match params with
  | None | Some [] => Ok kwargs
  | Some p => parse_params_loop (Str.split ","%char None p) kwargs
  end.

End Params.

(** Names that a header line keeps: no name has a tab or a newline in
    it, the first one starts and the last one ends with a character
    that is not white space. *)
Definition plain (n : str) : bool :=
  forallb (λ c, negb (Ascii.eqb c "009"%char) && negb (Ascii.eqb c "010"%char))
    n.

Definition trimmed_left (n : str) : bool :=
  match n with
  | c :: _ => negb (Str.isspace c)
  | [] => false
  end.

Definition header_safe (names : list str) : bool :=
  forallb plain names
  && from_option trimmed_left false (head names)
  && from_option (λ n, trimmed_left (rev n)) false (last names).

(** The string of parameters that stands for a list of keys and
    values, and the strings that can be a key or a value in it. *)
Definition format_params (pairs : list (str * str)) : str :=
  Str.join [","%char] (map (λ kv, kv.1 ++ [":"%char] ++ kv.2) pairs).

Definition bare (s : str) : bool :=
  forallb (λ c, negb (Ascii.eqb c ","%char) && negb (Ascii.eqb c ":"%char)) s.

(** The number of colons in a string. *)
Definition colons (s : str) : nat := count_occ ascii_dec s ":"%char.

(** A name that no tag of a pair occurs in. *)
Definition untagged (x : str) : bool :=
  negb (Str.contains [":"; "a"]%char x) && negb (Str.contains [":"; "b"]%char x).

(** The name of the file that a scaling or coding task writes,
    [arr.replace(".arr", new)]: [new] is ["_lvl.arr"] in
    [scale_differential], the name of the algorithm between ["_"] and
    [".arr"] in [scale_pairs] and [scale_features]. *)
Definition output_name (new : str) (arr : str) : str :=
  Str.replace ["."; "a"; "r"; "r"]%char new None arr.

Definition scaled_name (scalgo : str) (arr : str) : str :=
  output_name (["_"%char] ++ scalgo ++ ["."; "a"; "r"; "r"]%char) arr.

(** * The matcher behind [path.listdir(pattern)]

    [fnmatch.filter(names, pattern)] turns the pattern into a regular
    expression ([fnmatch.translate]) and keeps the names that it
    matches from the first character to the last. *)

Module Fnmatch.

(** The pieces of the regular expression: [.*] for a star, [.] for a
    question mark, a character class, or the character itself. For a
    class, [stuff] is what the brackets hold after the mark of
    negation. *)
Inductive piece : Type :=
| Star
| Any
| Lit (c : ascii)
| Class (negated : bool) (stuff : str).

(** The characters before the first ["]"] and those after it. *)
Fixpoint close (s : str) : option (str * str) :=
  match s with
  | [] => None
  | c :: s' =>
      if Ascii.eqb c "]"%char then Some ([], s')
      else match close s' with
           | Some (stuff, rest) => Some (c :: stuff, rest)
           | None => None
           end
  end.

(** What follows a ["["]: after a ["!"] and a ["]"], which both may be
    missing, the class runs to the first ["]"]; without one there is
    no class. *)
Definition class (s : str) : option (piece * str) :=
  let (negated, s1) :=
    match s with
    | c :: t => if Ascii.eqb c "!"%char then (true, t) else (false, s)
    | [] => (false, s)
    end in
  let (first, s2) :=
    match s1 with
    | c :: t => if Ascii.eqb c "]"%char then ([c], t) else ([], s1)
    | [] => ([], s1)
    end in
  match close s2 with
  | Some (stuff, rest) => Some (Class negated (first ++ stuff), rest)
  | None => None
  end.

(** [translate]: [fuel] bounds the number of pieces by the length of
    the pattern. *)
Fixpoint translate (fuel : nat) (pat : str) : list piece :=
  match fuel, pat with
  | S fuel, c :: pat' =>
      if Ascii.eqb c "*"%char then Star :: translate fuel pat'
      else if Ascii.eqb c "?"%char then Any :: translate fuel pat'
      else if Ascii.eqb c "["%char then
        match class pat' with
        | Some (cl, rest) => cl :: translate fuel rest
        | None => Lit c :: translate fuel pat'
        end
      else Lit c :: translate fuel pat'
  | _, _ => []
  end.

(** A class of the regular expression: [lo-hi] is the range of the
    characters from [lo] to [hi], any other character stands for
    itself. A range whose ends are in the wrong order is refused by
    [re.compile]. *)
Fixpoint class_ok (stuff : str) : bool :=
  match stuff with
  | [] => true
  | lo :: rest1 =>
      match rest1 with
      | dash :: hi :: rest =>
          if Ascii.eqb dash "-"%char
          then (nat_of_ascii lo <=? nat_of_ascii hi)%nat && class_ok rest
          else class_ok rest1
      | _ => class_ok rest1
      end
  end.

Fixpoint in_class (stuff : str) (c : ascii) : bool :=
  match stuff with
  | [] => false
  | lo :: rest1 =>
      match rest1 with
      | dash :: hi :: rest =>
          if Ascii.eqb dash "-"%char
          then ((nat_of_ascii lo <=? nat_of_ascii c)%nat
                && (nat_of_ascii c <=? nat_of_ascii hi)%nat)
               || in_class rest c
          else Ascii.eqb lo c || in_class rest1 c
      | _ => Ascii.eqb lo c || in_class rest1 c
      end
  end.

Definition piece_ok (p : piece) : bool :=
  match p with
  | Class _ stuff => class_ok stuff
  | _ => true
  end.

(** Whether the pieces match the whole of [name]. *)
Fixpoint matches (ps : list piece) : str → bool :=
  match ps with
  | [] => λ name, match name with [] => true | _ => false end
  | Star :: ps' =>
      fix star (name : str) : bool :=
        matches ps' name
        || match name with
           | [] => false
           | _ :: name' => star name'
           end
  | Any :: ps' =>
      λ name, match name with
              | _ :: name' => matches ps' name'
              | [] => false
              end
  | Lit c :: ps' =>
      λ name, match name with
              | d :: name' => Ascii.eqb c d && matches ps' name'
              | [] => false
              end
  | Class negated stuff :: ps' =>
      λ name, match name with
              | d :: name' =>
                  xorb negated (in_class stuff d) && matches ps' name'
              | [] => false
              end
  end.

(** [fnmatch.filter([name], pattern)] keeps [name]; [None] when the
    regular expression is refused. *)
Definition fnmatch (name pattern : string) : option bool :=
  let pat := list_ascii_of_string pattern in
  let ps := translate (length pat) pat in
  if forallb piece_ok ps
  then Some (matches ps (list_ascii_of_string name))
  else None.

End Fnmatch.

(** The matcher as the tasks take it: a pattern that [re] refuses
    stops the task in Python, and matches no name here. *)
Definition listdir_matcher (name pattern : string) : bool :=
  default false (Fnmatch.fnmatch name pattern).

(** A string without any of the characters that a pattern reads as
    more than themselves. *)
Definition literal (s : string) : bool :=
  forallb (λ c, negb (Ascii.eqb c "*"%char) && negb (Ascii.eqb c "?"%char)
                && negb (Ascii.eqb c "["%char))
    (list_ascii_of_string s).

(** * Feature scaling in floating point

    The arithmetic of [numpy]'s [float64], for the results that rounding
    decides: the same computations as [np_std], [scarr_whiten_row] and
    [mquantiles], on the kernel's binary64 numbers, whose sum,
    difference, product, quotient and square root are the correctly
    rounded ones. *)

Module B64.

(** [np.add.reduce] over the axis: the values are added one after the
    other to the first one. *)
Definition add_reduce (l : list PrimFloat.float) : PrimFloat.float :=
  match l with
  | [] => PrimFloat.zero
  | x :: l' => fold_left PrimFloat.add l' x
  end.

Definition of_nat (n : nat) : PrimFloat.float :=
  PrimFloat.of_uint63 (Uint63.of_Z (Z.of_nat n)).

Definition np_std (ddof : nat) (l : list PrimFloat.float) : PrimFloat.float :=
  let arrmean := PrimFloat.div (add_reduce l) (of_nat (length l)) in
  let x := map (λ v, PrimFloat.sub v arrmean) l in
  let x := map (λ v, PrimFloat.mul v v) x in
  PrimFloat.sqrt (PrimFloat.div (add_reduce x) (of_nat (length l - ddof))).

Definition scarr_whiten_row (row : list PrimFloat.float)
  : list PrimFloat.float :=
  let dev := np_std 1 row in
  let dev := if PrimFloat.eqb dev PrimFloat.zero then PrimFloat.nan else dev in
  map (λ x, PrimFloat.div x dev) row.

(** The number that Python reads from ["0.1"]: the binary64 number
    nearest to one tenth. *)
Definition tenth : PrimFloat.float := PrimFloat.div (of_nat 1) (of_nat 10).

(** The order of [np.sort]: the numerical one, with NaN last. *)
Definition sort_leb (x y : PrimFloat.float) : bool :=
  PrimFloat.is_nan y || PrimFloat.leb x y.

Definition np_sort : list PrimFloat.float → list PrimFloat.float :=
  isort sort_leb.

(** [np.maximum] and [np.minimum], which hand a NaN on, and
    [x.clip(lo, hi)]. *)
Definition maximum (x y : PrimFloat.float) : PrimFloat.float :=
  if PrimFloat.is_nan x then x
  else if PrimFloat.is_nan y then y
  else if PrimFloat.leb x y then y else x.

Definition minimum (x y : PrimFloat.float) : PrimFloat.float :=
  if PrimFloat.is_nan x then x
  else if PrimFloat.is_nan y then y
  else if PrimFloat.leb x y then x else y.

Definition clip (x lo hi : PrimFloat.float) : PrimFloat.float :=
  minimum (maximum x lo) hi.

(** [np.floor(y).astype(int)] for a [y] from 0 to [n]: the greatest
    integer that is not above [y]. *)
Fixpoint floor_upto (n : nat) (y : PrimFloat.float) : nat :=
  match n with
  | O => O
  | S n' => if PrimFloat.leb (of_nat n) y then n else floor_upto n' y
  end.

(** The default [alphap] and [betap] of [mquantiles], read from
    [".4"]. *)
Definition alphap : PrimFloat.float := PrimFloat.div (of_nat 4) (of_nat 10).

(** [_quantiles1D], with [m = alphap + p*(1.-alphap-betap)]. *)
Definition quantile1D (data : list PrimFloat.float) (p : PrimFloat.float)
  : PrimFloat.float :=
  let x := np_sort data in
  let n := length x in
  match n with
  | O => PrimFloat.nan
  | S O => nth 0 x PrimFloat.nan
  | _ =>
      let m := PrimFloat.add alphap
                 (PrimFloat.mul p
                    (PrimFloat.sub (PrimFloat.sub PrimFloat.one alphap)
                       alphap)) in
      let aleph := PrimFloat.add (PrimFloat.mul (of_nat n) p) m in
      let k := floor_upto (n - 1)
                 (clip aleph PrimFloat.one (of_nat (n - 1))) in
      let gamma := clip (PrimFloat.sub aleph (of_nat k))
                     PrimFloat.zero PrimFloat.one in
      PrimFloat.add
        (PrimFloat.mul (PrimFloat.sub PrimFloat.one gamma)
           (nth (k - 1) x PrimFloat.nan))
        (PrimFloat.mul gamma (nth k x PrimFloat.nan))
  end.

Definition mquantiles (data : list PrimFloat.float)
    (prob : list PrimFloat.float) : list PrimFloat.float :=
  map (quantile1D data) prob.

(** Python's [bool] of a number. *)
Definition truthy (x : PrimFloat.float) : bool :=
  negb (PrimFloat.eqb x PrimFloat.zero).

End B64.

(** * The double sigmoid in float32

    [dsig] narrows its argument to [float32] ([dtype="f"]) and works on
    it with scalars of [float64], which [numpy] narrows as well before
    it applies an operation of [float32]. The numbers of [float32] are
    those of the specification of IEEE 754 arithmetic with a mantissa
    of 24 bits; sum, difference, product and quotient are the correctly
    rounded ones. *)

Module F32.

Definition float : Type := SpecFloat.spec_float.

Definition prec : Z := 24.
Definition emax : Z := 128.

Definition add : float → float → float := SpecFloat.SFadd prec emax.
Definition sub : float → float → float := SpecFloat.SFsub prec emax.
Definition mul : float → float → float := SpecFloat.SFmul prec emax.
Definition div : float → float → float := SpecFloat.SFdiv prec emax.
Definition ltb : float → float → bool := SpecFloat.SFltb.
Definition leb : float → float → bool := SpecFloat.SFleb.

Definition of_Z (z : Z) : float :=
  SpecFloat.binary_normalize prec emax z 0 false.

Definition zero : float := SpecFloat.S754_zero false.
Definition one : float := of_Z 1.
Definition two : float := of_Z 2.
Definition half : float := div one two.

(** [np.float32(x)]: the nearest number of [float32], the even one of
    two that are as near; beyond the range, an infinity. *)
Definition of_b64 (x : PrimFloat.float) : float :=
  match FloatOps.Prim2SF x with
  | SpecFloat.S754_finite s m e => SpecFloat.binary_round prec emax s m e
  | y => y
  end.

(** [np.float64(x)], which is exact. *)
Definition to_b64 (x : float) : PrimFloat.float := FloatOps.SF2Prim x.

(** [np.exp] on [float32], where the result is the same whatever the
    library that computes it: at NaN, the infinities and zero, below
    -104, where the exponential is less than half the least positive
    number of [float32] and the result is zero, and above 89, where it
    is greater than every number of [float32] and the result is the
    infinity. In between the result is left open. *)
Definition exp (x : float) : option float :=
  match x with
  | SpecFloat.S754_nan => Some SpecFloat.S754_nan
  | SpecFloat.S754_infinity false => Some (SpecFloat.S754_infinity false)
  | SpecFloat.S754_infinity true => Some zero
  | SpecFloat.S754_zero _ => Some one
  | SpecFloat.S754_finite _ _ _ =>
      if leb x (of_Z (-104)) then Some zero
      else if leb (of_Z 89) x then Some (SpecFloat.S754_infinity false)
      else None
  end.

(** [dsig], value by value; a value whose exponential is left open is
    [None]. [np.power(a, -1)] is the quotient of 1 by [a]. *)
Definition dsig (a : list PrimFloat.float) (lq loc uq : PrimFloat.float)
  : list (option float) :=
  let a := map of_b64 a in
  let alpha_l := PrimFloat.sub loc lq in
  let alpha_r := PrimFloat.sub uq loc in
  let a := map (λ x, sub x (of_b64 loc)) a in
  let lsel := map (λ x, ltb x zero) a in
  let rsel := map (λ x, leb zero x) a in
  let minus_half := PrimFloat.opp (PrimFloat.div PrimFloat.one PrimFloat.two) in
  let a := if B64.truthy alpha_l
           then mask_map lsel
                  (λ x, div x (of_b64 (PrimFloat.mul minus_half alpha_l))) a
           else a in
  let a := if B64.truthy alpha_r
           then mask_map rsel
                  (λ x, div x (of_b64 (PrimFloat.mul minus_half alpha_r))) a
           else a in
  let a := map exp a in
  let a := map (option_map (λ x, add x one)) a in
  map (option_map (λ x, div one x)) a.

(** One column of [scarr] with a ["sig<p>"] method:
    [row[:] = (dsig(row, lq, mu, uq) - 0.5) * 2.], the result being
    widened to [float64] again. *)
Definition scarr_sig_row (hi : PrimFloat.float) (row : list PrimFloat.float)
  : list (option PrimFloat.float) :=
  match B64.mquantiles row [PrimFloat.zero; PrimFloat.zero; hi] with
  | [lq; mu; uq] =>
      map (option_map (λ y, to_b64 (mul (sub y half) two)))
        (dsig row lq mu uq)
  | _ => map Some row
  end.

End F32.
(** * Properties *)

(** ** Deciding comparisons of real numbers *)

Lemma Rltb_true x y : x < y → Rltb x y = true.
Proof. intros H. unfold Rltb. destruct (Rlt_dec x y); [reflexivity | lra]. Qed.

Lemma Rltb_false x y : y <= x → Rltb x y = false.
Proof. intros H. unfold Rltb. destruct (Rlt_dec x y); [lra | reflexivity]. Qed.

Lemma Rleb_true x y : x <= y → Rleb x y = true.
Proof. intros H. unfold Rleb. destruct (Rle_dec x y); [reflexivity | lra]. Qed.

Lemma Rleb_false x y : y < x → Rleb x y = false.
Proof. intros H. unfold Rleb. destruct (Rle_dec x y); [lra | reflexivity]. Qed.

Lemma Reqb_true x y : x = y → Reqb x y = true.
Proof.
  intros H. unfold Reqb. destruct (Req_dec_T x y); [reflexivity | lra].
Qed.

Lemma Reqb_false x y : x ≠ y → Reqb x y = false.
Proof.
  intros H. unfold Reqb. destruct (Req_dec_T x y); [contradiction | reflexivity].
Qed.

Lemma Rltb_spec x y : reflect (x < y) (Rltb x y).
Proof. unfold Rltb. destruct (Rlt_dec x y); constructor; assumption. Qed.

Lemma Rleb_spec x y : reflect (x <= y) (Rleb x y).
Proof. unfold Rleb. destruct (Rle_dec x y); constructor; assumption. Qed.

Lemma Reqb_spec x y : reflect (x = y) (Reqb x y).
Proof. unfold Reqb. destruct (Req_dec_T x y); constructor; assumption. Qed.

(** Settles every comparison of two real numbers that [lra] can. *)
Ltac rcompare :=
  repeat match goal with
  | |- context [Rltb ?a ?b] =>
      first [ rewrite (Rltb_true a b) by lra | rewrite (Rltb_false a b) by lra ]
  | |- context [Rleb ?a ?b] =>
      first [ rewrite (Rleb_true a b) by lra | rewrite (Rleb_false a b) by lra ]
  | |- context [Reqb ?a ?b] =>
      first [ rewrite (Reqb_true a b) by lra | rewrite (Reqb_false a b) by lra ]
  end.

(** ** The gain/loss walk *)

Lemma fdiv_Fin a b : b ≠ 0 → fdiv (Fin a) (Fin b) = Fin (a / b).
Proof. intros H. cbn. rewrite Reqb_false by assumption. reflexivity. Qed.

Lemma INR_S_neq_0 n : INR (S n) ≠ 0.
Proof. apply not_0_INR. discriminate. Qed.

Lemma accumulate_single g l d :
  accumulate [Fin g; Fin l] [Fin d]
  = Ok [Fin (g + Rmax d 0); Fin (l + Rmax (- d) 0)].
Proof.
  cbn -[Rltb]. destruct (Rltb_spec 0 d) as [Hp | Hp];
    destruct (Rltb_spec d 0) as [Hn | Hn]; cbn; try lra.
  - rewrite Rmax_left, (Rmax_right (- d)) by lra. do 4 f_equal; lra.
  - rewrite Rmax_right, (Rmax_left (- d)) by lra. do 4 f_equal; lra.
  - rewrite Rmax_right, (Rmax_right (- d)) by lra. do 4 f_equal; lra.
Qed.

(** What the walk does on one block of a single pair: the sums are
    divided by the number of rows read, the closing row included. *)
Lemma walk_single_pair_block zeros (ds : list R) nanrow rest j g l :
  existsb isnan nanrow = true →
  walk zeros (map (λ d, [Fin d]) ds ++ nanrow :: rest) j [Fin g; Fin l] =
  let n := INR (j + length ds + 1) in
  let closed := [Fin ((g + gain_sum ds) / n); Fin ((l + loss_sum ds) / n)] in
  match rest with
  | [] => Ok [closed]
  | _ => bind (walk zeros rest O zeros) (λ gl, Ok (closed :: gl))
  end.
Proof.
  intros Hnan. revert j g l.
  induction ds as [| d ds IH]; intros j g l.
  - cbn [map app walk length]. rewrite Hnan. cbn [map].
    replace (j + 0 + 1)%nat with (S j) by lia.
    rewrite !fdiv_Fin by apply INR_S_neq_0.
    cbn [gain_sum loss_sum]. rewrite !Rplus_0_r. reflexivity.
  - cbn [map app walk length existsb isnan orb].
    rewrite accumulate_single. cbn [bind]. rewrite IH.
    replace (S j + length ds + 1)%nat with (j + S (length ds) + 1)%nat by lia.
    cbn [gain_sum loss_sum]. rewrite !Rplus_assoc. reflexivity.
Qed.

Lemma gain_sum_zeros n : gain_sum (repeat 0 n) = 0.
Proof.
  induction n as [| n IH]; cbn; [reflexivity |].
  rewrite IH, Rmax_left by lra. lra.
Qed.

Lemma loss_sum_zeros n : loss_sum (repeat 0 n) = 0.
Proof.
  induction n as [| n IH]; cbn; [reflexivity |].
  rewrite IH, Rmax_right by lra. lra.
Qed.

(** C1, at the input the claim names: one window with delta +5, closed
    by its missing-value row. The walk counts the closing row in [j],
    so the gain is 5/2 and not 5. *)
Theorem scale_differential_single_window :
  scale_differential [[Fin 0; Fin 5]; [NaN; NaN]] = Ok [[Fin (5 / 2); Fin 0]]
  ∧ scale_differential [[Fin 0; Fin 5]; [NaN; NaN]] ≠ Ok [[Fin 5; Fin 0]].
Proof.
  assert (E : scale_differential [[Fin 0; Fin 5]; [NaN; NaN]]
              = Ok [[Fin (5 / 2); Fin 0]]).
  { unfold scale_differential. cbn [width length Nat.odd Nat.ltb Nat.leb andb negb].
    cbn [map deltas odds evens zip_with fsub fneg fadd repeat].
    change [[Fin (5 + - 0)]; [NaN]]
      with (map (λ d, [Fin d]) [5 + - 0] ++ [NaN] :: []).
    rewrite walk_single_pair_block by reflexivity.
    cbn [length gain_sum loss_sum Nat.add INR].
    rewrite Rmax_left, Rmax_right by lra.
    do 3 f_equal; [f_equal; lra | do 2 f_equal; lra]. }
  split; [exact E |].
  rewrite E. intros H. injection H as H. lra.
Qed.

(** The part of C1 that the walk does honour: a block whose deltas are
    all zero gives zero gain and zero loss. *)
Lemma scale_differential_zero_block n :
  scale_differential (repeat [Fin 0; Fin 0] n ++ [[NaN; NaN]])
  = Ok [[Fin 0; Fin 0]].
Proof.
  assert (Hw : width (repeat [Fin 0; Fin 0] n ++ [[NaN; NaN]]) = 2%nat)
    by (destruct n; reflexivity).
  unfold scale_differential. rewrite Hw.
  cbn [Nat.odd Nat.ltb Nat.leb andb negb repeat].
  rewrite map_app.
  assert (Hd : map deltas (repeat [Fin 0; Fin 0] n)
               = map (λ d, [Fin d]) (repeat 0 n)).
  { clear Hw. induction n as [| n IH]; cbn [repeat map]; [reflexivity |].
    rewrite IH. cbn. do 3 f_equal. lra. }
  rewrite Hd. cbn [map deltas odds evens zip_with fsub fneg fadd].
  assert (Hne : map (λ d, [Fin d]) (repeat 0 n) ++ [[NaN]] ≠ [])
    by (destruct n; discriminate).
  destruct (map (λ d, [Fin d]) (repeat 0 n) ++ [[NaN]]) eqn:E;
    [contradiction |].
  rewrite <- E. rewrite walk_single_pair_block by reflexivity.
  cbn zeta. rewrite gain_sum_zeros, loss_sum_zeros.
  do 3 f_equal; [f_equal | do 2 f_equal]; unfold Rdiv; lra.
Qed.

(** ** The walk on a matrix of pairs *)

Lemma update_last_ok k f cur :
  (k < length cur)%nat →
  update_last k f cur = Ok (alter f k cur).
Proof.
  intros H. unfold update_last.
  rewrite (proj2 (Nat.ltb_lt _ _) H). reflexivity.
Qed.

Lemma update_last_cases k f cur :
  update_last k f cur = Ok (alter f k cur)
  ∨ update_last k f cur = Raise IndexError.
Proof. unfold update_last. destruct (k <? length cur)%nat; auto. Qed.

(** A turn of the loop of [accumulate] returns lists as long as the
    one it is given, and raises nothing but [IndexError]. *)
Lemma accumulate_step_cases cur cv :
  (∃ cur', accumulate_step cur cv = Ok cur' ∧ length cur' = length cur)
  ∨ accumulate_step cur cv = Raise IndexError.
Proof.
  destruct cv as [c v]. unfold accumulate_step.
  destruct (flt (Fin 0) v).
  - destruct (update_last_cases (c * 2 + 0)%nat (λ g, fadd g v) cur) as [-> | ->];
      cbn [bind]; [| right; reflexivity].
    destruct (flt v (Fin 0)).
    + destruct (update_last_cases (c * 2 + 1)%nat (λ l, fsub l v)
                  (alter (λ g, fadd g v) (c * 2 + 0)%nat cur)) as [-> | ->];
        [left | right; reflexivity].
      eexists. split; [reflexivity |]. rewrite !length_alter. reflexivity.
    + left. eexists. split; [reflexivity |]. apply length_alter.
  - cbn [bind]. destruct (flt v (Fin 0)).
    + destruct (update_last_cases (c * 2 + 1)%nat (λ l, fsub l v) cur) as [-> | ->];
        [left | right; reflexivity].
      eexists. split; [reflexivity |]. apply length_alter.
    + left. eexists. split; reflexivity.
Qed.

Lemma accumulate_step_ok cur c v :
  (c * 2 + 1 < length cur)%nat →
  ∃ cur', accumulate_step cur (c, v) = Ok cur' ∧ length cur' = length cur.
Proof.
  intros Hc. unfold accumulate_step.
  destruct (flt (Fin 0) v).
  - rewrite update_last_ok by lia. cbn [bind]. destruct (flt v (Fin 0)).
    + rewrite update_last_ok by (rewrite length_alter; lia).
      eexists. split; [reflexivity |]. rewrite !length_alter. reflexivity.
    + eexists. split; [reflexivity |]. apply length_alter.
  - cbn [bind]. destruct (flt v (Fin 0)).
    + rewrite update_last_ok by lia.
      eexists. split; [reflexivity |]. apply length_alter.
    + eexists. split; reflexivity.
Qed.

Lemma accumulate_loop_cases cvs : ∀ cur,
  (∃ cur', accumulate_loop cvs cur = Ok cur' ∧ length cur' = length cur)
  ∨ accumulate_loop cvs cur = Raise IndexError.
Proof.
  induction cvs as [| cv cvs IH]; intros cur; cbn [accumulate_loop].
  - left. eexists. split; reflexivity.
  - destruct (accumulate_step_cases cur cv) as [(cur1 & -> & Hl1) | ->];
      cbn [bind]; [| right; reflexivity].
    destruct (IH cur1) as [(cur2 & -> & Hl2) | ->]; [left | right; reflexivity].
    eexists. split; [reflexivity | congruence].
Qed.

Lemma accumulate_loop_ok cvs : ∀ cur,
  Forall (λ cv : nat * float, (cv.1 * 2 + 1 < length cur)%nat) cvs →
  ∃ cur', accumulate_loop cvs cur = Ok cur' ∧ length cur' = length cur.
Proof.
  induction cvs as [| [c v] cvs IH]; intros cur Hin; cbn [accumulate_loop].
  - eexists. split; reflexivity.
  - apply Forall_cons in Hin as [Hc Hin]. cbn [fst] in Hc.
    destruct (accumulate_step_ok cur c v Hc) as (cur1 & -> & Hl1). cbn [bind].
    rewrite <- Hl1 in Hin.
    destruct (IH cur1 Hin) as (cur2 & -> & Hl2).
    eexists. split; [reflexivity | congruence].
Qed.

Lemma enumerate_bound {A} (row : list A) : ∀ start,
  Forall (λ cv : nat * A, (cv.1 < start + length row)%nat)
    (zip (seq start (length row)) row).
Proof.
  induction row as [| x row IH]; intros start; cbn [length seq zip zip_with].
  - constructor.
  - constructor; [cbn; lia |].
    eapply Forall_impl; [apply (IH (S start)) |]. cbn. intros cv Hcv. lia.
Qed.

(** With two lists of [gl] for every delta of a row no index is out
    of range. *)
Lemma accumulate_ok cur row :
  (2 * length row ≤ length cur)%nat →
  ∃ cur', accumulate cur row = Ok cur' ∧ length cur' = length cur.
Proof.
  intros H. apply accumulate_loop_ok.
  eapply Forall_impl; [apply (enumerate_bound row 0) |].
  cbn. intros cv Hcv. lia.
Qed.

(** On such rows the walk ends well exactly when the last row read
    holds a NaN. *)
Lemma walk_ok_iff zeros rows : ∀ j cur,
  rows ≠ [] →
  Forall (λ row, (2 * length row ≤ length zeros)%nat) rows →
  length cur = length zeros →
  (is_ok (walk zeros rows j cur)
   ↔ ∃ row, last rows = Some row ∧ existsb isnan row = true).
Proof.
  induction rows as [| row rest IH]; intros j cur Hne Hrows Hcur;
    [contradiction |].
  apply Forall_cons in Hrows as [Hrow Hrows].
  cbn [walk]. destruct (existsb isnan row) eqn:Hnan.
  - destruct rest as [| row' rest'].
    + split; [intros _; exists row; split; [reflexivity | exact Hnan]
             | intros _; eexists; reflexivity].
    + rewrite last_cons_cons.
      rewrite <- (IH O zeros ltac:(discriminate) Hrows eq_refl).
      unfold is_ok.
      destruct (walk zeros (row' :: rest') 0 zeros) as [gl | e]; cbn [bind].
      * split; intros _; eexists; reflexivity.
      * split; intros [a Ha]; discriminate.
  - destruct (accumulate_ok cur row) as (cur' & -> & Hl'); [lia |].
    cbn [bind].
    destruct rest as [| row' rest'].
    + cbn [walk]. split.
      * intros [a Ha]. discriminate.
      * intros (r & Hr & Hn). cbn in Hr. injection Hr as <-. congruence.
    + rewrite last_cons_cons. apply IH; [discriminate | assumption | congruence].
Qed.

(** Its only failure is an index out of range: a read past the last
    row, or a list of [gl] that is not there. *)
Lemma walk_ok_or_IndexError zeros rows : ∀ j cur,
  is_ok (walk zeros rows j cur) ∨ walk zeros rows j cur = Raise IndexError.
Proof.
  induction rows as [| row rest IH]; intros j cur; [right; reflexivity |].
  cbn [walk]. destruct (existsb isnan row).
  - destruct rest as [| row' rest']; [left; eexists; reflexivity |].
    destruct (IH O zeros) as [[gl Hgl] | Herr]; rewrite ?Hgl, ?Herr; cbn [bind].
    + left. eexists. reflexivity.
    + right. reflexivity.
  - destruct (accumulate_loop_cases (zip (seq 0 (length row)) row) cur)
      as [(cur' & Hacc & _) | Hacc]; unfold accumulate; rewrite Hacc;
      cbn [bind]; [apply IH | right; reflexivity].
Qed.

Lemma last_map {A B} (f : A → B) (l : list A) :
  last (map f l) = option_map f (last l).
Proof.
  induction l as [| x [| y l] IH]; [reflexivity | reflexivity |].
  change (map f (x :: y :: l)) with (f x :: f y :: map f l).
  rewrite !last_cons_cons. exact IH.
Qed.

Lemma evens_odds_length {A} k : ∀ l : list A,
  length l = (2 * k)%nat → length (evens l) = k ∧ length (odds l) = k.
Proof.
  induction k as [| k IH]; intros l Hl.
  - destruct l; [split; reflexivity | discriminate].
  - destruct l as [| x [| y l]]; [discriminate | cbn in Hl; lia |].
    cbn [evens odds length].
    destruct (IH l ltac:(cbn in Hl; lia)). split; congruence.
Qed.

(** A row of an even number of columns has a delta for every pair. *)
Lemma deltas_length row k :
  length row = (2 * k)%nat → length (deltas row) = k.
Proof.
  intros H. destruct (evens_odds_length k row H) as [He Ho].
  unfold deltas.
  assert (Hz : length (zip_with fsub (odds row) (evens row)) = k)
    by (rewrite length_zip_with; lia).
  destruct (odds row) as [| b [| b' bs]]; [exact Hz | | exact Hz].
  destruct (evens row) as [| a [| a' acols]]; [exact Hz | exact Hz |].
  cbn in He, Ho. lia.
Qed.

(** For a matrix of rows of one even length, [scale_differential]
    either returns or reads past the last row, and it returns exactly
    when the matrix has no row or the deltas of its last row hold a
    NaN. *)
Lemma scale_differential_ends_iff scaled m :
  Forall (λ row, length row = (2 * m)%nat) scaled →
  (is_ok (scale_differential scaled)
   ∨ scale_differential scaled = Raise IndexError)
  ∧ (is_ok (scale_differential scaled)
     ↔ scaled = []
       ∨ ∃ row, last scaled = Some row ∧ existsb isnan (deltas row) = true).
Proof.
  intros Hrect. unfold scale_differential.
  destruct scaled as [| row0 rest].
  - cbn [map width Nat.odd Nat.ltb Nat.leb andb].
    split; [left; eexists; reflexivity |].
    split; [intros _; left; reflexivity | intros _; eexists; reflexivity].
  - assert (Hw : width (row0 :: rest) = (2 * m)%nat)
      by (cbn [width]; apply (Forall_inv Hrect)).
    rewrite Hw.
    replace (Nat.odd (2 * m)) with false
      by (symmetry; rewrite <- Nat.negb_even, Nat.even_mul; reflexivity).
    cbn [andb].
    set (zeros := repeat (Fin 0) (2 * m)).
    assert (Hrows : Forall (λ row, (2 * length row ≤ length zeros)%nat)
                      (map deltas (row0 :: rest))).
    { apply List.Forall_forall. intros d Hd.
      apply in_map_iff in Hd as (row & <- & Hin).
      subst zeros. rewrite repeat_length.
      rewrite (deltas_length row m); [lia |].
      exact (proj1 (List.Forall_forall _ _) Hrect row Hin). }
    assert (Hne : map deltas (row0 :: rest) ≠ []) by discriminate.
    destruct (map deltas (row0 :: rest)) as [| d ds] eqn:E; [contradiction |].
    rewrite <- E in *. split; [apply walk_ok_or_IndexError |].
    rewrite (walk_ok_iff zeros _ 0%nat zeros Hne Hrows eq_refl).
    rewrite last_map. split.
    + intros (r & Hr & Hn). right.
      destruct (last (row0 :: rest)) as [row |]; [| discriminate].
      cbn in Hr. injection Hr as <-. exists row. split; [reflexivity | exact Hn].
    + intros [Habs | (row & Hr & Hn)]; [discriminate |].
      exists (deltas row). rewrite Hr. split; [reflexivity | exact Hn].
Qed.

(** ** Absolute extraction *)

Lemma parse_bam_absolute_loop_spec bam regs : ∀ acc,
  Forall (λ reg, (chromStart reg < chromEnd reg)%Z) regs →
  parse_bam_absolute_loop bam regs acc = Ok (acc ++ map (normalized bam) regs).
Proof.
  induction regs as [| reg regs IH]; intros acc Hall.
  - cbn. rewrite app_nil_r. reflexivity.
  - inversion Hall as [| ? ? Hreg Hregs]; subst.
    cbn [parse_bam_absolute_loop map].
    destruct (Z.eqb_spec (chromEnd reg - chromStart reg) 0) as [Hz | Hz];
      [lia |].
    rewrite IH by assumption. rewrite <- app_assoc. reflexivity.
Qed.

(** C7: for regions with start < end, [parse_bam_absolute] returns, for
    every region in order, the number of overlapping reads divided by
    the length of the region; no error is raised, and a region without
    any overlapping read gets the value 0. *)
Theorem parse_bam_absolute_normalizes bam regs :
  Forall (λ reg, (chromStart reg < chromEnd reg)%Z) regs →
  ∃ out,
    parse_bam_absolute bam regs = Ok out
    ∧ out = map (λ reg,
              Fin (INR (count bam (chrom reg) (chromStart reg) (chromEnd reg))
                   / IZR (chromEnd reg - chromStart reg))) regs
    ∧ ∀ i reg, nth_error regs i = Some reg →
        count bam (chrom reg) (chromStart reg) (chromEnd reg) = O →
        nth_error out i = Some (Fin 0).
Proof.
  intros Hall. exists (map (normalized bam) regs). split; [| split].
  - unfold parse_bam_absolute. rewrite parse_bam_absolute_loop_spec by assumption.
    reflexivity.
  - reflexivity.
  - intros i reg Hi H0. rewrite nth_error_map, Hi. cbn [option_map].
    unfold normalized. rewrite H0. cbn [INR]. do 2 f_equal. unfold Rdiv. lra.
Qed.

Lemma parse_bam_absolute_normalizes_witness :
  let bam := {| count := λ _ _ _, 10%nat |} in
  let reg := {| chrom := "chr1"; chromStart := 0; chromEnd := 100;
                bed_rest := [] |} in
  (chromStart reg < chromEnd reg)%Z
  ∧ ∃ out, parse_bam_absolute bam [reg] = Ok out
           ∧ out = [Fin (INR 10 / IZR (100 - 0))].
Proof.
  intros bam reg. split; [reflexivity |].
  destruct (parse_bam_absolute_normalizes bam [reg]) as (out & Hout & Hval & _).
  - repeat constructor.
  - exists out. split; [exact Hout | exact Hval].
Defined.

(** ** [xrange] and differential extraction *)

Lemma ceil_div_nonpos a b : (0 < b)%Z → (a <= 0)%Z → (ceil_div a b <= 0)%Z.
Proof.
  intros Hb Ha. unfold ceil_div.
  assert ((a + b - 1) / b < 1)%Z; [| lia].
  apply Z.div_lt_upper_bound; lia.
Qed.

Lemma ceil_div_step a b :
  (0 < b)%Z → (0 < a)%Z → ceil_div a b = (1 + ceil_div (a - b) b)%Z.
Proof.
  intros Hb Ha. unfold ceil_div.
  replace (a + b - 1)%Z with ((a - b + b - 1) + 1 * b)%Z by lia.
  rewrite Z.div_add by lia. lia.
Qed.

Lemma ceil_div_nonneg a b : (0 < b)%Z → (- b < a)%Z → (0 <= ceil_div a b)%Z.
Proof. intros Hb Ha. unfold ceil_div. apply Z.div_pos; lia. Qed.

(** [ceil_div a b] is the ceiling of [a / b]: the least [n] with
    [a <= n * b]. *)
Lemma ceil_div_spec a b :
  (0 < b)%Z → ((ceil_div a b - 1) * b < a <= ceil_div a b * b)%Z.
Proof.
  intros Hb. unfold ceil_div.
  pose proof (Z.div_mod (a + b - 1) b ltac:(lia)) as Hdm.
  pose proof (Z.mod_pos_bound (a + b - 1) b Hb) as Hm.
  nia.
Qed.

(** With enough fuel the upward range is the whole arithmetic
    progression below [stop]. *)
Lemma xrange_up_spec step stop : (0 < step)%Z → ∀ fuel s,
  (Z.to_nat (stop - s) <= fuel)%nat →
  xrange_up fuel s stop step
  = map (λ k : nat, (s + Z.of_nat k * step)%Z)
        (seq 0 (Z.to_nat (ceil_div (stop - s) step))).
Proof.
  intros Hstep. induction fuel as [| fuel IH]; intros s Hfuel.
  - cbn [xrange_up].
    pose proof (ceil_div_nonpos (stop - s) step Hstep ltac:(lia)).
    replace (Z.to_nat (ceil_div (stop - s) step)) with O by lia. reflexivity.
  - cbn [xrange_up]. destruct (Z.ltb_spec s stop) as [Hlt | Hge].
    + rewrite ceil_div_step by lia.
      pose proof (ceil_div_nonneg (stop - s - step) step Hstep ltac:(lia)).
      rewrite Z2Nat.inj_add by lia.
      change (Z.to_nat 1) with 1%nat. cbn [Nat.add seq map].
      f_equal; [lia |].
      rewrite IH by lia. rewrite <- seq_shift, map_map.
      replace (stop - (s + step))%Z with (stop - s - step)%Z by lia.
      apply map_ext. intros k. lia.
    + pose proof (ceil_div_nonpos (stop - s) step Hstep ltac:(lia)).
      replace (Z.to_nat (ceil_div (stop - s) step)) with O by lia. reflexivity.
Qed.

Lemma xrange_positive_step start stop step :
  (0 < step)%Z →
  xrange start stop step
  = Ok (map (λ k : nat, (start + Z.of_nat k * step)%Z)
            (seq 0 (Z.to_nat (ceil_div (stop - start) step)))).
Proof.
  intros Hstep. unfold xrange.
  destruct (Z.eqb_spec step 0); [lia |].
  destruct (Z.ltb_spec 0 step); [| lia].
  rewrite xrange_up_spec by lia. reflexivity.
Qed.

Lemma parse_bam_differential_windows_spec abam bbam chr step ss :
  ∀ acount bcount,
  parse_bam_differential_windows abam bbam chr step ss acount bcount
  = (acount ++ map (λ s, Z.of_nat (count abam chr s (s + step))) ss,
     bcount ++ map (λ s, Z.of_nat (count bbam chr s (s + step))) ss).
Proof.
  induction ss as [| s ss IH]; intros acount bcount.
  - cbn. rewrite !app_nil_r. reflexivity.
  - cbn [parse_bam_differential_windows map]. rewrite IH, <- !app_assoc.
    reflexivity.
Qed.

(** The two count lists, as the list of the blocks of the regions. *)
Lemma parse_bam_differential_loop_spec abam bbam step regs :
  (0 < step)%Z → ∀ acount bcount,
  parse_bam_differential_loop abam bbam regs step acount bcount
  = Ok (acount ++ flat_map (λ reg,
                    map fst (region_windows abam bbam step reg) ++ [(-1)%Z])
                  regs,
        bcount ++ flat_map (λ reg,
                    map snd (region_windows abam bbam step reg) ++ [(-1)%Z])
                  regs).
Proof.
  intros Hstep. induction regs as [| reg regs IH]; intros acount bcount.
  - cbn. rewrite !app_nil_r. reflexivity.
  - cbn [parse_bam_differential_loop flat_map].
    rewrite xrange_positive_step by assumption. cbn [bind].
    rewrite parse_bam_differential_windows_spec, IH.
    unfold region_windows. rewrite !map_map. cbn [fst snd].
    rewrite <- !app_assoc. reflexivity.
Qed.

Lemma zip_app_same {A B} (l1 l1' : list A) (l2 l2' : list B) :
  length l1 = length l2 →
  zip (l1 ++ l1') (l2 ++ l2') = zip l1 l2 ++ zip l1' l2'.
Proof.
  revert l2. induction l1 as [| x l1 IH]; intros [| y l2] Hlen;
    try discriminate; [reflexivity |].
  cbn. f_equal. apply IH. injection Hlen as Hlen. exact Hlen.
Qed.

Lemma zip_fst_snd {A B} (l : list (A * B)) : zip (map fst l) (map snd l) = l.
Proof.
  induction l as [| [a b] l IH]; [reflexivity |]. cbn. f_equal. exact IH.
Qed.

(** C4: with a positive step and regions with start < end, the pairs
    (A count, B count) that [parse_bam_differential] emits are, region
    after region in the order of the input, the [ceil((end-start)/step)]
    window pairs of the region followed by one pair (-1, -1); no window
    pair is negative, so each block holds exactly one sentinel. *)
Theorem parse_bam_differential_blocks abam bbam regs step :
  (0 < step)%Z →
  Forall (λ reg, (chromStart reg < chromEnd reg)%Z) regs →
  ∃ acount bcount,
    parse_bam_differential abam bbam regs step = Ok (acount, bcount)
    ∧ zip acount bcount
      = flat_map (λ reg, region_windows abam bbam step reg ++ [((-1)%Z, (-1)%Z)])
                 regs
    ∧ Forall (λ reg,
        let n := ceil_div (chromEnd reg - chromStart reg) step in
        length (region_windows abam bbam step reg) = Z.to_nat n
        ∧ ((n - 1) * step < chromEnd reg - chromStart reg <= n * step)%Z
        ∧ Forall (λ ab : Z * Z, (0 <= ab.1)%Z ∧ (0 <= ab.2)%Z)
                 (region_windows abam bbam step reg)) regs.
Proof.
  intros Hstep Hregs. unfold parse_bam_differential.
  rewrite parse_bam_differential_loop_spec by assumption. cbn [app].
  do 2 eexists. split; [reflexivity |]. split.
  - clear Hregs. induction regs as [| reg regs IH]; [reflexivity |].
    cbn [flat_map]. rewrite zip_app_same by (rewrite !length_app, !length_map; reflexivity).
    rewrite IH. f_equal.
    rewrite zip_app_same by (rewrite !length_map; reflexivity).
    rewrite zip_fst_snd. reflexivity.
  - apply Forall_forall. intros reg _. cbn zeta. split; [| split].
    + unfold region_windows. rewrite length_map, length_seq. reflexivity.
    + apply ceil_div_spec. exact Hstep.
    + unfold region_windows. apply Forall_forall. intros ab Hab.
      apply list_elem_of_In, in_map_iff in Hab. destruct Hab as (k & <- & _).
      cbn. lia.
Qed.

Lemma parse_bam_differential_blocks_witness :
  let abam := {| count := λ _ _ _, 3%nat |} in
  let bbam := {| count := λ _ _ _, 4%nat |} in
  let reg := {| chrom := "chr1"; chromStart := 100; chromEnd := 250;
                bed_rest := [] |} in
  (0 < 100)%Z
  ∧ (chromStart reg < chromEnd reg)%Z
  ∧ ∃ acount bcount,
      parse_bam_differential abam bbam [reg] 100 = Ok (acount, bcount)
      ∧ zip acount bcount = [(3, 4); (3, 4); (-1, -1)]%Z.
Proof.
  intros abam bbam reg. split; [reflexivity |]. split; [reflexivity |].
  destruct (parse_bam_differential_blocks abam bbam [reg] 100)
    as (acount & bcount & Hrun & Hzip & _).
  - reflexivity.
  - repeat constructor.
  - exists acount, bcount. split; [exact Hrun |]. rewrite Hzip. reflexivity.
Defined.

(** ** Refusal to overwrite an existing output *)

Lemma quiet_refl w : quiet w w.
Proof. split; [reflexivity |]. exists []. cbn. rewrite app_nil_r. reflexivity. Qed.

Lemma chks_inp_file (ps : list path) (w : world) :
  ∃ r, chks (map inp_file ps) w = (r, w).
Proof.
  induction ps as [| p ps IH]; [eexists; reflexivity |].
  cbn [map chks]. unfold mbind, task_bind. cbn [inp_file fst snd].
  destruct (bool_decide (files w !! p = None)); cbn.
  - eexists. reflexivity.
  - exact IH.
Qed.

Lemma chks_inp_file_present (ps : list path) (w : world) :
  Forall (λ p, is_Some (files w !! p)) ps →
  chks (map inp_file ps) w = (Ok tt, w).
Proof.
  induction 1 as [| p ps Hp _ IH]; [reflexivity |].
  cbn [map chks]. unfold mbind, task_bind. cbn [inp_file fst snd].
  rewrite bool_decide_eq_false_2; [exact IH |].
  destruct Hp as [f Hf]. congruence.
Qed.

Section TasksProperties.

Variable fnmatch : string → string → bool.
Variable hash_absolute : path → list path → string.
Variable hash_differential : path → list path → list path → string.
Variable sorted : list path → list path.
Variable absolute_names : bool → list path → list string.
Variable differential_names : bool → list path → list path
                              → result (list string).

(** A file of the directory whose name matches is listed. *)
Lemma listdir_finds (w : world) odn name pattern f :
  files w !! (odn, name) = Some f →
  fnmatch name pattern = true →
  nonempty (List.filter
              (λ p : path, String.eqb p.1 odn && fnmatch p.2 pattern)
              (map fst (map_to_list (files w)))) = true.
Proof.
  intros Hf Hm.
  assert (Hin : In (odn, name)
                  (List.filter
                     (λ p : path, String.eqb p.1 odn && fnmatch p.2 pattern)
                     (map fst (map_to_list (files w))))).
  { apply filter_In. split.
    - apply in_map_iff. exists ((odn, name), f). split; [reflexivity |].
      apply list_elem_of_In, elem_of_map_to_list. exact Hf.
    - cbn [fst snd]. rewrite String.eqb_refl, Hm. reflexivity. }
  destruct (List.filter _ _); [destruct Hin | reflexivity].
Qed.

(** The common course of the two tasks from [mkdir] to the check of the
    output: whatever the regions are, the check stops the task. *)
Lemma refusal_after_mkdir {A} (w : world) odn (bed : path) name msg
    (k : list region → task A) f :
  files w !! (odn, name) = Some f →
  fnmatch name name = true →
  ∃ e w',
    (_ ← mkdir odn;
     bed_regions ← parse_bed bed;
     found ← listdir fnmatch odn name;
     _ ← chk_exit (nonempty found) msg;
     k bed_regions) w = (Raise e, w')
    ∧ quiet w w'
    ∧ (∀ records, files w !! bed = Some (BedFile records)
                  → e = SystemExit msg).
Proof.
  intros Hf Hm. unfold mbind, task_bind. cbn [mkdir].
  set (w1 := {| files := files w; dirs := {[odn]} ∪ dirs w;
                trace := trace w ++ [EvMkdir odn] |}).
  assert (Hq : quiet w w1).
  { split; [reflexivity |]. exists [odn]. reflexivity. }
  unfold parse_bed. change (files w1) with (files w).
  destruct (files w !! bed) as [[records | bam | names values] |].
  - cbn [listdir]. change (files w1) with (files w).
    rewrite (listdir_finds w odn name name f Hf Hm). cbn [chk_exit lift].
    exists (SystemExit msg), w1. split; [reflexivity |]. split; [exact Hq |].
    intros; reflexivity.
  - eexists _, w1. split; [reflexivity |]. split; [exact Hq |].
    intros records Hx. discriminate.
  - eexists _, w1. split; [reflexivity |]. split; [exact Hq |].
    intros records Hx. discriminate.
  - eexists _, w1. split; [reflexivity |]. split; [exact Hq |].
    intros records Hx. discriminate.
Qed.

(** When the output file of the run identifier in use is already in
    the target directory and its name, taken as a pattern, matches
    itself, [extract_absolute] and [extract_differential] stop with an
    exception, having written or changed no file and opened no
    alignment file; when the inputs pass the checks made before, the
    exception is the exit with the message that the run exists. *)
Lemma refusal_of_matched_output :
  (∀ w bed bams odn runid shorten f,
     let rid := absolute_runid hash_absolute (default ("", "") bed)
                  (default [] bams) runid in
     files w !! (odn, rid +:+ "_lvl.arr") = Some f →
     fnmatch (rid +:+ "_lvl.arr") (rid +:+ "_lvl.arr") = true →
     ∃ e w',
       extract_absolute fnmatch hash_absolute absolute_names
         bed bams odn runid shorten w = (Raise e, w')
       ∧ quiet w w'
       ∧ (∀ b bs records,
            bed = Some b → bams = Some bs →
            Forall (λ p, is_Some (files w !! p)) bs →
            files w !! b = Some (BedFile records) →
            e = SystemExit ("error: " +:+ rid +:+ " exists in " +:+ odn)))
  ∧ (∀ w bed abams bbams odn runid shorten step f,
     let rid := differential_runid hash_differential bed
                  (sorted abams) (sorted bbams) runid in
     files w !! (odn, rid +:+ "_cnt.arr") = Some f →
     fnmatch (rid +:+ "_cnt.arr") (rid +:+ "_cnt.arr") = true →
     ∃ e w',
       extract_differential fnmatch hash_differential sorted
         differential_names bed abams bbams odn runid shorten step w
       = (Raise e, w')
       ∧ quiet w w'
       ∧ (∀ records,
            Forall (λ p, is_Some (files w !! p)) (abams ++ bbams) →
            files w !! bed = Some (BedFile records) →
            e = SystemExit ("error: " +:+ rid +:+ " exists in " +:+ odn))).
Proof.
  split.
  - intros w bed bams odn runid shorten f rid Hf Hm.
    unfold extract_absolute.
    destruct bed as [b |]; cbn [default].
    2:{ exists (SystemExit "a BED6+ file is required"), w.
        split; [reflexivity |]. split; [apply quiet_refl |].
        intros; discriminate. }
    destruct bams as [bs |]; cbn [default].
    2:{ exists (SystemExit "a set of BAM files is required"), w.
        split; [reflexivity |]. split; [apply quiet_refl |].
        intros; discriminate. }
    cbn [default] in rid.
    rewrite bool_decide_eq_false_2 by discriminate.
    rewrite bool_decide_eq_false_2 by discriminate.
    unfold mbind at 1, task_bind at 1. cbn [chk_exit mret task_ret].
    unfold mbind at 1, task_bind at 1. cbn [chk_exit mret task_ret].
    unfold mbind at 1, task_bind at 1.
    unfold Datatypes.id in *.
    destruct (chks_inp_file bs w) as [r Hr]. rewrite Hr.
    destruct r as [[] | e].
    2:{ exists e, w. split; [reflexivity |]. split; [apply quiet_refl |].
        intros b' bs' records _ Hbs Hall _. injection Hbs as Hbs. subst bs'.
        rewrite chks_inp_file_present in Hr by assumption. discriminate. }
    fold rid.
    destruct (refusal_after_mkdir w odn b (rid +:+ "_lvl.arr")
                ("error: " +:+ rid +:+ " exists in " +:+ odn)
                (λ bed_regions,
                   nc ← process_bam_absolute absolute_names bs bed_regions
                          shorten;
                   _ ← write_file (odn, rid +:+ "_lvl.arr") (ArrFile nc.1 nc.2);
                   mret (odn, rid +:+ "_lvl.arr")) f Hf Hm)
      as (e & w' & Hrun & Hq & He).
    exists e, w'. split; [exact Hrun |]. split; [exact Hq |].
    intros b' bs' records Hb _ _ Hbed. injection Hb as Hb. subst b'.
    exact (He records Hbed).
  - intros w bed abams bbams odn runid shorten step f rid Hf Hm.
    unfold extract_differential.
    unfold mbind at 1, task_bind at 1. cbn [inp_file fst snd].
    destruct (bool_decide (files w !! bed = None)) eqn:Hbed.
    { unfold mbind at 1, task_bind at 1. cbn [chk_exit lift].
      eexists _, w. split; [reflexivity |]. split; [apply quiet_refl |].
      intros records _ Hb. apply bool_decide_eq_true_1 in Hbed. congruence. }
    unfold mbind at 1, task_bind at 1. cbn [chk_exit mret task_ret].
    unfold mbind at 1, task_bind at 1.
    destruct (chks_inp_file (abams ++ bbams) w) as [r Hr]. rewrite Hr.
    destruct r as [[] | e].
    2:{ exists e, w. split; [reflexivity |]. split; [apply quiet_refl |].
        intros records Hall _.
        rewrite chks_inp_file_present in Hr by assumption. discriminate. }
    fold rid.
    destruct (refusal_after_mkdir w odn bed (rid +:+ "_cnt.arr")
                ("error: " +:+ rid +:+ " exists in " +:+ odn)
                (λ bed_regions,
                   nc ← process_bam_differential differential_names
                          (sorted abams) (sorted bbams) bed_regions shorten
                          step;
                   _ ← write_file (odn, rid +:+ "_cnt.arr")
                         (ArrFile nc.1 (savetxt_d nc.2));
                   mret (odn, rid +:+ "_cnt.arr")) f Hf Hm)
      as (e & w' & Hrun & Hq & He).
    exists e, w'. split; [exact Hrun |]. split; [exact Hq |].
    intros records _ Hb. exact (He records Hb).
Qed.

End TasksProperties.

(** ** Whitening *)

Lemma fold_left_fadd_Fin l : ∀ a,
  fold_left fadd (map Fin l) (Fin a) = Fin (fold_left Rplus l a).
Proof.
  induction l as [| x l IH]; intros a; [reflexivity |].
  cbn [map fold_left fadd]. apply IH.
Qed.

Lemma fsum_Fin l : fsum (map Fin l) = Fin (Rsum l).
Proof. apply fold_left_fadd_Fin. Qed.

Lemma fold_left_Rplus_shift l : ∀ a, fold_left Rplus l a = a + Rsum l.
Proof.
  unfold Rsum. induction l as [| x l IH]; intros a; cbn [fold_left].
  - lra.
  - rewrite IH, (IH (0 + x)). lra.
Qed.

Lemma Rsum_cons x l : Rsum (x :: l) = x + Rsum l.
Proof.
  unfold Rsum at 1. cbn [fold_left]. rewrite fold_left_Rplus_shift. lra.
Qed.

Lemma Rsum_repeat c n : Rsum (repeat c n) = INR n * c.
Proof.
  induction n as [| n IH]; [cbn; unfold Rsum; cbn; lra |].
  cbn [repeat]. rewrite Rsum_cons, IH, S_INR. lra.
Qed.

Lemma Rsum_squares_nonneg (l : list R) m :
  0 <= Rsum (map (λ x, (x - m) * (x - m)) l).
Proof.
  induction l as [| x l IH]; [unfold Rsum; cbn; lra |].
  cbn [map]. rewrite Rsum_cons.
  pose proof (Rle_0_sqr (x - m)) as Hsq. unfold Rsqr in Hsq. lra.
Qed.

Lemma fmean_Fin l : l ≠ [] → fmean (map Fin l) = Fin (Rsum l / INR (length l)).
Proof.
  intros Hne. unfold fmean. rewrite fsum_Fin, length_map.
  apply fdiv_Fin. destruct l; [contradiction | apply INR_S_neq_0].
Qed.

(** On finite values, numpy's [std] with [ddof=1] is the sample
    standard deviation. *)
Lemma np_std_Fin l :
  (2 <= length l)%nat → np_std 1 (map Fin l) = Fin (sample_std l).
Proof.
  intros Hlen. unfold np_std, sample_std.
  rewrite fmean_Fin by (destruct l; [cbn in Hlen; lia | discriminate]).
  set (m := Rsum l / INR (length l)).
  rewrite !map_map. cbn [fsub fneg fadd fmul].
  rewrite <- (map_map (λ x, (x + - m) * (x + - m)) Fin), fsum_Fin.
  rewrite length_map.
  replace (map (λ x, (x + - m) * (x + - m)) l)
    with (map (λ x, (x - m) * (x - m)) l) by (apply map_ext; intros; lra).
  rewrite fdiv_Fin by (apply not_0_INR; lia).
  cbn [fsqrt]. rewrite Rltb_false; [reflexivity |].
  apply Rmult_le_pos; [apply Rsum_squares_nonneg |].
  apply Rlt_le, Rinv_0_lt_compat, lt_0_INR. lia.
Qed.

Lemma sample_std_repeat c n : sample_std (repeat c n) = 0.
Proof.
  unfold sample_std. rewrite map_repeat, !Rsum_repeat, repeat_length.
  destruct n as [| n]; [cbn [INR]; rewrite Rmult_0_l; unfold Rdiv;
                        rewrite Rmult_0_l; apply sqrt_0 |].
  assert (Hc : c - INR (S n) * c / INR (S n) = 0)
    by (pose proof (INR_S_neq_0 n); field; assumption).
  rewrite Hc, !Rmult_0_r. unfold Rdiv. rewrite Rmult_0_l. apply sqrt_0.
Qed.

Lemma fdiv_NaN x : fdiv x NaN = NaN.
Proof. destruct x; reflexivity. Qed.

Lemma fdiv_one x : fdiv x (Fin 1) = x.
Proof.
  destruct x as [r | | |]; cbn; rcompare; try reflexivity.
  f_equal. field.
Qed.

Lemma map_const_repeat {A B} (b : B) (l : list A) :
  map (λ _, b) l = repeat b (length l).
Proof. induction l as [| x l IH]; [reflexivity |]. cbn. f_equal. exact IH. Qed.

Lemma scarr_whiten_row_undefined row :
  np_std 1 row = Fin 0 ∨ np_std 1 row = NaN →
  scarr_whiten_row row = repeat NaN (length row).
Proof.
  intros Hdev. unfold scarr_whiten_row.
  assert (Hd : (if feq (np_std 1 row) (Fin 0) then NaN else np_std 1 row) = NaN).
  { destruct Hdev as [-> | ->]; cbn; rcompare; reflexivity. }
  rewrite Hd. rewrite <- map_const_repeat. apply map_ext. apply fdiv_NaN.
Qed.

Lemma np_std_single x : np_std 1 [Fin x] = NaN.
Proof.
  unfold np_std, fmean, fsum. cbn [map fold_left length Nat.sub INR fadd].
  rewrite fdiv_Fin by lra. cbn [fsub fneg fadd fmul fdiv].
  rewrite (Reqb_true 0 0) by reflexivity. unfold inf_signed.
  rewrite Reqb_true; [reflexivity |]. field.
Qed.


Lemma sample_std_1_2_3 : sample_std [1; 2; 3] = 1.
Proof.
  unfold sample_std, Rsum. cbn [length map fold_left Nat.sub INR].
  replace (_ / (1 + 1)) with 1; [apply sqrt_1 | field].
Qed.



(** ** Sorting *)

Section SortFacts.
Context {A B : Type} (leA : A → A → bool) (leB : B → B → bool) (f : A → B).
Hypothesis f_mono : ∀ x y, leB (f x) (f y) = leA x y.

Lemma insert_sorted_map x l :
  insert_sorted leB (f x) (map f l) = map f (insert_sorted leA x l).
Proof.
  induction l as [| y l IH]; [reflexivity |].
  cbn [map insert_sorted]. rewrite f_mono.
  destruct (leA x y); [reflexivity |]. cbn [map]. f_equal. exact IH.
Qed.

Lemma isort_map l : isort leB (map f l) = map f (isort leA l).
Proof.
  induction l as [| x l IH]; [reflexivity |].
  cbn [map isort]. rewrite IH. apply insert_sorted_map.
Qed.

End SortFacts.

Lemma insert_sorted_length {A} (le : A → A → bool) x l :
  length (insert_sorted le x l) = S (length l).
Proof.
  induction l as [| y l IH]; [reflexivity |].
  cbn [insert_sorted]. destruct (le x y); cbn [length]; [reflexivity |].
  rewrite IH. reflexivity.
Qed.

Lemma isort_length {A} (le : A → A → bool) l :
  length (isort le l) = length l.
Proof.
  induction l as [| x l IH]; [reflexivity |].
  cbn [isort]. rewrite insert_sorted_length, IH. reflexivity.
Qed.

Lemma np_sort_Fin l : np_sort (map Fin l) = map Fin (Rsort l).
Proof. apply isort_map. reflexivity. Qed.

Lemma Rsort_hd_min l : l ≠ [] → hd 0 (Rsort l) = Rmin_list l.
Proof.
  induction l as [| x l IH]; [contradiction |]. intros _.
  destruct l as [| y l]; [reflexivity |].
  specialize (IH ltac:(discriminate)).
  change (Rmin_list (x :: y :: l)) with (Rmin x (Rmin_list (y :: l))).
  rewrite <- IH. change (Rsort (x :: y :: l))
    with (insert_sorted Rleb x (Rsort (y :: l))).
  pose proof (isort_length Rleb (y :: l)) as Hlen.
  fold Rsort in Hlen.
  destruct (Rsort (y :: l)) as [| z s]; [discriminate |].
  cbn [insert_sorted hd]. destruct (Rleb_spec x z) as [Hxz | Hxz]; cbn [hd].
  - rewrite Rmin_left by lra. reflexivity.
  - rewrite Rmin_right by lra. reflexivity.
Qed.

Lemma Rmin_list_le l x : In x l → Rmin_list l <= x.
Proof.
  induction l as [| y l IH]; [intros [] |].
  intros [-> | Hin].
  - destruct l; [cbn; lra | cbn [Rmin_list]; apply Rmin_l].
  - destruct l as [| z l]; [destruct Hin |].
    cbn [Rmin_list]. eapply Rle_trans; [apply Rmin_r | apply IH; exact Hin].
Qed.

(** ** Quantiles *)

Lemma Rclip_bounds x lo hi : lo <= hi → lo <= Rclip x lo hi <= hi.
Proof.
  intros H. unfold Rclip, Rmin, Rmax.
  destruct (Rle_dec x lo); destruct (Rle_dec _ hi); lra.
Qed.

(** The index [k] of [_quantiles1D] lies between 1 and [n - 1]. *)
Lemma quantile_index_bounds (n : nat) aleph :
  (2 <= n)%nat →
  let k := Z.to_nat (Int_part (Rclip aleph 1 (INR n - 1))) in
  (1 <= k <= n - 1)%nat.
Proof.
  intros Hn k. subst k.
  assert (Hn' : 2 <= INR n) by (apply (le_INR 2); exact Hn).
  pose proof (Rclip_bounds aleph 1 (INR n - 1) ltac:(lra)) as [Hlo Hhi].
  pose proof (base_Int_part (Rclip aleph 1 (INR n - 1))) as [Hle Hgt].
  set (z := Int_part (Rclip aleph 1 (INR n - 1))) in *.
  assert (Hz1 : (0 < z)%Z) by (apply lt_IZR; lra).
  assert (Hz2 : (z <= Z.of_nat n - 1)%Z).
  { apply le_IZR. rewrite minus_IZR, <- INR_IZR_INZ. lra. }
  lia.
Qed.

Lemma nth_map_Fin (s : list R) k :
  (k < length s)%nat → nth k (map Fin s) NaN = Fin (nth k s 0).
Proof.
  intros Hk. rewrite (nth_indep _ NaN (Fin 0)) by (rewrite length_map; exact Hk).
  apply map_nth.
Qed.

(** On a non-empty column of finite values every quantile is finite. *)
Lemma quantile1D_Fin l p :
  l ≠ [] → quantile1D (map Fin l) p = Fin (Rquantile l p).
Proof.
  intros Hne. unfold quantile1D, Rquantile. rewrite np_sort_Fin, length_map.
  pose proof (isort_length Rleb l) as Hlen. fold Rsort in Hlen.
  destruct (Rsort l) as [| a [| b s]] eqn:Hs.
  - destruct l; [contradiction | discriminate].
  - reflexivity.
  - set (n := length (a :: b :: s)).
    change (length (a :: b :: s)) with (S (S (length s))) in n.
    subst n. cbv zeta.
    set (n := S (S (length s))).
    set (aleph := INR n * p + (0.4 + p * (1 - 0.4 - 0.4))).
    pose proof (quantile_index_bounds n aleph ltac:(subst n; lia)) as Hk.
    cbv zeta in Hk.
    set (k := Z.to_nat (Int_part (Rclip aleph 1 (INR n - 1)))) in *.
    rewrite !nth_map_Fin by (cbn [length]; subst n; lia).
    reflexivity.
Qed.

Lemma mquantiles_Fin l hi :
  l ≠ [] →
  mquantiles (map Fin l) [0; 0; hi]
  = [Fin (Rquantile l 0); Fin (Rquantile l 0); Fin (Rquantile l hi)].
Proof.
  intros Hne. unfold mquantiles. cbn [map].
  rewrite !quantile1D_Fin by assumption. reflexivity.
Qed.

Lemma Int_part_1 : Int_part 1 = 1%Z.
Proof. symmetry. apply Int_part_spec. lra. Qed.

(** The quantile at probability 0 is the least value. *)
Lemma Rquantile_0_min l : l ≠ [] → Rquantile l 0 = Rmin_list l.
Proof.
  intros Hne. rewrite <- Rsort_hd_min by assumption.
  unfold Rquantile.
  pose proof (isort_length Rleb l) as Hlen. fold Rsort in Hlen.
  destruct (Rsort l) as [| a [| b s]] eqn:Hs; [reflexivity | reflexivity |].
  cbv zeta. set (n := length (a :: b :: s)).
  assert (Hn : 2 <= INR n).
  { apply (le_INR 2). subst n. cbn [length]. lia. }
  assert (Hclip : Rclip (INR n * 0 + (0.4 + 0 * (1 - 0.4 - 0.4))) 1 (INR n - 1)
                  = 1).
  { unfold Rclip. rewrite Rmax_right by lra. apply Rmin_left. lra. }
  rewrite Hclip, Int_part_1. change (Z.to_nat 1) with 1%nat.
  assert (Hg : Rclip (INR n * 0 + (0.4 + 0 * (1 - 0.4 - 0.4)) - INR 1) 0 1 = 0).
  { unfold Rclip. cbn [INR]. rewrite Rmax_right by lra. apply Rmin_left. lra. }
  rewrite Hg. cbn [Nat.sub nth hd]. subst n. cbn [length]. lra.
Qed.

Lemma Rsort_repeat c n : Rsort (repeat c n) = repeat c n.
Proof.
  induction n as [| n IH]; [reflexivity |].
  cbn [repeat]. unfold Rsort in *. cbn [isort]. rewrite IH.
  destruct n; cbn [repeat insert_sorted]; [reflexivity |].
  rewrite Rleb_true by lra. reflexivity.
Qed.

Lemma nth_repeat_lt {A} (a d : A) n k : (k < n)%nat → nth k (repeat a n) d = a.
Proof.
  revert k. induction n as [| n IH]; intros k Hk; [lia |].
  destruct k; [reflexivity |]. cbn. apply IH. lia.
Qed.

(** Every quantile of a constant column is its value. *)
Lemma Rquantile_repeat c n p : (0 < n)%nat → Rquantile (repeat c n) p = c.
Proof.
  intros Hn. unfold Rquantile. rewrite Rsort_repeat, repeat_length.
  destruct n as [| [| n]]; [lia | reflexivity |].
  cbv zeta.
  set (aleph := INR (S (S n)) * p + (0.4 + p * (1 - 0.4 - 0.4))).
  pose proof (quantile_index_bounds (S (S n)) aleph ltac:(lia)) as Hk.
  cbv zeta in Hk.
  set (k := Z.to_nat (Int_part (Rclip aleph 1 (INR (S (S n)) - 1)))) in *.
  rewrite !nth_repeat_lt by lia. lra.
Qed.

(** ** The double sigmoid *)

Lemma mask_map_map {A B} (p : A → bool) (f : B → B) (h : A → B) (l : list A) :
  mask_map (map p l) f (map h l) = map (λ y, if p y then f (h y) else h y) l.
Proof.
  unfold mask_map. induction l as [| y l IH]; [reflexivity |].
  cbn [map zip_with]. f_equal. exact IH.
Qed.

(** [dsig] works value by value. *)
Lemma dsig_map a lq loc uq : dsig a lq loc uq = map (dsig_elem lq loc uq) a.
Proof.
  unfold dsig.
  set (a' := map (λ x, fsub x loc) a).
  set (al := fsub loc lq). set (ar := fsub uq loc).
  assert (E1 : (if truthy al
                then mask_map (map (λ x, flt x (Fin 0)) a')
                       (λ x, fdiv x (fmul (Fin (-0.5)) al)) a'
                else a')
               = map (λ y, if truthy al && flt y (Fin 0)
                           then fdiv y (fmul (Fin (-0.5)) al) else y) a').
  { destruct (truthy al); cbn [andb].
    - rewrite <- (map_id a') at 2. rewrite mask_map_map. reflexivity.
    - symmetry. apply map_id. }
  rewrite E1.
  assert (E2 : ∀ h : float → float,
             (if truthy ar
              then mask_map (map (λ x, fge x (Fin 0)) a')
                     (λ x, fdiv x (fmul (Fin (-0.5)) ar)) (map h a')
              else map h a')
             = map (λ y, if truthy ar && fge y (Fin 0)
                         then fdiv (h y) (fmul (Fin (-0.5)) ar) else h y) a').
  { intros h. destruct (truthy ar); cbn [andb].
    - apply mask_map_map.
    - reflexivity. }
  rewrite E2. subst a'. rewrite !map_map. apply map_ext. intros x.
  reflexivity.
Qed.

Lemma exp_plus_1_neq_0 t : exp t + 1 ≠ 0.
Proof. pose proof (exp_pos t). lra. Qed.

(** On finite arguments [dsig] is finite, whatever the half-widths. *)
Lemma dsig_elem_Fin lq loc uq x :
  dsig_elem (Fin lq) (Fin loc) (Fin uq) (Fin x)
  = Fin (1 / (exp (dsig_exponent lq loc uq x) + 1)).
Proof.
  unfold dsig_elem, dsig_exponent, fge.
  cbn [fsub fneg fadd truthy flt feq fmul].
  change (x + - loc) with (x - loc). change (loc + - lq) with (loc - lq).
  change (uq + - loc) with (uq - loc).
  assert (Hfin : ∀ t, fdiv (Fin 1) (fadd (fexp (Fin t)) (Fin 1))
                      = Fin (1 / (exp t + 1))).
  { intros t. cbn [fexp fadd]. apply fdiv_Fin, exp_plus_1_neq_0. }
  destruct (Rltb_spec (x - loc) 0) as [Hneg | Hpos].
  - rewrite (Rltb_false 0 (x - loc)) by lra.
    rewrite (Reqb_false (x - loc) 0) by lra. cbn [orb].
    rewrite !andb_false_r, andb_true_r.
    destruct (Reqb_spec (loc - lq) 0) as [Hz | Hnz]; cbn [negb].
    + apply Hfin.
    + rewrite fdiv_Fin by lra. apply Hfin.
  - rewrite andb_false_r.
    assert (Hge : Rltb 0 (x - loc) || Reqb (x - loc) 0 = true).
    { destruct (Rltb_spec 0 (x - loc)); [reflexivity |].
      rewrite Reqb_true by lra. reflexivity. }
    rewrite Hge, andb_true_r.
    destruct (Reqb_spec (uq - loc) 0) as [Hz | Hnz]; cbn [negb].
    + apply Hfin.
    + rewrite fdiv_Fin by lra. apply Hfin.
Qed.

Lemma sigmoid_bounds t : 0 < 1 / (exp t + 1) < 1.
Proof.
  pose proof (exp_pos t) as He.
  split.
  - apply Rdiv_lt_0_compat; lra.
  - apply (Rmult_lt_reg_r (exp t + 1)); [lra |].
    unfold Rdiv. rewrite Rmult_assoc, Rinv_l by lra. lra.
Qed.

(** The scaled column, for a non-empty column of finite values. *)
Lemma scarr_sig_row_Fin hi l :
  l ≠ [] →
  scarr_sig_row hi (map Fin l)
  = map (λ x, Fin ((1 / (exp (dsig_exponent (Rquantile l 0) (Rquantile l 0)
                                            (Rquantile l hi) x) + 1)
                    - 0.5) * 2)) l.
Proof.
  intros Hne. unfold scarr_sig_row. rewrite mquantiles_Fin by assumption.
  rewrite dsig_map, !map_map. apply map_ext. intros x.
  rewrite dsig_elem_Fin. reflexivity.
Qed.



Lemma sigmoid_nonpos t : t <= 0 → 1 / 2 <= 1 / (exp t + 1).
Proof.
  intros Ht. pose proof (exp_pos t) as He.
  assert (Hle : exp t <= 1).
  { rewrite <- exp_0. destruct Ht as [Hlt | ->]; [| lra].
    left. apply exp_increasing. exact Hlt. }
  apply (Rmult_le_reg_r (exp t + 1)); [lra |].
  unfold Rdiv at 2. rewrite Rmult_assoc, Rinv_l by lra. lra.
Qed.


Lemma Rquantile_0_1 : Rquantile [0; 1] 1 = 1.
Proof.
  unfold Rquantile, Rsort. cbn [isort insert_sorted].
  rewrite Rleb_true by lra. cbn [length INR].
  assert (Hclip : Rclip ((1 + 1) * 1 + (0.4 + 1 * (1 - 0.4 - 0.4))) 1 (1 + 1 - 1)
                  = 1).
  { unfold Rclip, Rmin, Rmax.
    destruct (Rle_dec _ 1); destruct (Rle_dec _ (1 + 1 - 1)); lra. }
  rewrite Hclip, Int_part_1. change (Z.to_nat 1) with 1%nat. cbn [INR].
  assert (Hg : Rclip ((1 + 1) * 1 + (0.4 + 1 * (1 - 0.4 - 0.4)) - 1) 0 1 = 1).
  { unfold Rclip. rewrite Rmax_left by lra. apply Rmin_right. lra. }
  rewrite Hg. cbn [Nat.sub nth]. lra.
Qed.



(** ** The structure of [scapair] *)

Lemma xrange_pair_columns w :
  xrange 0 (Z.of_nat w) 2 = Ok (map Z.of_nat (pair_columns w)).
Proof.
  rewrite xrange_positive_step by lia. unfold pair_columns.
  rewrite Z.sub_0_r, map_map. f_equal. apply map_ext. intros k. lia.
Qed.

Lemma zip_with_map_same {A B C} (f : A → B → C) (g : A → B) (l : list A) :
  zip_with f l (map g l) = map (λ a, f a (g a)) l.
Proof.
  induction l as [| a l IH]; [reflexivity |]. cbn. f_equal. exact IH.
Qed.

(** The loop over the pairs works row by row. *)
Lemma scapair_fold_rows raw cols : ∀ g : list float → list float,
  fold_left (scapair_step raw) cols (map g raw)
  = map (λ rrow,
      fold_left (λ srow col1,
          if sel_row rrow
          then set_slice col1
                 (zip_with fdiv (slice2 col1 rrow) (pair_sf raw col1)) srow
          else srow) cols (g rrow)) raw.
Proof.
  induction cols as [| c cols IH]; intros g; [reflexivity |].
  cbn [fold_left]. unfold scapair_step at 2.
  rewrite zip_with_map_same. fold (pair_sf raw c). apply IH.
Qed.

Lemma fold_left_id {A B} (l : list B) (a : A) : fold_left (λ x _, x) l a = a.
Proof. induction l as [| b l IH]; [reflexivity | exact IH]. Qed.

(** [scapair] with ["deseq"] never raises, and scales row by row. *)
Lemma scapair_rows raw :
  scapair raw "deseq" = Ok (map (scapair_row raw) raw).
Proof.
  unfold scapair. cbn [String.eqb Ascii.eqb Bool.eqb].
  rewrite xrange_pair_columns. cbn [bind]. f_equal.
  rewrite map_map.
  rewrite (map_ext _ (λ x, x) (λ k, Nat2Z.id k)), map_id.
  change (map (map (λ x, if feq x (Fin (-1)) then NaN else x)) raw)
    with (map mark_missing raw).
  rewrite scapair_fold_rows. apply map_ext. intros rrow.
  unfold scapair_row. destruct (sel_row rrow); [reflexivity |].
  apply fold_left_id.
Qed.

Lemma scapair_other_method raw method :
  method ≠ "deseq" → scapair raw method = Raise (ValueError "unknown method").
Proof.
  intros Hm. unfold scapair.
  destruct (String.eqb_spec method "deseq"); [contradiction | reflexivity].
Qed.

(** Writing every pair of a row: the row becomes the list of the
    values written. *)
Lemma fold_set_slice (v : nat → list float) :
  ∀ j k (P T : list float),
  (∀ i, (k <= i < k + j)%nat → length (v (2 * i)%nat) = 2%nat) →
  length P = (2 * k)%nat →
  fold_left (λ srow col1, set_slice col1 (v col1) srow)
            (map (λ i, 2 * i)%nat (seq k j)) (P ++ T)
  = P ++ flat_map v (map (λ i, 2 * i)%nat (seq k j)) ++ drop (2 * j) T.
Proof.
  induction j as [| j IH]; intros k P T Hv HP.
  - cbn. reflexivity.
  - cbn [seq map fold_left flat_map].
    assert (Hvk : length (v (2 * k)%nat) = 2%nat) by (apply Hv; lia).
    assert (Hset : set_slice (2 * k) (v (2 * k)%nat) (P ++ T)
                   = (P ++ v (2 * k)%nat) ++ drop 2 T).
    { unfold set_slice. rewrite Hvk.
      rewrite take_app_length' by lia.
      rewrite drop_app_add' by lia.
      rewrite <- app_assoc. reflexivity. }
    rewrite Hset, IH;
      [| intros i Hi; apply Hv; lia | rewrite length_app, Hvk, HP; lia].
    rewrite drop_drop, <- !app_assoc.
    replace (2 + 2 * j)%nat with (2 * S j)%nat by lia. reflexivity.
Qed.

Lemma pair_columns_even m :
  pair_columns (2 * m) = map (λ i, 2 * i)%nat (seq 0 m).
Proof.
  unfold pair_columns, ceil_div. do 2 f_equal.
  replace (Z.of_nat (2 * m) + 2 - 1)%Z with (1 + Z.of_nat m * 2)%Z by lia.
  rewrite Z.div_add by lia. change (1 / 2)%Z with 0%Z. lia.
Qed.

Lemma mark_missing_sel row : sel_row row = true → mark_missing row = row.
Proof.
  unfold sel_row, mark_missing. induction row as [| x row IH]; [reflexivity |].
  cbn [forallb map]. intros H. apply andb_prop in H as [Hx Hrow].
  destruct (feq x (Fin (-1))); [discriminate |]. f_equal. apply IH. exact Hrow.
Qed.

Lemma size_factors_length w counts : length (size_factors w counts) = w.
Proof. unfold size_factors. rewrite length_map, length_seq. reflexivity. Qed.

Lemma slice2_length {A} (row : list A) c :
  (c + 2 <= length row)%nat → length (slice2 c row) = 2%nat.
Proof.
  intros H. unfold slice2. rewrite length_take, length_drop. lia.
Qed.

(** The values written for the pair at [c] in the row [rrow]. *)
Lemma scaled_pair_length raw rrow c :
  (c + 2 <= width raw)%nat → (c + 2 <= length rrow)%nat →
  length (zip_with fdiv (slice2 c rrow) (pair_sf raw c)) = 2%nat.
Proof.
  intros Hw Hr. rewrite length_zip_with, slice2_length by exact Hr.
  unfold pair_sf. rewrite size_factors_length. lia.
Qed.

(** A selected row of a matrix with [2 * m] columns, scaled. *)
Lemma scapair_row_selected raw rrow m :
  width raw = (2 * m)%nat → length rrow = (2 * m)%nat →
  sel_row rrow = true →
  scapair_row raw rrow
  = flat_map (λ c, zip_with fdiv (slice2 c rrow) (pair_sf raw c))
             (map (λ i, 2 * i)%nat (seq 0 m)).
Proof.
  intros Hw Hlen Hsel. unfold scapair_row.
  rewrite Hsel, Hw, pair_columns_even, mark_missing_sel by exact Hsel.
  pose proof (fold_set_slice
                (λ c, zip_with fdiv (slice2 c rrow) (pair_sf raw c)) m 0 [] rrow)
    as Hfold.
  cbn [app] in Hfold. rewrite Hfold.
  - rewrite drop_ge by lia. apply app_nil_r.
  - intros i Hi. apply scaled_pair_length; lia.
  - reflexivity.
Qed.

Lemma slice2_flat_map (v : nat → list float) m : ∀ k j,
  (∀ i, (j <= i < j + m)%nat → length (v (2 * i)%nat) = 2%nat) →
  (k < m)%nat →
  slice2 (2 * k) (flat_map v (map (λ i, 2 * i)%nat (seq j m)))
  = v (2 * (j + k))%nat.
Proof.
  induction m as [| m IH]; intros k j Hv Hk; [lia |].
  cbn [seq map flat_map].
  assert (Hvj : length (v (2 * j)%nat) = 2%nat) by (apply Hv; lia).
  destruct k as [| k].
  - unfold slice2. rewrite Nat.mul_0_r, drop_0, take_app_length' by lia.
    rewrite Nat.add_0_r. reflexivity.
  - unfold slice2. replace (2 * S k)%nat with (2 + 2 * k)%nat by lia.
    rewrite <- drop_drop.
    rewrite (drop_app_length' (v (2 * j)%nat)) by lia.
    fold (slice2 (2 * k) (flat_map v (map (λ i, (2 * i)%nat) (seq (S j) m)))).
    rewrite IH; [| intros i Hi; apply Hv; lia | lia].
    f_equal. lia.
Qed.

(** ** No usable row for a pair *)

Lemma filter_none {A} (p : A → bool) (l : list A) :
  (∀ x, In x l → p x = false) → List.filter p l = [].
Proof.
  induction l as [| x l IH]; intros H; [reflexivity |].
  cbn [List.filter]. rewrite (H x) by (left; reflexivity).
  apply IH. intros y Hy. apply H. right. exact Hy.
Qed.

Lemma size_factors_no_row counts :
  (∀ row, In row counts → forallb truthy row = false) →
  size_factors 2 counts = [NaN; NaN].
Proof.
  intros H. unfold size_factors. rewrite filter_none by exact H. reflexivity.
Qed.

Lemma zip_with_fdiv_NaN (l : list float) :
  length l = 2%nat → zip_with fdiv l [NaN; NaN] = [NaN; NaN].
Proof.
  destruct l as [| x [| y [| z l]]]; try discriminate. intros _.
  cbn [zip_with]. rewrite !fdiv_NaN. reflexivity.
Qed.

Lemma width_of_row {A} (raw : list (list A)) n row :
  Forall (λ row, length row = n) raw → In row raw → width raw = n.
Proof.
  intros Hall Hin. destruct raw as [| r0 raw]; [destruct Hin |].
  inversion Hall; subst. reflexivity.
Qed.

Lemma pair_sf_no_row raw m k :
  Forall (λ row, length row = (2 * m)%nat) raw → raw ≠ [] → (k < m)%nat →
  (∀ row, In row raw → sel_row row = true →
          forallb truthy (slice2 (2 * k) row) = false) →
  pair_sf raw (2 * k) = [NaN; NaN].
Proof.
  intros Hrect Hne Hk Hzero. unfold pair_sf.
  assert (Hw : width raw = (2 * m)%nat).
  { destruct raw as [| r0 raw]; [contradiction |].
    apply (width_of_row _ _ r0 Hrect). left. reflexivity. }
  rewrite Hw. replace (Nat.min 2 (2 * m - 2 * k)) with 2%nat by lia.
  apply size_factors_no_row. intros row Hin.
  apply in_map_iff in Hin. destruct Hin as (rrow & <- & Hin).
  apply filter_In in Hin. destruct Hin as [Hin Hsel].
  apply Hzero; assumption.
Qed.

(** C2, as the code has it: when no row without a sentinel has both
    counts of a pair different from zero, [scapair] raises nothing; the
    two size factors of the pair are NaN, and in every row without a
    sentinel the two values of the pair become NaN. *)
Theorem scapair_no_qualifying_row raw m k :
  Forall (λ row, length row = (2 * m)%nat) raw → (k < m)%nat →
  (∀ row, In row raw → sel_row row = true →
          forallb truthy (slice2 (2 * k) row) = false) →
  ∃ scaled,
    scapair raw "deseq" = Ok scaled
    ∧ (raw ≠ [] → pair_sf raw (2 * k) = [NaN; NaN])
    ∧ ∀ i row, nth_error raw i = Some row → sel_row row = true →
        ∃ srow, nth_error scaled i = Some srow
                ∧ slice2 (2 * k) srow = [NaN; NaN].
Proof.
  intros Hrect Hk Hzero. exists (map (scapair_row raw) raw).
  split; [apply scapair_rows |]. split.
  - intros Hne. apply (pair_sf_no_row raw m k); assumption.
  - intros i row Hi Hsel. exists (scapair_row raw row).
    rewrite nth_error_map, Hi. split; [reflexivity |].
    assert (Hin : In row raw) by (eapply nth_error_In; exact Hi).
    assert (Hlen : length row = (2 * m)%nat).
    { rewrite Forall_forall in Hrect. apply Hrect, list_elem_of_In. exact Hin. }
    assert (Hw : width raw = (2 * m)%nat)
      by (apply (width_of_row _ _ row Hrect Hin)).
    rewrite (scapair_row_selected raw row m Hw Hlen Hsel).
    rewrite (slice2_flat_map _ m k 0);
      [| intros j Hj; apply scaled_pair_length; lia | exact Hk].
    cbn [Nat.add].
    rewrite (pair_sf_no_row raw m k Hrect) by
      (try assumption; intros ->; destruct Hin).
    apply zip_with_fdiv_NaN. apply slice2_length. lia.
Qed.

(** C2, at a matrix of one pair and one row with a zero count: the
    result is not an error but a row of NaN. *)
Lemma scapair_no_error_on_zero_counts :
  forallb truthy [Fin 0; Fin 3] = false
  ∧ scapair [[Fin 0; Fin 3]] "deseq" = Ok [[NaN; NaN]]
  ∧ ¬ ∃ e, scapair [[Fin 0; Fin 3]] "deseq" = Raise e.
Proof.
  assert (Hz : forallb truthy [Fin 0; Fin 3] = false)
    by (cbn; rcompare; reflexivity).
  assert (Hsel : sel_row [Fin 0; Fin 3] = true)
    by (cbn; rcompare; reflexivity).
  assert (Hrun : scapair [[Fin 0; Fin 3]] "deseq" = Ok [[NaN; NaN]]).
  { rewrite scapair_rows. cbn [map]. do 2 f_equal.
    rewrite (scapair_row_selected _ _ 1) by (reflexivity || exact Hsel).
    cbn [seq map flat_map Nat.mul Nat.add]. rewrite app_nil_r.
    unfold pair_sf. cbn [List.filter]. rewrite Hsel. cbn [map slice2 drop take].
    rewrite size_factors_no_row; [reflexivity |].
    intros row [<- | []]. exact Hz. }
  split; [exact Hz |]. split; [exact Hrun |].
  intros [e He]. rewrite Hrun in He. discriminate.
Qed.

Lemma scapair_no_qualifying_row_witness :
  Forall (λ row, length row = (2 * 1)%nat) [[Fin 0; Fin 3]]
  ∧ (0 < 1)%nat
  ∧ ∃ scaled,
      scapair [[Fin 0; Fin 3]] "deseq" = Ok scaled
      ∧ ∃ srow, nth_error scaled 0 = Some srow
                ∧ slice2 (2 * 0) srow = [NaN; NaN].
Proof.
  assert (Hrect : Forall (λ row, length row = (2 * 1)%nat) [[Fin 0; Fin 3]])
    by (repeat constructor).
  assert (Hk : (0 < 1)%nat) by lia.
  assert (Hsel : sel_row [Fin 0; Fin 3] = true)
    by (cbn; rcompare; reflexivity).
  split; [exact Hrect |]. split; [exact Hk |].
  destruct (scapair_no_qualifying_row [[Fin 0; Fin 3]] 1 0 Hrect Hk)
    as (scaled & Hrun & _ & Hrows).
  - intros row [<- | []] _. cbn. rcompare. reflexivity.
  - exists scaled. split; [exact Hrun |].
    apply (Hrows 0%nat [Fin 0; Fin 3]); [reflexivity | exact Hsel].
Defined.

(** ** From the extracted counts to the gain/loss walk *)

Lemma last_nth {A} (l : list A) x d :
  last l = Some x → nth (length l - 1) l d = x.
Proof.
  induction l as [| y [| z l] IH]; [discriminate | |].
  - cbn. intros H. injection H as ->. reflexivity.
  - rewrite last_cons_cons. intros H. specialize (IH H).
    cbn [length Nat.sub] in *. rewrite Nat.sub_0_r in IH. exact IH.
Qed.

Lemma blocks_shape (f : region → list Z) step regs :
  (∀ reg, length (f reg)
          = Z.to_nat (ceil_div (chromEnd reg - chromStart reg) step)) →
  let col := flat_map (λ reg, f reg ++ [(-1)%Z]) regs in
  length col = window_rows step regs
  ∧ (regs ≠ [] → last col = Some (-1)%Z).
Proof.
  intros Hf. cbv zeta. split.
  - unfold window_rows. induction regs as [| reg regs IH]; [reflexivity |].
    cbn [flat_map map]. rewrite !length_app, IH, Hf. cbn [length].
    change (list_sum (?x :: ?l)) with (x + list_sum l)%nat. lia.
  - intros Hne. destruct (exists_last Hne) as (regs' & reg & ->).
    rewrite flat_map_app. cbn [flat_map]. rewrite app_nil_r, !app_assoc.
    apply last_snoc.
Qed.

(** Each count list holds one value per window and one sentinel per
    region, whatever the files are, and ends with a sentinel. *)
Lemma parse_bam_differential_shape abam bbam regs step :
  (0 < step)%Z →
  ∃ acount bcount,
    parse_bam_differential abam bbam regs step = Ok (acount, bcount)
    ∧ length acount = window_rows step regs
    ∧ length bcount = window_rows step regs
    ∧ (regs ≠ [] → last acount = Some (-1)%Z ∧ last bcount = Some (-1)%Z).
Proof.
  intros Hstep. unfold parse_bam_differential.
  rewrite parse_bam_differential_loop_spec by exact Hstep. cbn [app].
  do 2 eexists. split; [reflexivity |].
  pose proof (blocks_shape
                (λ reg, map fst (region_windows abam bbam step reg)) step regs)
    as [HA1 HA2].
  { intros reg. unfold region_windows. rewrite !length_map, length_seq.
    reflexivity. }
  pose proof (blocks_shape
                (λ reg, map snd (region_windows abam bbam step reg)) step regs)
    as [HB1 HB2].
  { intros reg. unfold region_windows. rewrite !length_map, length_seq.
    reflexivity. }
  split; [exact HA1 |]. split; [exact HB1 |].
  intros Hne. split; [apply HA2 | apply HB2]; exact Hne.
Qed.

Lemma differential_columns_shape pairs regs step :
  (0 < step)%Z →
  ∃ cols,
    differential_columns pairs regs step = Ok cols
    ∧ length cols = (2 * length pairs)%nat
    ∧ Forall (λ col, length col = window_rows step regs
                     ∧ (regs ≠ [] → last col = Some (-1)%Z)) cols.
Proof.
  intros Hstep. induction pairs as [| [abam bbam] pairs IH].
  - exists []. split; [reflexivity |]. split; [reflexivity | constructor].
  - destruct IH as (cols & Hcols & Hlen & Hall).
    destruct (parse_bam_differential_shape abam bbam regs step Hstep)
      as (acount & bcount & Hrun & HA & HB & Hlast).
    exists (acount :: bcount :: cols).
    cbn [differential_columns]. rewrite Hrun, Hcols. cbn [bind fst snd].
    split; [reflexivity |]. split; [cbn [length]; lia |].
    constructor; [split; [exact HA | intros H; apply Hlast; exact H] |].
    constructor; [split; [exact HB | intros H; apply Hlast; exact H] |].
    exact Hall.
Qed.

(** The count matrix has two columns per pair; without regions it has
    no row, and otherwise its last row holds sentinels only. *)
Lemma differential_counts_shape pairs regs step :
  pairs ≠ [] → (0 < step)%Z →
  ∃ counts,
    differential_counts pairs regs step = Ok counts
    ∧ Forall (λ row, length row = (2 * length pairs)%nat) counts
    ∧ (regs = [] → counts = [])
    ∧ (regs ≠ [] →
       last counts = Some (repeat (-1)%Z (2 * length pairs))).
Proof.
  intros Hpairs Hstep.
  destruct (differential_columns_shape pairs regs step Hstep)
    as (cols & Hcols & Hlen & Hall).
  unfold differential_counts. rewrite Hcols. cbn [bind].
  destruct cols as [| c cols'].
  { destruct pairs; [contradiction | cbn in Hlen; lia]. }
  set (cols := c :: cols') in *.
  change (column_stack 0%Z cols)
    with (if forallb (λ c', Nat.eqb (length c') (length c)) cols
          then Ok (map (λ i, map (λ col, nth i col 0%Z) cols)
                       (seq 0 (length c)))
          else Raise (ValueError "all the input array dimensions must match")).
  assert (Hc : length c = window_rows step regs).
  { subst cols. inversion Hall as [| ? ? [H _] _]; subst. exact H. }
  assert (Hsame : forallb (λ c', Nat.eqb (length c') (length c)) cols = true).
  { apply forallb_forall. intros c' Hin. apply Nat.eqb_eq.
    rewrite Forall_forall in Hall. apply list_elem_of_In, Hall in Hin.
    destruct Hin as [-> _]. symmetry. exact Hc. }
  rewrite Hsame. eexists. split; [reflexivity |]. split; [| split].
  - apply Forall_forall. intros row Hin.
    apply list_elem_of_In, in_map_iff in Hin. destruct Hin as (i & <- & _).
    rewrite length_map. exact Hlen.
  - intros ->. rewrite Hc. reflexivity.
  - intros Hne. rewrite Hc.
    assert (Hpos : (0 < window_rows step regs)%nat).
    { unfold window_rows. destruct regs as [| reg regs']; [contradiction |].
      cbn [map]. change (list_sum (?x :: ?l)) with (x + list_sum l)%nat. lia. }
    destruct (window_rows step regs) as [| n] eqn:En; [lia |].
    rewrite seq_S, map_app. cbn [map Nat.add]. rewrite last_snoc. f_equal.
    rewrite <- Hlen. rewrite <- map_const_repeat. apply map_ext_in.
    intros col Hin. rewrite Forall_forall in Hall.
    apply list_elem_of_In, Hall in Hin. destruct Hin as [Hl Hlast].
    replace n with (length col - 1)%nat by lia.
    apply last_nth. apply Hlast. exact Hne.
Qed.

Lemma flat_map_pairs_length (v : nat → list float) n : ∀ j,
  (∀ i, (j <= i < j + n)%nat → length (v (2 * i)%nat) = 2%nat) →
  length (flat_map v (map (λ i, 2 * i)%nat (seq j n))) = (2 * n)%nat.
Proof.
  induction n as [| n IH]; intros j Hv; [reflexivity |].
  cbn [seq map flat_map]. rewrite length_app, Hv, IH by (try intros i Hi; try apply Hv; lia).
  lia.
Qed.

(** Scaling keeps the length of the rows. *)
Lemma scapair_row_length raw row p :
  width raw = (2 * p)%nat → length row = (2 * p)%nat →
  length (scapair_row raw row) = (2 * p)%nat.
Proof.
  intros Hw Hlen. destruct (sel_row row) eqn:Hsel.
  - rewrite (scapair_row_selected raw row p Hw Hlen Hsel).
    apply flat_map_pairs_length. intros i Hi. apply scaled_pair_length; lia.
  - unfold scapair_row. rewrite Hsel. unfold mark_missing.
    rewrite length_map. exact Hlen.
Qed.

(** A row of sentinels becomes a row of NaN. *)
Lemma scapair_row_sentinels raw n :
  (0 < n)%nat → scapair_row raw (repeat (Fin (-1)) n) = repeat NaN n.
Proof.
  intros Hn. unfold scapair_row.
  assert (Hsel : sel_row (repeat (Fin (-1)) n) = false).
  { destruct n as [| n]; [lia |]. cbn [repeat sel_row forallb feq].
    rewrite Reqb_true by reflexivity. reflexivity. }
  rewrite Hsel. unfold mark_missing. rewrite map_repeat. cbn [feq].
  rewrite Reqb_true by reflexivity. reflexivity.
Qed.

Lemma deltas_NaN_row p :
  (0 < p)%nat → existsb isnan (deltas (repeat NaN (2 * p))) = true.
Proof.
  intros Hp. destruct p as [| [| p]]; [lia | reflexivity |].
  replace (2 * S (S p))%nat with (S (S (S (S (2 * p))))) by lia. reflexivity.
Qed.

(** Counts whose last row holds sentinels only, once [scapair] has
    turned the sentinels into NaN, are walked to the end. *)
Lemma scaled_counts_walked (raw : list (list float)) p :
  (0 < p)%nat →
  Forall (λ row, length row = (2 * p)%nat) raw →
  last raw = Some (repeat (Fin (-1)) (2 * p)) →
  Forall (λ row, length row = (2 * p)%nat) (map (scapair_row raw) raw)
  ∧ last (map (scapair_row raw) raw) = Some (repeat NaN (2 * p))
  ∧ is_ok (scale_differential (map (scapair_row raw) raw)).
Proof.
  intros Hp Hraw Hrlast.
  assert (Hw : width raw = (2 * p)%nat).
  { destruct raw as [| r0 raw']; [discriminate |].
    inversion Hraw; subst. assumption. }
  assert (Hrect : Forall (λ row, length row = (2 * p)%nat)
                    (map (scapair_row raw) raw)).
  { apply List.Forall_forall. intros srow Hin.
    apply in_map_iff in Hin as (row & <- & Hin).
    apply scapair_row_length; [exact Hw |].
    exact (proj1 (List.Forall_forall _ _) Hraw row Hin). }
  assert (Hlast : last (map (scapair_row raw) raw) = Some (repeat NaN (2 * p))).
  { rewrite last_map, Hrlast. cbn [option_map]. f_equal.
    apply scapair_row_sentinels. lia. }
  split; [exact Hrect |]. split; [exact Hlast |].
  apply (scale_differential_ends_iff _ p Hrect).
  right. exists (repeat NaN (2 * p)). split; [exact Hlast |].
  apply deltas_NaN_row. exact Hp.
Qed.

(** C10, at the counts that [extract_differential] writes for one
    region of one window and one pair of files, read back by
    [scale_differential] as they are: the row that closes the region
    holds -1 and no NaN, and the walk reads past the last row. *)
Theorem scale_differential_raw_counts_fail :
  let abam := {| count := λ _ _ _, 3%nat |} in
  let bbam := {| count := λ _ _ _, 4%nat |} in
  let reg := {| chrom := "chr1"; chromStart := 0; chromEnd := 100;
                bed_rest := [] |} in
  differential_counts [(abam, bbam)] [reg] 100 = Ok [[3; 4]; [-1; -1]]%Z
  ∧ loadtxt (savetxt_d [[3; 4]; [-1; -1]]%Z)
    = Ok (Arr2 [[Fin 3; Fin 4]; [Fin (-1); Fin (-1)]])
  ∧ scale_differential_array (Arr2 [[Fin 3; Fin 4]; [Fin (-1); Fin (-1)]])
    = Raise IndexError.
Proof.
  intros abam bbam reg.
  split; [reflexivity |]. split; [reflexivity |].
  cbn [scale_differential_array].
  set (scaled := [[Fin 3; Fin 4]; [Fin (-1); Fin (-1)]]).
  assert (Hrect : Forall (λ row, length row = (2 * 1)%nat) scaled)
    by (repeat constructor).
  destruct (scale_differential_ends_iff scaled 1 Hrect) as [Hcases Hiff].
  destruct Hcases as [Hok | Herr]; [| exact Herr].
  apply Hiff in Hok as [Hnil | (row & Hrow & Hnan)]; [discriminate |].
  cbn in Hrow. injection Hrow as <-.
  cbn [deltas odds evens zip_with existsb isnan fsub fneg fadd orb] in Hnan.
  discriminate.
Qed.

(** * Further properties of the code *)

(** ** Extraction: errors and shapes *)

Lemma parse_bam_absolute_loop_cases bam regs : ∀ acc,
  parse_bam_absolute_loop bam regs acc
  = if existsb (λ reg, (chromEnd reg - chromStart reg =? 0)%Z) regs
    then Raise ZeroDivisionError
    else Ok (acc ++ map (normalized bam) regs).
Proof.
  induction regs as [| reg regs IH]; intros acc.
  - cbn. rewrite app_nil_r. reflexivity.
  - cbn [parse_bam_absolute_loop existsb map].
    destruct (chromEnd reg - chromStart reg =? 0)%Z; [reflexivity |].
    cbn [orb]. rewrite IH. destruct (existsb _ regs); [reflexivity |].
    rewrite <- app_assoc. reflexivity.
Qed.



Lemma parse_bam_differential_loop_any abam bbam step regs :
  (step ≠ 0)%Z → ∀ acount bcount,
  parse_bam_differential_loop abam bbam regs step acount bcount
  = Ok (acount ++ flat_map (λ reg,
            map (λ s, Z.of_nat (count abam (chrom reg) s (s + step)))
                (window_starts step reg) ++ [(-1)%Z]) regs,
        bcount ++ flat_map (λ reg,
            map (λ s, Z.of_nat (count bbam (chrom reg) s (s + step)))
                (window_starts step reg) ++ [(-1)%Z]) regs).
Proof.
  intros Hstep. induction regs as [| reg regs IH]; intros acount bcount.
  - cbn. rewrite !app_nil_r. reflexivity.
  - cbn [parse_bam_differential_loop flat_map]. unfold window_starts.
    assert (Hx : ∃ ss, xrange (chromStart reg) (chromEnd reg) step = Ok ss).
    { unfold xrange. destruct (Z.eqb_spec step 0); [contradiction |].
      destruct (0 <? step)%Z; eexists; reflexivity. }
    destruct Hx as [ss ->]. cbn [bind].
    rewrite parse_bam_differential_windows_spec, IH.
    rewrite <- !app_assoc. reflexivity.
Qed.

Lemma count_occ_sentinel_block (f : Z → nat) ss :
  count_occ Z.eq_dec (map (λ s, Z.of_nat (f s)) ss ++ [(-1)%Z]) (-1)%Z = 1%nat.
Proof.
  rewrite count_occ_app.
  assert (H0 : count_occ Z.eq_dec (map (λ s, Z.of_nat (f s)) ss) (-1)%Z = 0%nat).
  { apply count_occ_not_In. intros Hin. apply in_map_iff in Hin.
    destruct Hin as (s & Hs & _). lia. }
  rewrite H0. reflexivity.
Qed.

Lemma count_occ_blocks (f : region → list Z) regs :
  (∀ reg, count_occ Z.eq_dec (f reg ++ [(-1)%Z]) (-1)%Z = 1%nat) →
  count_occ Z.eq_dec (flat_map (λ reg, f reg ++ [(-1)%Z]) regs) (-1)%Z
  = length regs.
Proof.
  intros Hf. induction regs as [| reg regs IH]; [reflexivity |].
  cbn [flat_map length]. rewrite count_occ_app, Hf, IH. reflexivity.
Qed.

Lemma length_blocks (f g : region → list Z) regs :
  (∀ reg, length (f reg) = length (g reg)) →
  length (flat_map (λ reg, f reg ++ [(-1)%Z]) regs)
  = length (flat_map (λ reg, g reg ++ [(-1)%Z]) regs).
Proof.
  intros Hfg. induction regs as [| reg regs IH]; [reflexivity |].
  cbn [flat_map]. rewrite !length_app, IH, Hfg. reflexivity.
Qed.



Lemma column_stack_shape {A} (d : A) (cols : list (list A)) n :
  cols ≠ [] → Forall (λ col, length col = n) cols →
  ∃ rows, column_stack d cols = Ok rows
          ∧ length rows = n
          ∧ Forall (λ row, length row = length cols) rows.
Proof.
  intros Hne Hall. destruct cols as [| c cols']; [contradiction |].
  set (cols := c :: cols') in *.
  change (column_stack d cols)
    with (if forallb (λ c', Nat.eqb (length c') (length c)) cols
          then Ok (map (λ i, map (λ col, nth i col d) cols) (seq 0 (length c)))
          else Raise (ValueError "all the input array dimensions must match")).
  assert (Hc : length c = n).
  { subst cols. inversion Hall; subst. reflexivity. }
  assert (Hsame : forallb (λ c', Nat.eqb (length c') (length c)) cols = true).
  { apply forallb_forall. intros c' Hin. apply Nat.eqb_eq.
    rewrite Forall_forall in Hall. apply list_elem_of_In, Hall in Hin. lia. }
  rewrite Hsame. eexists. split; [reflexivity |]. split.
  - rewrite length_map, length_seq. exact Hc.
  - apply Forall_forall. intros row Hin.
    apply list_elem_of_In, in_map_iff in Hin. destruct Hin as (i & <- & _).
    apply length_map.
Qed.

(** X3: [process_bam_differential]'s count matrix: without any pair
    [column_stack] refuses; with at least one pair and a positive step
    the columns of all files have the same length, so that the matrix is
    built, with one row per window and per sentinel of every region and
    two columns per pair. *)
Theorem differential_counts_matrix pairs regs step :
  differential_counts [] regs step
  = Raise (ValueError "need at least one array to concatenate")
  ∧ (pairs ≠ [] → (0 < step)%Z →
     ∃ counts,
       differential_counts pairs regs step = Ok counts
       ∧ length counts = window_rows step regs
       ∧ Forall (λ row, length row = (2 * length pairs)%nat) counts).
Proof.
  split; [reflexivity |]. intros Hpairs Hstep.
  destruct (differential_columns_shape pairs regs step Hstep)
    as (cols & Hcols & Hlen & Hall).
  unfold differential_counts. rewrite Hcols. cbn [bind].
  destruct (column_stack_shape 0%Z cols (window_rows step regs))
    as (rows & Hrows & Hn & Hw).
  - intros ->. destruct pairs; [contradiction | cbn in Hlen; lia].
  - eapply Forall_impl; [exact Hall |]. cbn. intros col [H _]. exact H.
  - exists rows. split; [exact Hrows |]. split; [exact Hn |].
    rewrite <- Hlen. exact Hw.
Qed.

Lemma differential_counts_matrix_witness :
  let abam := {| count := λ _ _ _, 3%nat |} in
  let bbam := {| count := λ _ _ _, 4%nat |} in
  let reg := {| chrom := "chr1"; chromStart := 0; chromEnd := 250;
                bed_rest := [] |} in
  [(abam, bbam)] ≠ [] ∧ (0 < 100)%Z
  ∧ ∃ counts,
      differential_counts [(abam, bbam)] [reg; reg] 100 = Ok counts
      ∧ length counts = 8%nat.
Proof.
  intros abam bbam reg.
  assert (Hne : [(abam, bbam)] ≠ []) by discriminate.
  assert (Hstep : (0 < 100)%Z) by reflexivity.
  split; [exact Hne |]. split; [exact Hstep |].
  destruct (proj2 (differential_counts_matrix [(abam, bbam)] [reg; reg] 100)
              Hne Hstep) as (counts & Hrun & Hlen & _).
  exists counts. split; [exact Hrun |]. rewrite Hlen. reflexivity.
Defined.

(** ** Gain and loss: what the walk returns *)

Lemma nonneg_add_pos g v :
  nonneg g → flt (Fin 0) v = true → nonneg (fadd g v).
Proof.
  destruct g as [a | | |], v as [b | | |]; cbn; try (intros; easy).
  intros Ha Hb. destruct (Rltb_spec 0 b); [lra | discriminate].
Qed.

Lemma nonneg_sub_neg l v :
  nonneg l → flt v (Fin 0) = true → nonneg (fsub l v).
Proof.
  destruct l as [a | | |], v as [b | | |]; cbn; try (intros; easy).
  intros Ha Hb. destruct (Rltb_spec b 0); [lra | discriminate].
Qed.

Lemma nonneg_div_count x j : nonneg x → nonneg (fdiv x (Fin (INR (S j)))).
Proof.
  pose proof (INR_S_neq_0 j) as Hj. pose proof (pos_INR (S j)) as Hp.
  destruct x as [a | | |]; cbn [fdiv nonneg]; try easy.
  - intros Ha. rewrite Reqb_false by exact Hj. cbn [nonneg].
    apply Rmult_le_pos; [exact Ha |]. apply Rlt_le, Rinv_0_lt_compat. lra.
  - intros _. rewrite Rltb_false by lra. exact I.
Qed.

Lemma update_last_keeps k f cur cur' :
  (∀ x, nonneg x → nonneg (f x)) →
  update_last k f cur = Ok cur' →
  length cur' = length cur ∧ (Forall nonneg cur → Forall nonneg cur').
Proof.
  intros Hf. unfold update_last.
  destruct (k <? length cur)%nat; [| discriminate].
  intros H. injection H as <-. split; [apply length_alter |].
  intros Hc. apply Forall_alter; [exact Hc |]. intros x _. apply Hf.
Qed.

Lemma accumulate_step_keeps cur cv cur' :
  accumulate_step cur cv = Ok cur' →
  length cur' = length cur ∧ (Forall nonneg cur → Forall nonneg cur').
Proof.
  destruct cv as [c v]. unfold accumulate_step.
  assert (H1 : ∀ cur1,
            (if flt (Fin 0) v
             then update_last (c * 2 + 0) (λ g, fadd g v) cur else Ok cur)
            = Ok cur1 →
            length cur1 = length cur ∧ (Forall nonneg cur → Forall nonneg cur1)).
  { intros cur1. destruct (flt (Fin 0) v) eqn:Hv.
    - apply update_last_keeps. intros x Hx.
      apply nonneg_add_pos; [exact Hx | exact Hv].
    - intros H. injection H as <-. split; auto. }
  destruct (if flt (Fin 0) v
            then update_last (c * 2 + 0) (λ g, fadd g v) cur else Ok cur)
    as [cur1 |] eqn:E1; [| discriminate].
  destruct (H1 cur1 eq_refl) as [Hl1 Hn1]. cbn [bind].
  destruct (flt v (Fin 0)) eqn:Hv.
  - intros H2.
    destruct (update_last_keeps _ (λ l, fsub l v) cur1 cur'
                (λ x Hx, nonneg_sub_neg x v Hx Hv) H2) as [Hl2 Hn2].
    split; [congruence | auto].
  - intros H. injection H as <-. split; auto.
Qed.

Lemma accumulate_keeps cur row cur' :
  accumulate cur row = Ok cur' →
  length cur' = length cur ∧ (Forall nonneg cur → Forall nonneg cur').
Proof.
  unfold accumulate. generalize (zip (seq 0 (length row)) row). intros cvs.
  revert cur. induction cvs as [| cv cvs IH]; intros cur; cbn [accumulate_loop].
  - intros H. injection H as <-. split; auto.
  - destruct (accumulate_step cur cv) as [cur1 |] eqn:E1; [| discriminate].
    cbn [bind]. intros H2.
    destruct (accumulate_step_keeps cur cv cur1 E1) as [Hl1 Hn1].
    destruct (IH cur1 H2) as [Hl2 Hn2]. split; [congruence | auto].
Qed.

Lemma walk_output zeros rows : ∀ j cur gl,
  Forall nonneg zeros → Forall nonneg cur → length cur = length zeros →
  walk zeros rows j cur = Ok gl →
  length gl = length (List.filter (existsb isnan) rows)
  ∧ Forall (λ r, length r = length zeros ∧ Forall nonneg r) gl.
Proof.
  induction rows as [| row rest IH]; intros j cur gl Hz Hc Hlen Hrun;
    [discriminate |].
  cbn [walk] in Hrun. cbn [List.filter].
  destruct (existsb isnan row) eqn:Hnan.
  - set (closed := map (λ x, fdiv x (Fin (INR (S j)))) cur) in *.
    assert (Hclosed : length closed = length zeros ∧ Forall nonneg closed).
    { subst closed. rewrite length_map. split; [exact Hlen |].
      apply Forall_forall. intros y Hy.
      apply list_elem_of_In, in_map_iff in Hy. destruct Hy as (x & <- & Hx).
      apply nonneg_div_count. rewrite Forall_forall in Hc.
      apply Hc, list_elem_of_In. exact Hx. }
    destruct rest as [| row' rest'].
    + injection Hrun as <-. split; [reflexivity |].
      constructor; [exact Hclosed | constructor].
    + destruct (walk zeros (row' :: rest') 0 zeros) as [gl' |] eqn:Hrest;
        [| discriminate].
      cbn [bind] in Hrun. injection Hrun as <-.
      destruct (IH O zeros gl' Hz Hz eq_refl Hrest) as [IHlen IHall].
      split; [cbn [length]; rewrite IHlen; reflexivity |].
      constructor; [exact Hclosed | exact IHall].
  - destruct (accumulate cur row) as [cur' |] eqn:Eacc; [| discriminate].
    cbn [bind] in Hrun.
    destruct (accumulate_keeps cur row cur' Eacc) as [Hal Hann].
    apply (IH (S j) cur' gl Hz (Hann Hc)); [congruence | exact Hrun].
Qed.

(** X4: whenever [scale_differential] returns, its result has one row
    per input row that holds a missing value (one per closed block),
    every row is as wide as the input, and every value is zero or
    greater and not NaN, whatever the input values are. *)
Theorem scale_differential_output scaled gl :
  scale_differential scaled = Ok gl →
  length gl
  = length (List.filter (λ row, existsb isnan (deltas row)) scaled)
  ∧ Forall (λ r, length r = width scaled ∧ Forall nonneg r) gl.
Proof.
  unfold scale_differential.
  destruct (Nat.odd (width scaled) && Nat.ltb 3 (width scaled));
    [discriminate |].
  set (zeros := repeat (Fin 0) (width scaled)).
  assert (Hz : Forall nonneg zeros).
  { subst zeros. apply Forall_forall. intros x Hx.
    apply list_elem_of_In, repeat_spec in Hx. subst x. cbn. lra. }
  assert (Hw : length zeros = width scaled)
    by (subst zeros; apply repeat_length).
  assert (Hf : ∀ rows : list (list float),
            length (List.filter (existsb isnan) (map deltas rows))
            = length (List.filter (λ row, existsb isnan (deltas row)) rows)).
  { induction rows as [| r rows IH]; [reflexivity |].
    cbn [map List.filter]. destruct (existsb isnan (deltas r)); cbn [length];
      rewrite IH; reflexivity. }
  destruct (map deltas scaled) as [| d ds] eqn:E.
  - intros H. injection H as <-. destruct scaled; [| discriminate].
    split; [reflexivity | constructor].
  - intros Hrun. rewrite <- E in Hrun.
    destruct (walk_output zeros (map deltas scaled) 0 zeros gl Hz Hz eq_refl Hrun)
      as [Hlen Hall].
    rewrite Hf in Hlen. split; [exact Hlen |].
    rewrite <- Hw. exact Hall.
Qed.

Lemma scale_differential_output_witness :
  scale_differential [[Fin 0; Fin 5]; [NaN; NaN]] = Ok [[Fin (5 / 2); Fin 0]]
  ∧ Forall (λ r, length r = 2%nat ∧ Forall nonneg r) [[Fin (5 / 2); Fin 0]].
Proof.
  assert (Hrun : scale_differential [[Fin 0; Fin 5]; [NaN; NaN]]
                 = Ok [[Fin (5 / 2); Fin 0]]).
  { unfold scale_differential.
    cbn [width length Nat.odd Nat.ltb Nat.leb andb negb].
    cbn [map deltas odds evens zip_with fsub fneg fadd repeat].
    change [[Fin (5 + - 0)]; [NaN]]
      with (map (λ d, [Fin d]) [5 + - 0] ++ [NaN] :: []).
    rewrite walk_single_pair_block by reflexivity.
    cbn [length gain_sum loss_sum Nat.add INR].
    rewrite Rmax_left, Rmax_right by lra.
    do 3 f_equal; [f_equal; lra | do 2 f_equal; lra]. }
  split; [exact Hrun |].
  exact (proj2 (scale_differential_output _ _ Hrun)).
Defined.

(** ** The rows that [scapair] returns *)

(** X7: a row of [raw] that holds a sentinel is not scaled by
    [scapair]: its values equal to -1 become NaN and all its other
    values are kept as they are. *)
Theorem scapair_sentinel_rows raw :
  ∃ scaled,
    scapair raw "deseq" = Ok scaled
    ∧ ∀ i row, nth_error raw i = Some row → sel_row row = false →
        nth_error scaled i
        = Some (map (λ x, if feq x (Fin (-1)) then NaN else x) row).
Proof.
  exists (map (scapair_row raw) raw). split; [apply scapair_rows |].
  intros i row Hi Hsel. rewrite nth_error_map, Hi. cbn [option_map].
  unfold scapair_row. rewrite Hsel. reflexivity.
Qed.

Lemma scapair_sentinel_rows_witness :
  sel_row [Fin 7; Fin (-1)] = false
  ∧ ∃ scaled,
      scapair [[Fin 7; Fin (-1)]] "deseq" = Ok scaled
      ∧ nth_error scaled 0 = Some [Fin 7; NaN].
Proof.
  assert (Hsel : sel_row [Fin 7; Fin (-1)] = false)
    by (cbn; rcompare; reflexivity).
  split; [exact Hsel |].
  destruct (scapair_sentinel_rows [[Fin 7; Fin (-1)]]) as (scaled & Hrun & Hrows).
  exists scaled. split; [exact Hrun |].
  rewrite (Hrows 0%nat [Fin 7; Fin (-1)] eq_refl Hsel).
  cbn. rcompare. reflexivity.
Defined.

(** X8: [scapair] raises for every method but ["deseq"], and with
    ["deseq"] it never raises: it returns as many rows as it is given,
    and when these all have the same even length, so do the rows
    returned. *)
Theorem scapair_shape raw method m :
  (method ≠ "deseq" →
   scapair raw method = Raise (ValueError "unknown method"))
  ∧ ∃ scaled,
      scapair raw "deseq" = Ok scaled
      ∧ length scaled = length raw
      ∧ (Forall (λ row, length row = (2 * m)%nat) raw →
         Forall (λ row, length row = (2 * m)%nat) scaled).
Proof.
  split; [apply scapair_other_method |].
  exists (map (scapair_row raw) raw). split; [apply scapair_rows |].
  split; [apply length_map |].
  intros Hrect. apply Forall_forall. intros srow Hin.
  apply list_elem_of_In, in_map_iff in Hin. destruct Hin as (row & <- & Hin).
  apply scapair_row_length.
  - apply (width_of_row _ _ row Hrect Hin).
  - rewrite Forall_forall in Hrect. apply Hrect, list_elem_of_In. exact Hin.
Qed.

Lemma scapair_shape_witness :
  "whiten" ≠ "deseq"
  ∧ scapair [[Fin 2; Fin 8]] "whiten" = Raise (ValueError "unknown method")
  ∧ Forall (λ row, length row = (2 * 1)%nat) [[Fin 2; Fin 8]; [Fin 0; Fin 1]]
  ∧ ∃ scaled,
      scapair [[Fin 2; Fin 8]; [Fin 0; Fin 1]] "deseq" = Ok scaled
      ∧ Forall (λ row, length row = (2 * 1)%nat) scaled.
Proof.
  assert (Hm : "whiten" ≠ "deseq") by discriminate.
  assert (Hrect : Forall (λ row, length row = (2 * 1)%nat)
                    [[Fin 2; Fin 8]; [Fin 0; Fin 1]]) by (repeat constructor).
  split; [exact Hm |].
  split; [exact (proj1 (scapair_shape [[Fin 2; Fin 8]] "whiten" 1) Hm) |].
  split; [exact Hrect |].
  destruct (proj2 (scapair_shape [[Fin 2; Fin 8]; [Fin 0; Fin 1]] "deseq" 1))
    as (scaled & Hrun & _ & Hkeep).
  exists scaled. split; [exact Hrun | exact (Hkeep Hrect)].
Defined.

(** ** Whitening: missing values *)

Lemma fold_left_fadd_NaN l : fold_left fadd l NaN = NaN.
Proof. induction l as [| x l IH]; [reflexivity | exact IH]. Qed.

Lemma fsum_with_NaN l : In NaN l → fsum l = NaN.
Proof.
  unfold fsum. generalize (Fin 0). induction l as [| x l IH]; intros a Hin;
    [destruct Hin |].
  cbn [fold_left]. destruct Hin as [-> | Hin].
  - replace (fadd a NaN) with NaN by (destruct a; reflexivity).
    apply fold_left_fadd_NaN.
  - apply IH. exact Hin.
Qed.

(** X12: a single NaN in a column makes whitening return NaN for every
    value of the column. *)
Theorem scarr_whiten_missing row :
  In NaN row → scarr_whiten_row row = repeat NaN (length row).
Proof.
  intros Hin. apply scarr_whiten_row_undefined. right.
  unfold np_std.
  assert (Hmean : fmean row = NaN).
  { unfold fmean. rewrite fsum_with_NaN by exact Hin. reflexivity. }
  rewrite Hmean, map_map.
  assert (Hsum : fsum (map (λ v, fmul (fsub v NaN) (fsub v NaN)) row) = NaN).
  { apply fsum_with_NaN. apply in_map_iff. exists NaN.
    split; [reflexivity | exact Hin]. }
  rewrite Hsum. reflexivity.
Qed.

Lemma scarr_whiten_missing_witness :
  In NaN [Fin 1; NaN; Fin 3]
  ∧ scarr_whiten_row [Fin 1; NaN; Fin 3] = [NaN; NaN; NaN].
Proof.
  assert (Hin : In NaN [Fin 1; NaN; Fin 3]) by (right; left; reflexivity).
  split; [exact Hin |].
  exact (scarr_whiten_missing [Fin 1; NaN; Fin 3] Hin).
Defined.

(** ** The extraction tasks and their output file *)

Lemma keeps_files_bind {A B} (m : task A) (k : A → task B) :
  keeps_files m → (∀ a, keeps_files (k a)) → keeps_files (m ≫= k).
Proof.
  intros Hm Hk w r w' Hrun. unfold mbind, task_bind in Hrun.
  destruct (m w) as [[a | e] w1] eqn:Em.
  - rewrite (Hk a w1 r w' Hrun). apply (Hm w (Ok a) w1 Em).
  - injection Hrun as <- <-. apply (Hm w (Raise e) w1 Em).
Qed.

Lemma keeps_files_ret {A} (a : A) : keeps_files (mret a).
Proof. intros w r w' H. injection H as <- <-. reflexivity. Qed.

Lemma keeps_files_lift {A} (r : result A) : keeps_files (lift r).
Proof. intros w r' w' H. injection H as <- <-. reflexivity. Qed.

Lemma keeps_files_chk_exit cond msg : keeps_files (chk_exit cond msg).
Proof.
  unfold chk_exit. destruct cond; [apply keeps_files_lift | apply keeps_files_ret].
Qed.

Lemma keeps_files_inp_file p : keeps_files (inp_file p).
Proof. intros w r w' H. injection H as <- <-. reflexivity. Qed.

Lemma keeps_files_chks ps : keeps_files (chks (map inp_file ps)).
Proof.
  intros w r w' H. destruct (chks_inp_file ps w) as [r0 Hr0].
  rewrite Hr0 in H. injection H as <- <-. reflexivity.
Qed.

Lemma keeps_files_mkdir d : keeps_files (mkdir d).
Proof. intros w r w' H. injection H as <- <-. reflexivity. Qed.

Lemma keeps_files_parse_bed fn : keeps_files (parse_bed fn).
Proof.
  intros w r w' H. unfold parse_bed in H.
  destruct (files w !! fn) as [[| |] |]; injection H as <- <-; reflexivity.
Qed.

Lemma keeps_files_open_bam p : keeps_files (open_bam p).
Proof.
  intros w r w' H. unfold open_bam in H.
  destruct (files w !! p) as [[| |] |]; injection H as <- <-; reflexivity.
Qed.

Lemma keeps_files_run_par_absolute bams regs :
  keeps_files (run_par_absolute bams regs).
Proof.
  induction bams as [| fn bams IH]; [apply keeps_files_ret |].
  cbn [run_par_absolute].
  apply keeps_files_bind; [apply keeps_files_open_bam |]. intros bam.
  apply keeps_files_bind; [apply keeps_files_lift |]. intros col.
  apply keeps_files_bind; [exact IH |]. intros cols. apply keeps_files_ret.
Qed.

Lemma keeps_files_run_par_differential abbams :
  keeps_files (run_par_differential abbams).
Proof.
  induction abbams as [| [afn bfn] abbams IH]; [apply keeps_files_ret |].
  cbn [run_par_differential].
  apply keeps_files_bind; [apply keeps_files_open_bam |]. intros abam.
  apply keeps_files_bind; [apply keeps_files_open_bam |]. intros bbam.
  apply keeps_files_bind; [exact IH |]. intros pairs. apply keeps_files_ret.
Qed.

Section TasksOutput.

Variable fnmatch : string → string → bool.
Variable hash_absolute : path → list path → string.
Variable hash_differential : path → list path → list path → string.
Variable sorted : list path → list path.
Variable absolute_names : bool → list path → list string.
Variable differential_names : bool → list path → list path
                              → result (list string).

Lemma keeps_files_listdir odn pattern :
  keeps_files (listdir fnmatch odn pattern).
Proof. intros w r w' H. injection H as <- <-. reflexivity. Qed.

Lemma keeps_files_process_bam_absolute bams regs shorten :
  keeps_files (process_bam_absolute absolute_names bams regs shorten).
Proof.
  unfold process_bam_absolute.
  apply keeps_files_bind; [apply keeps_files_run_par_absolute |]. intros tmp.
  apply keeps_files_bind; [apply keeps_files_lift |]. intros counts.
  apply keeps_files_ret.
Qed.

Lemma keeps_files_process_bam_differential abams bbams regs shorten step :
  keeps_files (process_bam_differential differential_names abams bbams regs
                 shorten step).
Proof.
  unfold process_bam_differential.
  apply keeps_files_bind; [apply keeps_files_lift |]. intros names.
  apply keeps_files_bind; [apply keeps_files_run_par_differential |].
  intros pairs.
  apply keeps_files_bind; [apply keeps_files_lift |]. intros counts.
  apply keeps_files_ret.
Qed.

(** A task that keeps the files, followed by the writing of one file. *)
Lemma write_after_quiet {A} (m : task A) (fn : path) (f : A → file) w r w' :
  keeps_files m →
  (a ← m; _ ← write_file fn (f a); mret fn) w = (r, w') →
  match r with
  | Raise _ => files w' = files w
  | Ok fn' => fn' = fn ∧ ∃ a, files w' = <[ fn := f a ]> (files w)
  end.
Proof.
  intros Hm Hrun. unfold mbind, task_bind in Hrun.
  destruct (m w) as [[a | e] w1] eqn:Em.
  - cbn in Hrun. injection Hrun as <- <-. split; [reflexivity |].
    exists a. cbn [files]. rewrite (Hm w (Ok a) w1 Em). reflexivity.
  - injection Hrun as <- <-. apply (Hm w (Raise e) w1 Em).
Qed.

(** X13: [extract_absolute] and [extract_differential] change the
    files in one way only: when they return, they have written their
    output file, named after the run identifier in the output
    directory, and nothing else; when they stop with an exception,
    whichever it is, every file is as before. *)
Theorem extraction_writes_only_output :
  (∀ bed bams odn runid shorten w r w',
     extract_absolute fnmatch hash_absolute absolute_names
       bed bams odn runid shorten w = (r, w') →
     match r with
     | Raise _ => files w' = files w
     | Ok fn =>
         fn = (odn, absolute_runid hash_absolute (default ("", "") bed)
                      (default [] bams) runid +:+ "_lvl.arr")
         ∧ ∃ names values,
             files w' = <[ fn := ArrFile names values ]> (files w)
     end)
  ∧ (∀ bed abams bbams odn runid shorten step w r w',
       extract_differential fnmatch hash_differential sorted
         differential_names bed abams bbams odn runid shorten step w
       = (r, w') →
       match r with
       | Raise _ => files w' = files w
       | Ok fn =>
           fn = (odn, differential_runid hash_differential bed
                        (sorted abams) (sorted bbams) runid +:+ "_cnt.arr")
           ∧ ∃ names values,
               files w' = <[ fn := ArrFile names values ]> (files w)
       end).
Proof.
  split.
  - intros bed bams odn runid shorten w r w' Hrun.
    set (b := default ("", "") bed) in *. set (bs := default [] bams) in *.
    set (rid := absolute_runid hash_absolute b bs runid) in *.
    set (fn := (odn, rid +:+ "_lvl.arr")) in *.
    pose (m := (_ ← chk_exit (bool_decide (bed = None))
                      "a BED6+ file is required";
                _ ← chk_exit (bool_decide (bams = None))
                      "a set of BAM files is required";
                _ ← chks (map inp_file bs);
                _ ← mkdir odn;
                bed_regions ← parse_bed b;
                found ← listdir fnmatch odn (rid +:+ "_lvl.arr");
                _ ← chk_exit (nonempty found)
                      ("error: " +:+ rid +:+ " exists in " +:+ odn);
                process_bam_absolute absolute_names bs bed_regions shorten)
               : task (list string * list (list float))).
    assert (Hm : keeps_files m).
    { subst m. repeat (apply keeps_files_bind;
        [first [ apply keeps_files_chk_exit | apply keeps_files_chks
               | apply keeps_files_mkdir | apply keeps_files_parse_bed
               | apply keeps_files_listdir ] | intros ?]).
      apply keeps_files_process_bam_absolute. }
    assert (Heq : extract_absolute fnmatch hash_absolute absolute_names
                    bed bams odn runid shorten w
                  = (nc ← m; _ ← write_file fn (ArrFile nc.1 nc.2); mret fn) w).
    { subst m. unfold extract_absolute, mbind, task_bind.
      fold b bs rid fn.
      repeat match goal with
             | |- context [match ?t ?w0 with _ => _ end] =>
                 destruct (t w0) as [[? | ?] ?]
             end; reflexivity. }
    rewrite Heq in Hrun.
    pose proof (write_after_quiet m fn (λ nc, ArrFile nc.1 nc.2) w r w' Hm Hrun)
      as H.
    destruct r as [fn' | e]; [| exact H].
    destruct H as [-> [nc Hnc]]. split; [reflexivity |]. eauto.
  - intros bed abams bbams odn runid shorten step w r w' Hrun.
    set (rid := differential_runid hash_differential bed
                  (sorted abams) (sorted bbams) runid) in *.
    set (fn := (odn, rid +:+ "_cnt.arr")) in *.
    pose (m := (r0 ← inp_file bed;
                _ ← chk_exit r0.1 r0.2;
                _ ← chks (map inp_file (abams ++ bbams));
                _ ← mkdir odn;
                bed_regions ← parse_bed bed;
                found ← listdir fnmatch odn (rid +:+ "_cnt.arr");
                _ ← chk_exit (nonempty found)
                      ("error: " +:+ rid +:+ " exists in " +:+ odn);
                process_bam_differential differential_names
                  (sorted abams) (sorted bbams) bed_regions shorten step)
               : task (list string * list (list Z))).
    assert (Hm : keeps_files m).
    { subst m. repeat (apply keeps_files_bind;
        [first [ apply keeps_files_chk_exit | apply keeps_files_chks
               | apply keeps_files_mkdir | apply keeps_files_parse_bed
               | apply keeps_files_listdir | apply keeps_files_inp_file ]
        | intros ?]).
      apply keeps_files_process_bam_differential. }
    assert (Heq : extract_differential fnmatch hash_differential sorted
                    differential_names bed abams bbams odn runid shorten step w
                  = (nc ← m; _ ← write_file fn (ArrFile nc.1 (savetxt_d nc.2));
                     mret fn) w).
    { subst m. unfold extract_differential, mbind, task_bind.
      fold rid fn.
      repeat match goal with
             | |- context [match ?t ?w0 with _ => _ end] =>
                 destruct (t w0) as [[? | ?] ?]
             end; reflexivity. }
    rewrite Heq in Hrun.
    pose proof (write_after_quiet m fn (λ nc, ArrFile nc.1 (savetxt_d nc.2))
                  w r w' Hm Hrun) as H.
    destruct r as [fn' | e]; [| exact H].
    destruct H as [-> [nc Hnc]]. split; [reflexivity |]. eauto.
Qed.

End TasksOutput.

Lemma extraction_writes_only_output_witness :
  let bed := ("in", "regions.bed") in
  let bam := ("in", "a.bam") in
  let w0 := {| files := <[ bed := BedFile [] ]>
                          {[ bam := BamFile {| count := λ _ _ _, 5%nat |} ]};
               dirs := ∅; trace := [] |} in
  let run := extract_absolute String.eqb (λ _ _, "0") (λ _ _, ["a"])
               (Some bed) (Some [bam]) "out" (Some "run1") false w0 in
  run.1 = Ok ("out", "run1_lvl.arr")
  ∧ ∃ names values,
      files run.2
      = <[ ("out", "run1_lvl.arr") := ArrFile names values ]> (files w0).
Proof.
  intros bed bam w0 run.
  assert (E : run.1 = Ok ("out", "run1_lvl.arr")) by (vm_compute; reflexivity).
  split; [exact E |].
  pose proof (proj1 (extraction_writes_only_output String.eqb (λ _ _, "0")
                       (λ _ _ _, "0") (λ l, l) (λ _ _, ["a"])
                       (λ _ _ _, Ok []))
                (Some bed) (Some [bam]) "out" (Some "run1") false
                w0 run.1 run.2 (surjective_pairing run)) as H.
  rewrite E in H. exact (proj2 H).
Defined.

Lemma bind_ok_inv {A B} (m : task A) (k : A → task B) w b w' :
  (m ≫= k) w = (Ok b, w') →
  ∃ a w1, m w = (Ok a, w1) ∧ k a w1 = (Ok b, w').
Proof.
  unfold mbind, task_bind. destruct (m w) as [[a | e] w1]; [eauto | discriminate].
Qed.

Lemma bind_run {A B} (m : task A) (k : A → task B) w a w1 :
  m w = (Ok a, w1) → (m ≫= k) w = k a w1.
Proof. unfold mbind, task_bind. intros ->. reflexivity. Qed.

Lemma chk_exit_ok cond msg w u w' :
  chk_exit cond msg w = (Ok u, w') → cond = false ∧ w' = w.
Proof.
  destruct cond; cbn; [discriminate |]. intros H. injection H as _ <-. auto.
Qed.

Lemma chks_inp_file_passed (ps : list path) (w w' : world) :
  chks (map inp_file ps) w = (Ok tt, w') →
  Forall (λ p, is_Some (files w !! p)) ps.
Proof.
  induction ps as [| p ps IH]; intros H; [constructor |].
  cbn [map chks] in H. unfold mbind, task_bind in H. cbn [inp_file fst snd] in H.
  destruct (bool_decide (files w !! p = None)) eqn:Ep; cbn in H; [discriminate |].
  constructor; [| exact (IH H)].
  apply bool_decide_eq_false_1 in Ep.
  destruct (files w !! p); [eauto | contradiction].
Qed.

Lemma present_after_insert (m : gmap path file) fn f ps :
  Forall (λ p, is_Some (m !! p)) ps →
  Forall (λ p, is_Some (<[ fn := f ]> m !! p)) ps.
Proof.
  intros H. eapply Forall_impl; [exact H |].
  intros p Hp. cbn. apply lookup_insert_is_Some.
  destruct (decide (fn = p)); [left | right]; auto.
Qed.

Section TasksRerun.

Variable fnmatch : string → string → bool.
Variable hash_absolute : path → list path → string.
Variable hash_differential : path → list path → list path → string.
Variable sorted : list path → list path.
Variable absolute_names : bool → list path → list string.
Variable differential_names : bool → list path → list path
                              → result (list string).

(** What a completed run of the common tail of the two extraction
    tasks tells about the files before and after it. *)
Lemma completed_run {A} (w w' : world) odn (bed : path) name msg
    (k : list region → task A) (f : A → file) (fn : path) :
  (∀ regs, keeps_files (k regs)) →
  fnmatch name name = true →
  (_ ← mkdir odn;
   bed_regions ← parse_bed bed;
   found ← listdir fnmatch odn name;
   _ ← chk_exit (nonempty found) msg;
   nc ← k bed_regions;
   _ ← write_file (odn, name) (f nc);
   mret (odn, name)) w = (Ok fn, w') →
  ∃ records nc,
    files w !! bed = Some (BedFile records)
    ∧ files w !! (odn, name) = None
    ∧ files w' = <[ (odn, name) := f nc ]> (files w).
Proof.
  intros Hk Hm. unfold mbind, task_bind. cbn [mkdir].
  set (w1 := {| files := files w; dirs := {[odn]} ∪ dirs w;
                trace := trace w ++ [EvMkdir odn] |}).
  unfold parse_bed. change (files w1) with (files w).
  destruct (files w !! bed) as [[records | bam | names values] |];
    try discriminate.
  cbn [listdir]. change (files w1) with (files w).
  destruct (nonempty _) eqn:En; cbn [chk_exit lift mret task_ret];
    [discriminate |].
  unfold mret, task_ret.
  destruct (k _ w1) as [[nc | e] w2] eqn:Ek; [| discriminate].
  cbn [write_file]. intros H. injection H as _ <-.
  exists records, nc. split; [reflexivity |]. split.
  - destruct (files w !! (odn, name)) as [f0 |] eqn:Ef; [| reflexivity].
    rewrite (listdir_finds fnmatch w odn name name f0 Ef Hm) in En.
    discriminate.
  - cbn [files]. rewrite (Hk _ w1 (Ok nc) w2 Ek). reflexivity.
Qed.


End TasksRerun.


(** ** Strings *)

Lemma is_prefix_spec (sub s : str) :
  Str.is_prefix sub s = true ↔ ∃ q, s = sub ++ q.
Proof.
  revert s. induction sub as [| a sub IH]; intros s; cbn [Str.is_prefix].
  - split; [intros _; exists s; reflexivity | reflexivity].
  - destruct s as [| b s].
    + split; [discriminate | intros [q Hq]; discriminate].
    + rewrite andb_true_iff, Ascii.eqb_eq, IH. split.
      * intros [-> [q ->]]. exists q. reflexivity.
      * intros [q Hq]. injection Hq as -> ->. eauto.
Qed.

Lemma contains_spec (sub s : str) :
  Str.contains sub s = true ↔ ∃ p q, s = p ++ sub ++ q.
Proof.
  induction s as [| c s IH].
  - cbn [Str.contains]. rewrite orb_false_r, is_prefix_spec. split.
    + intros [q Hq]. exists [], q. exact Hq.
    + intros (p & q & Hpq). destruct p as [| ? p]; [exists q; exact Hpq |].
      discriminate.
  - cbn [Str.contains]. rewrite orb_true_iff, is_prefix_spec, IH. split.
    + intros [[q Hq] | (p & q & Hpq)].
      * exists [], q. exact Hq.
      * exists (c :: p), q. rewrite Hpq. reflexivity.
    + intros (p & q & Hpq). destruct p as [| c' p].
      * left. exists q. exact Hpq.
      * right. injection Hpq as _ ->. eauto.
Qed.

Lemma contains_nil (s : str) : Str.contains [] s = true.
Proof. apply contains_spec. exists [], s. reflexivity. Qed.

Lemma slice_from (s : str) i j : Str.slice s i (i + j) = take j (drop i s).
Proof. unfold Str.slice. f_equal. lia. Qed.

Lemma slice_middle (p s q : str) :
  Str.slice (p ++ s ++ q) (length p) (length p + length s) = s.
Proof.
  rewrite slice_from, drop_app_length. apply take_app_length.
Qed.

(** ** The longest common part of the names *)

Section CommonSub.

Variable d0 : str.
Variable data : list str.


Lemma inner_loop i (js : list nat) : ∀ substr,
  common_to data substr →
  Forall (λ j, (i + j ≤ length d0)%nat) js →
  let r := fold_left (common_sub_turn d0 data i) js substr in
  common_to data r
  ∧ (length substr ≤ length r)%nat
  ∧ ∀ j, In j js → common_to data (Str.slice d0 i (i + j)) → (j ≤ length r)%nat.
Proof.
  induction js as [| j js IH]; intros substr Hc Hjs; cbn [fold_left].
  - split; [exact Hc |]. split; [lia |]. intros j [].
  - apply Forall_cons in Hjs as [Hj Hjs].
    assert (Hlen : length (Str.slice d0 i (i + j)) = j).
    { rewrite slice_from, length_take, length_drop. lia. }
    assert (Ht : common_to data (common_sub_turn d0 data i substr j)
                 ∧ (length substr ≤ length (common_sub_turn d0 data i substr j))%nat
                 ∧ (common_to data (Str.slice d0 i (i + j))
                    → (j ≤ length (common_sub_turn d0 data i substr j))%nat)).
    { unfold common_sub_turn.
      destruct (length substr <? j)%nat eqn:El; cbn [andb].
      - apply Nat.ltb_lt in El.
        destruct (forallb _ data) eqn:Ef.
        + split; [exact Ef |]. rewrite Hlen. split; [lia |]. intros _. lia.
        + split; [exact Hc |]. split; [lia |]. unfold common_to.
          intros Hc'. rewrite Hc' in Ef. discriminate.
      - apply Nat.ltb_ge in El. split; [exact Hc |]. split; [lia |].
        intros _. exact El. }
    destruct Ht as (Hc1 & Hl1 & Hj1).
    destruct (IH (common_sub_turn d0 data i substr j) Hc1 Hjs) as (Hc2 & Hl2 & Hj2).
    split; [exact Hc2 |]. split; [lia |].
    intros j' [<- | Hin] Hcj; [specialize (Hj1 Hcj); lia |].
    apply Hj2; assumption.
Qed.

Lemma outer_loop (starts : list nat) : ∀ substr,
  common_to data substr →
  let r := fold_left
             (λ substr i,
                fold_left (common_sub_turn d0 data i) (seq 0 (length d0 - i + 1)) substr)
             starts substr in
  common_to data r
  ∧ (length substr ≤ length r)%nat
  ∧ ∀ i j, In i starts → (i + j ≤ length d0)%nat
           → common_to data (Str.slice d0 i (i + j)) → (j ≤ length r)%nat.
Proof.
  induction starts as [| i starts IH]; intros substr Hc; cbn [fold_left].
  - split; [exact Hc |]. split; [lia |]. intros i j [].
  - assert (Hjs : Forall (λ j, (i + j ≤ length d0)%nat)
                    (seq 0 (length d0 - i + 1))
                  ∨ (length d0 < i)%nat).
    { destruct (le_lt_dec i (length d0)); [left | right; assumption].
      apply List.Forall_forall. intros j Hj. apply in_seq in Hj. lia. }
    destruct Hjs as [Hjs | Hbig].
    + destruct (inner_loop i _ substr Hc Hjs) as (Hc1 & Hl1 & Hj1).
      destruct (IH _ Hc1) as (Hc2 & Hl2 & Hj2).
      split; [exact Hc2 |]. split; [lia |].
      intros i' j [<- | Hin] Hij Hcj.
      * assert (Hj : In j (seq 0 (length d0 - i + 1)))
          by (apply in_seq; lia).
        specialize (Hj1 j Hj Hcj). lia.
      * apply (Hj2 i' j); assumption.
    + replace (length d0 - i + 1)%nat with 1%nat by lia.
      cbn [seq fold_left].
      assert (Ht : common_sub_turn d0 data i substr 0 = substr).
      { unfold common_sub_turn.
        replace (length substr <? 0)%nat with false; [reflexivity |].
        symmetry. apply Nat.ltb_ge. lia. }
      rewrite Ht. destruct (IH _ Hc) as (Hc2 & Hl2 & Hj2).
      split; [exact Hc2 |]. split; [lia |].
      intros i' j [<- | Hin] Hij Hcj; [lia |].
      apply (Hj2 i' j); assumption.
Qed.

End CommonSub.

(** X15: [common_sub] returns the empty string for fewer than two
    strings, whatever they are. For two strings or more, what it
    returns is found in every one of them, and no string found in
    every one of them is longer. *)
Theorem common_sub_longest (data : list str) :
  ((length data ≤ 1)%nat → common_sub data = [])
  ∧ ((2 ≤ length data)%nat →
     (∀ x, In x data → Str.contains (common_sub data) x = true)
     ∧ (∀ s, (∀ x, In x data → Str.contains s x = true)
             → (length s ≤ length (common_sub data))%nat)).
Proof.
  split.
  - destruct data as [| d0 [| d1 rest]]; cbn [length]; [reflexivity.. |]. lia.
  - intros Hlen. destruct data as [| d0 [| d1 rest]]; cbn [length] in Hlen;
      [lia.. |].
    unfold common_sub. set (data := d0 :: d1 :: rest).
    assert (Hnil : forallb (Str.contains []) data = true).
    { apply forallb_forall. intros x _. apply contains_nil. }
    destruct (0 <? length d0)%nat eqn:E0.
    + destruct (outer_loop d0 data (seq 0 (length d0)) [] Hnil)
        as (Hc & _ & Hmax).
      split.
      * intros x Hx. exact (proj1 (forallb_forall _ _) Hc x Hx).
      * intros s Hs.
        destruct (proj1 (contains_spec s d0) (Hs d0 (or_introl eq_refl)))
          as (p & q & Hd0).
        destruct s as [| c s]; [cbn; lia |].
        apply (Hmax (length p) (length (c :: s))).
        -- apply in_seq. rewrite Hd0, !length_app. cbn [length]. lia.
        -- rewrite Hd0, !length_app. lia.
        -- rewrite Hd0, slice_middle. apply forallb_forall. exact Hs.
    + apply Nat.ltb_ge in E0. split.
      * intros x _. apply contains_nil.
      * intros s Hs.
        destruct (proj1 (contains_spec s d0) (Hs d0 (or_introl eq_refl)))
          as (p & q & Hd0).
        apply (f_equal (@length _)) in Hd0. rewrite !length_app in Hd0. lia.
Qed.

Lemma common_sub_longest_witness :
  let data := [list_ascii_of_string "H3K27me3_rep1";
               list_ascii_of_string "H3K4me3_rep1"] in
  common_sub data = list_ascii_of_string "me3_rep1"
  ∧ (∀ x, In x data → Str.contains (common_sub data) x = true)
  ∧ (length (list_ascii_of_string "H3K") ≤ length (common_sub data))%nat.
Proof.
  intros data. split; [vm_compute; reflexivity |].
  destruct (proj2 (common_sub_longest data) ltac:(cbn; lia)) as [Hin Hmax].
  split; [exact Hin |].
  apply Hmax. intros x [<- | [<- | []]]; vm_compute; reflexivity.
Defined.

(** ** Replacing in a name *)

Lemma replace_from_done old new (s : str) :
  Str.replace_from old new (Some 0%nat) 0 s = s.
Proof.
  induction s as [| c s IH]; [reflexivity |].
  cbn [Str.replace_from Str.more andb]. rewrite IH. reflexivity.
Qed.

Lemma replace_from_absent old new count (s : str) :
  Str.contains old s = false →
  Str.replace_from old new count 0 s = s.
Proof.
  induction s as [| c s IH]; [reflexivity |].
  cbn [Str.contains]. intros H. apply orb_false_iff in H as [Hp Hs].
  cbn [Str.replace_from]. rewrite Hp, andb_false_r, (IH Hs). reflexivity.
Qed.

(** The first occurrence of a pattern of two different characters. *)
Lemma replace_first_pair (x y : ascii) new (u t : str) :
  x ≠ y →
  Str.contains [x; y] u = false →
  Str.replace_from [x; y] new (Some 1%nat) 0 (u ++ [x; y] ++ t)
  = u ++ new ++ t.
Proof.
  intros Hxy. induction u as [| c u IH]; intros Hu.
  - cbn [app Str.replace_from Str.more Str.less Str.is_prefix andb length pred].
    rewrite !Ascii.eqb_refl. cbn [andb]. rewrite replace_from_done.
    reflexivity.
  - cbn [Str.contains] in Hu. apply orb_false_iff in Hu as [Hp Hs].
    change ((c :: u) ++ [x; y] ++ t) with (c :: (u ++ [x; y] ++ t)).
    cbn [Str.replace_from Str.more andb].
    assert (Hpre : Str.is_prefix [x; y] (c :: (u ++ [x; y] ++ t)) = false).
    { destruct u as [| d u].
      - cbn [app Str.is_prefix]. rewrite (proj2 (Ascii.eqb_neq y x)) by congruence.
        cbn [andb]. apply andb_false_r.
      - cbn [app Str.is_prefix] in *. rewrite andb_true_r in Hp |- *.
        exact Hp. }
    rewrite Hpre, (IH Hs). reflexivity.
Qed.

Lemma contains_rev_false (sub s : str) :
  Str.contains sub s = false → Str.contains (rev sub) (rev s) = false.
Proof.
  intros H. destruct (Str.contains (rev sub) (rev s)) eqn:E; [| reflexivity].
  apply contains_spec in E as (p & q & Hpq).
  apply (f_equal (@rev _)) in Hpq.
  rewrite rev_involutive, !rev_app_distr, rev_involutive in Hpq.
  rewrite <- H. symmetry. apply contains_spec.
  exists (rev q), (rev p). rewrite Hpq, app_assoc. reflexivity.
Qed.

Lemma replace_first_pair_in (x y : ascii) new (s u t : str) :
  x ≠ y →
  s = u ++ [x; y] ++ t →
  Str.contains [x; y] u = false →
  Str.replace_from [x; y] new (Some 1%nat) 0 s = u ++ new ++ t.
Proof. intros Hxy -> Hu. apply replace_first_pair; assumption. Qed.

(** The two replacements of [glname] on a reversed name that starts
    with one tag and has the other one further on. *)
Lemma glname_a (u t : str) :
  Str.contains ["b"; ":"]%char u = false →
  glname (rev t ++ [":"; "b"]%char ++ rev u ++ [":"; "a"]%char)
  = rev t ++ [":"; "l"]%char ++ rev u ++ [":"; "g"]%char.
Proof.
  intros Hu. unfold glname, Str.replace.
  rewrite (replace_first_pair_in "a" ":" _ _ [] (u ++ ["b"; ":"]%char ++ t));
    [| discriminate | | reflexivity].
  2:{ rewrite !rev_app_distr, !rev_involutive. cbn [rev app].
      rewrite <- app_assoc. reflexivity. }
  rewrite (replace_first_pair_in "b" ":" _ _ ("g" :: ":" :: u)%char t);
    [| discriminate | reflexivity | exact Hu].
  rewrite !rev_app_distr. cbn [rev app]. rewrite <- !app_assoc. reflexivity.
Qed.

Lemma glname_b (u t : str) :
  Str.contains ["a"; ":"]%char u = false →
  glname (rev t ++ [":"; "a"]%char ++ rev u ++ [":"; "b"]%char)
  = rev t ++ [":"; "g"]%char ++ rev u ++ [":"; "l"]%char.
Proof.
  intros Hu. unfold glname, Str.replace.
  rewrite (replace_first_pair_in "a" ":" _ _ ("b" :: ":" :: u)%char t);
    [| discriminate | | exact Hu].
  2:{ rewrite !rev_app_distr, !rev_involutive. cbn [rev app].
      rewrite <- app_assoc. reflexivity. }
  rewrite (replace_first_pair_in "b" ":" _ _ []
             (u ++ ["g"; ":"]%char ++ t));
    [| discriminate | reflexivity | reflexivity].
  cbn [rev app]. rewrite ?rev_app_distr. cbn [rev app].
  rewrite <- ?app_assoc. reflexivity.
Qed.

Lemma glname_gain (stem : str) :
  Str.contains [":"; "b"]%char stem = false →
  glname (stem ++ [":"; "a"]%char) = stem ++ [":"; "g"]%char.
Proof.
  intros H. apply contains_rev_false in H.
  unfold glname, Str.replace.
  rewrite (replace_first_pair_in "a" ":" _ _ [] (rev stem));
    [| discriminate | | reflexivity].
  2:{ rewrite rev_app_distr. reflexivity. }
  rewrite replace_from_absent by (cbn in *; exact H).
  cbn [rev app]. rewrite rev_involutive, <- app_assoc. reflexivity.
Qed.

Lemma glname_loss (stem : str) :
  Str.contains [":"; "a"]%char stem = false →
  glname (stem ++ [":"; "b"]%char) = stem ++ [":"; "l"]%char.
Proof.
  intros H. apply contains_rev_false in H.
  unfold glname, Str.replace. rewrite rev_app_distr.
  rewrite (replace_from_absent ["a"; ":"]%char) by (cbn in *; exact H).
  rewrite (replace_first_pair_in "b" ":" _ _ [] (rev stem));
    [| discriminate | reflexivity | reflexivity].
  cbn [rev app]. rewrite rev_involutive, <- app_assoc. reflexivity.
Qed.

(** X16: [glname] turns the suffix [":a"] of a name into [":g"] and
    the suffix [":b"] into [":l"], and leaves the rest of the name
    alone only when the other tag is not in it: of a name that ends in
    [":a"] the last [":b"] becomes [":l"] as well, and of a name that
    ends in [":b"] the last [":a"] becomes [":g"]. *)
Theorem glname_suffix :
  (∀ stem, Str.contains [":"; "b"]%char stem = false →
           glname (stem ++ [":"; "a"]%char) = stem ++ [":"; "g"]%char)
  ∧ (∀ stem, Str.contains [":"; "a"]%char stem = false →
             glname (stem ++ [":"; "b"]%char) = stem ++ [":"; "l"]%char)
  ∧ (∀ p q, Str.contains [":"; "b"]%char q = false →
            glname (p ++ [":"; "b"]%char ++ q ++ [":"; "a"]%char)
            = p ++ [":"; "l"]%char ++ q ++ [":"; "g"]%char)
  ∧ (∀ p q, Str.contains [":"; "a"]%char q = false →
            glname (p ++ [":"; "a"]%char ++ q ++ [":"; "b"]%char)
            = p ++ [":"; "g"]%char ++ q ++ [":"; "l"]%char).
Proof.
  split; [exact glname_gain |]. split; [exact glname_loss |]. split.
  - intros p q H. apply contains_rev_false in H.
    rewrite <- (rev_involutive p), <- (rev_involutive q).
    apply glname_a. exact H.
  - intros p q H. apply contains_rev_false in H.
    rewrite <- (rev_involutive p), <- (rev_involutive q).
    apply glname_b. exact H.
Qed.

Lemma glname_suffix_witness :
  glname (list_ascii_of_string "H3K27me3:a") = list_ascii_of_string "H3K27me3:g"
  ∧ glname (list_ascii_of_string "H3K27me3:b")
    = list_ascii_of_string "H3K27me3:l"
  ∧ glname (list_ascii_of_string "K27:b1:a") = list_ascii_of_string "K27:l1:g"
  ∧ glname (list_ascii_of_string "K27:a1:b") = list_ascii_of_string "K27:g1:l".
Proof.
  destruct glname_suffix as (Ha & Hb & Hba & Hab).
  split; [exact (Ha (list_ascii_of_string "H3K27me3") eq_refl) |].
  split; [exact (Hb (list_ascii_of_string "H3K27me3") eq_refl) |].
  split.
  - exact (Hba (list_ascii_of_string "K27") (list_ascii_of_string "1") eq_refl).
  - exact (Hab (list_ascii_of_string "K27") (list_ascii_of_string "1") eq_refl).
Defined.

(** ** The header line of an array file *)

Lemma readline_line (l rest : str) :
  forallb (λ c, negb (Ascii.eqb c "010"%char)) l = true →
  Str.readline (l ++ "010"%char :: rest) = (l ++ ["010"%char], rest).
Proof.
  induction l as [| c l IH]; intros H; [reflexivity |].
  cbn [forallb] in H. apply andb_true_iff in H as [Hc Hl].
  cbn [app Str.readline]. apply negb_true_iff in Hc. rewrite Hc, (IH Hl).
  reflexivity.
Qed.

Lemma lstrip_trimmed (l : str) : trimmed_left l = true → Str.lstrip l = l.
Proof.
  destruct l as [| c l]; [discriminate |]. cbn [trimmed_left Str.lstrip].
  intros H. apply negb_true_iff in H. rewrite H. reflexivity.
Qed.

Lemma lstrip_app_trimmed (l s : str) :
  trimmed_left l = true → Str.lstrip (l ++ s) = l ++ s.
Proof.
  intros H. apply lstrip_trimmed. destruct l; [discriminate | exact H].
Qed.

Lemma strip_line (l : str) :
  trimmed_left l = true → trimmed_left (rev l) = true →
  Str.strip (l ++ ["010"%char]) = l
  ∧ Str.strip (l ++ ["009"; "010"]%char) = l.
Proof.
  intros Hl Hr. unfold Str.strip, Str.rstrip.
  rewrite !lstrip_app_trimmed by exact Hl. rewrite !rev_app_distr.
  cbn [rev app Str.lstrip].
  change (Str.isspace "010"%char) with true.
  change (Str.isspace "009"%char) with true. cbv iota.
  rewrite (lstrip_trimmed _ Hr), rev_involutive. auto.
Qed.

Lemma split_app (sep : ascii) (n s : str) :
  forallb (λ c, negb (Ascii.eqb c sep)) n = true →
  Str.split sep None (n ++ sep :: s) = n :: Str.split sep None s.
Proof.
  induction n as [| c n IH]; intros H.
  - cbn [app Str.split Str.more Str.less andb]. rewrite Ascii.eqb_refl.
    reflexivity.
  - cbn [forallb] in H. apply andb_true_iff in H as [Hc Hn].
    apply negb_true_iff in Hc.
    cbn [app Str.split Str.more andb]. rewrite Hc, (IH Hn). reflexivity.
Qed.

Lemma split_plain (sep : ascii) (n : str) :
  forallb (λ c, negb (Ascii.eqb c sep)) n = true →
  Str.split sep None n = [n].
Proof.
  induction n as [| c n IH]; intros H; [reflexivity |].
  cbn [forallb] in H. apply andb_true_iff in H as [Hc Hn].
  apply negb_true_iff in Hc.
  cbn [Str.split Str.more andb]. rewrite Hc, (IH Hn). reflexivity.
Qed.

Lemma join_cons (sep : str) (n : str) (l : list str) :
  l ≠ [] → Str.join sep (n :: l) = n ++ sep ++ Str.join sep l.
Proof. destruct l; [contradiction | reflexivity]. Qed.

Lemma split_join (sep : ascii) (l : list str) :
  l ≠ [] →
  forallb (forallb (λ c, negb (Ascii.eqb c sep))) l = true →
  Str.split sep None (Str.join [sep] l) = l.
Proof.
  induction l as [| n l IH]; intros Hne H; [contradiction |].
  cbn [forallb] in H. apply andb_true_iff in H as [Hn Hl].
  destruct l as [| n2 l].
  - cbn [Str.join]. apply split_plain, Hn.
  - rewrite join_cons by discriminate.
    change (n ++ [sep] ++ Str.join [sep] (n2 :: l))
      with (n ++ sep :: Str.join [sep] (n2 :: l)).
    rewrite (split_app sep n _ Hn), (IH ltac:(discriminate) Hl). reflexivity.
Qed.

Lemma join_snoc (sep : str) (l : list str) (n : str) :
  l ≠ [] → Str.join sep (l ++ [n]) = Str.join sep l ++ sep ++ n.
Proof.
  induction l as [| m l IH]; intros Hne; [contradiction |].
  destruct l as [| m2 l]; [reflexivity |].
  change ((m :: m2 :: l) ++ [n]) with (m :: ((m2 :: l) ++ [n])).
  rewrite join_cons by (cbn; discriminate).
  rewrite (IH ltac:(discriminate)).
  rewrite (join_cons sep m (m2 :: l)) by discriminate.
  rewrite <- !app_assoc. reflexivity.
Qed.

Lemma plain_parts (n : str) :
  plain n = true →
  forallb (λ c, negb (Ascii.eqb c "009"%char)) n = true
  ∧ forallb (λ c, negb (Ascii.eqb c "010"%char)) n = true.
Proof.
  unfold plain. induction n as [| c n IH]; [auto |]. cbn [forallb].
  rewrite !andb_true_iff. intros [[H1 H2] Hn]. destruct (IH Hn). auto.
Qed.

Lemma join_no_newline (l : list str) :
  forallb plain l = true →
  forallb (λ c, negb (Ascii.eqb c "010"%char)) (Str.join ["009"%char] l) = true.
Proof.
  induction l as [| n l IH]; [reflexivity |]. cbn [forallb].
  rewrite andb_true_iff. intros [Hn Hl]. apply plain_parts in Hn as [_ Hn].
  destruct l as [| n2 l]; [exact Hn |].
  rewrite join_cons by discriminate. rewrite !forallb_app, Hn, (IH Hl).
  reflexivity.
Qed.

Lemma join_trimmed_left (sep : str) (l : list str) :
  from_option trimmed_left false (head l) = true →
  trimmed_left (Str.join sep l) = true.
Proof.
  destruct l as [| n l]; [discriminate |]. cbn [head from_option].
  destruct n as [| c n]; [discriminate |]. intros H.
  destruct l; exact H.
Qed.

Lemma join_trimmed_right (sep : str) (l : list str) :
  from_option (λ n, trimmed_left (rev n)) false (last l) = true →
  trimmed_left (rev (Str.join sep l)) = true.
Proof.
  induction l as [| n l IH]; [discriminate |].
  destruct l as [| n2 l]; [intros H; exact H |].
  intros H. rewrite join_cons by discriminate.
  rewrite !rev_app_distr.
  change (last (n :: n2 :: l)) with (last (n2 :: l)) in H.
  specialize (IH H).
  destruct (rev (Str.join sep (n2 :: l))) as [| c r]; [discriminate |].
  exact IH.
Qed.

(** X17: the names written as the first line of an array file by
    [names_line] are read back as they were by [read_names], whatever
    follows the line, when no name has a tab or a newline in it and
    the line neither starts nor ends with white space; with an empty
    name put after such names, the same names are read back, and the
    empty one is lost. *)
Theorem header_round_trip (names : list str) (rest : str) :
  header_safe names = true →
  read_names (names_line names ++ rest) = names
  ∧ read_names (names_line (names ++ [[]]) ++ rest) = names.
Proof.
  unfold header_safe. rewrite !andb_true_iff. intros [[Hp Hl] Hr].
  assert (Hne : names ≠ []) by (destruct names; [discriminate | discriminate]).
  pose proof (join_trimmed_left ["009"%char] names Hl) as Hjl.
  pose proof (join_trimmed_right ["009"%char] names Hr) as Hjr.
  destruct (strip_line _ Hjl Hjr) as [Hs1 Hs2].
  assert (Htab : forallb (forallb (λ c, negb (Ascii.eqb c "009"%char))) names
                 = true).
  { apply forallb_forall. intros n Hn.
    apply (plain_parts n). exact (proj1 (forallb_forall _ _) Hp n Hn). }
  unfold read_names, names_line. split.
  - rewrite <- app_assoc. cbn [app].
    rewrite readline_line by (apply join_no_newline, Hp).
    cbn [fst]. rewrite Hs1. apply split_join; assumption.
  - rewrite join_snoc by exact Hne. rewrite <- !app_assoc. cbn [app].
    change (Str.join ["009"%char] names ++ "009"%char :: "010"%char :: rest)
      with (Str.join ["009"%char] names
            ++ ["009"%char] ++ "010"%char :: rest).
    rewrite app_assoc, readline_line.
    + cbn [fst]. rewrite <- app_assoc. cbn [app]. rewrite Hs2.
      apply split_join; assumption.
    + rewrite forallb_app, (join_no_newline _ Hp). reflexivity.
Qed.

Lemma header_round_trip_witness :
  let names := [list_ascii_of_string "H3K27me3:a";
                list_ascii_of_string "H3K27me3:b"] in
  let rest := list_ascii_of_string "1.5" ++ ["009"%char]
              ++ list_ascii_of_string "2.5" ++ ["010"%char] in
  header_safe names = true
  ∧ read_names (names_line names ++ rest) = names
  ∧ read_names (names_line (names ++ [[]]) ++ rest) = names.
Proof.
  intros names rest. split; [reflexivity |].
  exact (header_round_trip names rest eq_refl).
Defined.

(** ** The parameters of the factorization *)

Lemma bare_parts (s : str) :
  bare s = true →
  forallb (λ c, negb (Ascii.eqb c ","%char)) s = true
  ∧ forallb (λ c, negb (Ascii.eqb c ":"%char)) s = true.
Proof.
  unfold bare. induction s as [| c s IH]; [auto |]. cbn [forallb].
  rewrite !andb_true_iff. intros [[H1 H2] Hs]. destruct (IH Hs). auto.
Qed.

Lemma split_length (sep : ascii) (s : str) :
  length (Str.split sep None s) = S (count_occ ascii_dec s sep).
Proof.
  induction s as [| c s IH]; [reflexivity |].
  cbn [Str.split Str.more Str.less andb count_occ].
  destruct (ascii_dec c sep) as [-> | Hne].
  - rewrite Ascii.eqb_refl. cbn [length]. rewrite IH. reflexivity.
  - rewrite (proj2 (Ascii.eqb_neq c sep) Hne).
    destruct (Str.split sep None s) as [| piece pieces]; [discriminate |].
    exact IH.
Qed.

Section ParamsProperties.

Variable py_int : str → option Z.
Variable py_float : str → option float.

Lemma parse_param_pair kwargs (k v : str) :
  bare k = true → bare v = true →
  parse_param py_int py_float kwargs (k ++ [":"%char] ++ v)
  = Ok (<[ k := guess py_int py_float v ]> kwargs).
Proof.
  intros Hk Hv. apply bare_parts in Hk as [_ Hk]. apply bare_parts in Hv as [_ Hv].
  unfold parse_param. cbn [app].
  rewrite (split_app ":"%char k v Hk), (split_plain ":"%char v Hv). reflexivity.
Qed.

Lemma parse_param_cases kwargs (param : str) :
  match parse_param py_int py_float kwargs param with
  | Ok _ => colons param = 1%nat
  | Raise e => (∃ msg, e = ValueError msg) ∧ colons param ≠ 1%nat
  end.
Proof.
  unfold parse_param, colons.
  pose proof (split_length ":"%char param) as Hlen.
  destruct (Str.split ":"%char None param) as [| k [| v [| x rest]]];
    cbn [length] in Hlen.
  - discriminate.
  - split; [eauto | lia].
  - lia.
  - split; [eauto | lia].
Qed.

Lemma parse_params_loop_pairs (pairs : list (str * str)) :
  ∀ kwargs : gmap str pyvalue,
  forallb (λ kv : str * str, bare kv.1 && bare kv.2) pairs = true →
  parse_params_loop py_int py_float
    (map (λ kv : str * str, kv.1 ++ [":"%char] ++ kv.2) pairs) kwargs
  = Ok (fold_left (λ m (kv : str * str),
                     <[ kv.1 := guess py_int py_float kv.2 ]> m)
          pairs kwargs).
Proof.
  induction pairs as [| [k v] pairs IH]; intros kwargs H; [reflexivity |].
  cbn [forallb fst snd] in H. rewrite !andb_true_iff in H.
  destruct H as [[Hk Hv] Hrest].
  cbn [map parse_params_loop fold_left fst snd].
  rewrite (parse_param_pair kwargs k v Hk Hv). cbn [bind].
  apply IH, Hrest.
Qed.

Lemma fold_insert_other (pairs : list (str * str)) (k : str) :
  ∀ kwargs : gmap str pyvalue,
  k ∉ pairs.*1 →
  fold_left (λ m (kv : str * str), <[ kv.1 := guess py_int py_float kv.2 ]> m)
    pairs kwargs !! k
  = kwargs !! k.
Proof.
  induction pairs as [| [k' v'] pairs IH]; intros kwargs Hk; [reflexivity |].
  cbn [fmap list_fmap fst] in Hk. apply not_elem_of_cons in Hk as [Hne Hk].
  cbn [fold_left fst snd]. rewrite (IH _ Hk).
  apply lookup_insert_ne. congruence.
Qed.

(** X18: on a string of parameters written as keys and values, each
    free of commas and colons, [parse_params] returns the dictionary
    it was given with every key set in turn to the guessed value: a key
    that is not in the string keeps the value it had, and a key set
    several times has the value set last. *)
Theorem parse_params_formatted (pairs : list (str * str))
    (kwargs : gmap str pyvalue) :
  forallb (λ kv : str * str, bare kv.1 && bare kv.2) pairs = true →
  ∃ kwargs',
    parse_params py_int py_float (Some (format_params pairs)) kwargs
    = Ok kwargs'
    ∧ kwargs' = fold_left (λ m (kv : str * str),
                             <[ kv.1 := guess py_int py_float kv.2 ]> m)
                  pairs kwargs
    ∧ (∀ k, k ∉ pairs.*1 → kwargs' !! k = kwargs !! k)
    ∧ (∀ before k v after,
         pairs = before ++ (k, v) :: after → k ∉ after.*1 →
         kwargs' !! k = Some (guess py_int py_float v)).
Proof.
  intros H. eexists. split; [| split; [reflexivity |]].
  - destruct pairs as [| [k v] pairs]; [reflexivity |].
    unfold parse_params, format_params.
    match goal with
    | |- context [Str.join _ ?l] => set (items := l)
    end.
    assert (Hitems : forallb (forallb (λ c, negb (Ascii.eqb c ","%char))) items
                     = true).
    { apply forallb_forall. intros item Hitem. subst items.
      apply in_map_iff in Hitem as ([k' v'] & <- & Hin).
      pose proof (proj1 (forallb_forall _ _) H _ Hin) as Hkv.
      cbn [fst snd] in Hkv |- *. apply andb_true_iff in Hkv as [Hk' Hv'].
      apply bare_parts in Hk' as [Hk' _]. apply bare_parts in Hv' as [Hv' _].
      rewrite !forallb_app, Hk', Hv'. reflexivity. }
    destruct (Str.join [","%char] items) as [| c p] eqn:Ej.
    + exfalso. subst items. cbn [map fst snd] in Ej.
      destruct pairs as [| kv2 pairs]; cbn [map Str.join] in Ej.
      * destruct k; discriminate.
      * destruct k; discriminate.
    + cbv beta iota. rewrite <- Ej.
      rewrite split_join; [| subst items; discriminate | exact Hitems].
      apply parse_params_loop_pairs, H.
  - split.
    + intros k Hk. apply fold_insert_other, Hk.
    + intros before k v after -> Hk.
      rewrite fold_left_app. cbn [fold_left fst snd].
      rewrite (fold_insert_other after k _ Hk). apply lookup_insert_eq.
Qed.

(** X19: on a string of parameters that is not empty, [parse_params]
    returns only when each of the pieces between the commas has one
    colon, no more and no less; when one piece has not, it stops with
    a [ValueError]: so does a string with a comma at the end. *)
Theorem parse_params_malformed (p : str) (kwargs : gmap str pyvalue) :
  p ≠ [] →
  match parse_params py_int py_float (Some p) kwargs with
  | Ok _ => Forall (λ param, colons param = 1%nat) (Str.split ","%char None p)
  | Raise e =>
      (∃ msg, e = ValueError msg)
      ∧ Exists (λ param, colons param ≠ 1%nat) (Str.split ","%char None p)
  end.
Proof.
  intros Hp. unfold parse_params. destruct p as [| c p]; [contradiction |].
  generalize (Str.split ","%char None (c :: p)) as params. clear.
  intros params. revert kwargs.
  induction params as [| param params IH]; intros kwargs;
    cbn [parse_params_loop]; [constructor |].
  pose proof (parse_param_cases kwargs param) as Hc.
  destruct (parse_param py_int py_float kwargs param) as [kw | e]; cbn [bind].
  - specialize (IH kw).
    destruct (parse_params_loop py_int py_float params kw) as [kw' | e].
    + constructor; assumption.
    + destruct IH as [Hm Hex]. split; [exact Hm |].
      apply Exists_cons_tl, Hex.
  - destruct Hc as [Hm Hne]. split; [exact Hm |].
    apply Exists_cons_hd, Hne.
Qed.

End ParamsProperties.

Lemma parse_params_formatted_witness :
  let py_int (v : str) :=
    match v with ["1"; "0"; "0"]%char => Some 100%Z | _ => None end in
  let py_float (v : str) : option float := None in
  let key := list_ascii_of_string "max_iter" in
  let pairs := [(key, list_ascii_of_string "100");
                (list_ascii_of_string "init", list_ascii_of_string "nndsvd")] in
  ∃ kwargs',
    parse_params py_int py_float (Some (format_params pairs))
      {[ key := VInt 1000 ]} = Ok kwargs'
    ∧ kwargs' !! key = Some (VInt 100).
Proof.
  intros py_int py_float key pairs.
  destruct (parse_params_formatted py_int py_float pairs
              {[ key := VInt 1000 ]} eq_refl)
    as (kwargs' & Hrun & _ & _ & Hlast).
  exists kwargs'. split; [exact Hrun |].
  apply (Hlast [] key (list_ascii_of_string "100")
           [(list_ascii_of_string "init", list_ascii_of_string "nndsvd")]
           eq_refl).
  intros Hin. apply list_elem_of_singleton in Hin. discriminate Hin.
Defined.

Lemma parse_params_malformed_witness :
  let py_int (v : str) : option Z := None in
  let py_float (v : str) : option float := None in
  let p := list_ascii_of_string "init:nndsvd," in
  match parse_params py_int py_float (Some p) ∅ with
  | Ok _ => Forall (λ param, colons param = 1%nat) (Str.split ","%char None p)
  | Raise e =>
      (∃ msg, e = ValueError msg)
      ∧ Exists (λ param, colons param ≠ 1%nat) (Str.split ","%char None p)
  end.
Proof.
  intros py_int py_float p.
  apply (parse_params_malformed py_int py_float p ∅). discriminate.
Defined.

(** ** The names of the columns of a differential array *)

Lemma zip_with_maps {A B C D} (f : B → C → D) (g : A → B) (h : A → C)
    (l : list A) :
  zip_with f (map g l) (map h l) = map (λ x, f (g x) (h x)) l.
Proof.
  induction l as [| a l IH]; [reflexivity |]. cbn [map zip_with].
  rewrite IH. reflexivity.
Qed.

Lemma glname_pairs (xs : list str) :
  forallb untagged xs = true →
  map glname
    (concat (map (λ x, [x ++ [":"; "a"]%char; x ++ [":"; "b"]%char]) xs))
  = concat (map (λ x, [x ++ [":"; "g"]%char; x ++ [":"; "l"]%char]) xs).
Proof.
  induction xs as [| x xs IH]; [reflexivity |]. cbn [forallb].
  intros H. apply andb_true_iff in H as [Hx Hxs].
  unfold untagged in Hx. apply andb_true_iff in Hx as [Ha Hb].
  apply negb_true_iff in Ha, Hb.
  cbn [map concat app]. rewrite (IH Hxs), (glname_gain x Hb), (glname_loss x Ha).
  reflexivity.
Qed.

(** X20: when [pair_names] returns, the two lists of file names have
    the same length, and the names returned come in pairs, one pair
    for each couple of files: a name with the tag [":a"] and then the
    same name with the tag [":b"]. When no tag occurs in these names,
    [glname] turns the pairs into the same names with the tags [":g"]
    and [":l"]. *)
Theorem pair_names_tagged shorten (anames bnames : list str) names :
  pair_names shorten anames bnames = Some names →
  ∃ xs,
    length xs = length anames ∧ length xs = length bnames
    ∧ names
      = concat (map (λ x, [x ++ [":"; "a"]%char; x ++ [":"; "b"]%char]) xs)
    ∧ (forallb untagged xs = true →
       map glname names
       = concat (map (λ x, [x ++ [":"; "g"]%char; x ++ [":"; "l"]%char]) xs)).
Proof.
  unfold pair_names.
  set (first := λ a : str, hd [] (Str.split "_"%char (Some 1%nat) a)).
  destruct (bool_decide (map first anames = map first bnames)) eqn:E;
    [| discriminate].
  apply bool_decide_eq_true_1 in E. rewrite <- E.
  set (fx := common_sub (map first anames ++ map first anames)).
  set (xs := if shorten && (6 <? length fx)%nat
             then map (Str.replace fx [] None) (map first anames)
             else map first anames).
  intros H. injection H as <-. exists xs.
  assert (Hlen : length xs = length anames).
  { subst xs. destruct (shorten && _); rewrite ?length_map; reflexivity. }
  split; [exact Hlen |]. split.
  { transitivity (length anames); [exact Hlen |].
    rewrite <- (length_map first anames), E. apply length_map. }
  assert (Hnames : concat
                     (zip_with (λ a b : str, [a; b])
                        (map (λ a : str, a ++ [":"; "a"]%char) xs)
                        (map (λ b : str, b ++ [":"; "b"]%char) xs))
                   = concat (map (λ x, [x ++ [":"; "a"]%char;
                                        x ++ [":"; "b"]%char]) xs)).
  { rewrite zip_with_maps. reflexivity. }
  split; [exact Hnames |].
  intros Hxs. rewrite <- (glname_pairs xs Hxs). f_equal. exact Hnames.
Qed.

Lemma pair_names_tagged_witness :
  let anames := [list_ascii_of_string "H3K27me3_brain";
                 list_ascii_of_string "H3K4me3_brain"] in
  let bnames := [list_ascii_of_string "H3K27me3_liver";
                 list_ascii_of_string "H3K4me3_liver"] in
  let names := map list_ascii_of_string
                 ["H3K27me3:a"; "H3K27me3:b"; "H3K4me3:a"; "H3K4me3:b"] in
  pair_names false anames bnames = Some names
  ∧ ∃ xs,
      length xs = 2%nat
      ∧ (forallb untagged xs = true →
         map glname names
         = concat (map (λ x, [x ++ [":"; "g"]%char; x ++ [":"; "l"]%char]) xs)).
Proof.
  intros anames bnames names.
  assert (E : pair_names false anames bnames = Some names)
    by (vm_compute; reflexivity).
  split; [exact E |].
  destruct (pair_names_tagged false anames bnames names E)
    as (xs & Hlen & _ & _ & Hgl).
  exists xs. split; [exact Hlen | exact Hgl].
Defined.

(** ** Shortened names *)

Lemma common_sub_found (data : list str) (x : str) :
  In x data → Str.contains (common_sub data) x = true.
Proof.
  destruct data as [| d0 [| d1 rest]]; try (intros _; apply contains_nil).
  unfold common_sub. set (data := d0 :: d1 :: rest).
  destruct (0 <? length d0)%nat; [| intros _; apply contains_nil].
  assert (Hnil : forallb (Str.contains []) data = true).
  { apply forallb_forall. intros y _. apply contains_nil. }
  destruct (outer_loop d0 data (seq 0 (length d0)) [] Hnil) as (Hc & _ & _).
  intros Hx. exact (proj1 (forallb_forall _ _) Hc x Hx).
Qed.

Lemma is_prefix_length (sub s : str) :
  Str.is_prefix sub s = true → (length sub ≤ length s)%nat.
Proof.
  intros H. apply is_prefix_spec in H as [q ->]. rewrite length_app. lia.
Qed.

Lemma replace_from_length old (s : str) : ∀ k,
  (length (Str.replace_from old [] None k s) ≤ length s - k)%nat.
Proof.
  induction s as [| c s IH]; intros k; [cbn; lia |].
  cbn [Str.replace_from Str.more Str.less andb length].
  destruct k as [| k]; [| apply IH].
  destruct (Str.is_prefix old (c :: s)) eqn:Ep.
  - cbn [app]. specialize (IH (pred (length old))). lia.
  - cbn [length]. specialize (IH 0%nat). lia.
Qed.

Lemma replace_removes old (s : str) :
  old ≠ [] → Str.contains old s = true →
  (length (Str.replace old [] None s) + length old ≤ length s)%nat.
Proof.
  intros Hold. destruct old as [| o old]; [contradiction |].
  unfold Str.replace. set (pat := o :: old).
  induction s as [| c s IH]; [discriminate |].
  cbn [Str.contains]. intros H.
  cbn [Str.replace_from Str.more Str.less andb length].
  destruct (Str.is_prefix pat (c :: s)) eqn:Ep.
  - cbn [app]. apply is_prefix_length in Ep. cbn [length] in Ep.
    pose proof (replace_from_length pat s (pred (length pat))). lia.
  - cbn [orb] in H. specialize (IH H). cbn [length]. lia.
Qed.

(** X21: [shorten_absolute] returns as many names as it is given, and
    the names themselves when there are fewer than two of them,
    whatever [shorten] is. When it changes a name, it makes every name
    shorter by seven characters or more. *)
Theorem shorten_absolute_names (shorten : bool) (names : list str) :
  length (shorten_absolute shorten names) = length names
  ∧ ((length names ≤ 1)%nat → shorten_absolute shorten names = names)
  ∧ (shorten_absolute shorten names ≠ names →
     Forall2 (λ name short, (length short + 7 ≤ length name)%nat)
       names (shorten_absolute shorten names)).
Proof.
  unfold shorten_absolute. split; [| split].
  - destruct (shorten && _); [apply length_map | reflexivity].
  - intros Hlen.
    replace (common_sub names) with ([] : str);
      [rewrite andb_false_r; reflexivity |].
    destruct names as [| d0 [| d1 rest]]; cbn [length] in Hlen;
      [reflexivity.. | lia].
  - destruct (shorten && (6 <? length (common_sub names))%nat) eqn:E;
      [| contradiction].
    intros _. apply andb_true_iff in E as [_ E]. apply Nat.ltb_lt in E.
    apply Forall2_fmap_r, Forall_Forall2_diag, List.Forall_forall.
    intros x Hx.
    assert (Hfx : common_sub names ≠ [])
      by (intros Hnil; rewrite Hnil in E; cbn in E; lia).
    pose proof (replace_removes (common_sub names) x Hfx
                  (common_sub_found names x Hx)) as Hrm.
    unfold compose. lia.
Qed.

Lemma shorten_absolute_names_witness :
  let names := [list_ascii_of_string "sample17_H3K27me3";
                list_ascii_of_string "sample17_H3K4me3"] in
  shorten_absolute true names
  = [list_ascii_of_string "27me3"; list_ascii_of_string "4me3"]
  ∧ Forall2 (λ name short, (length short + 7 ≤ length name)%nat)
      names (shorten_absolute true names)
  ∧ shorten_absolute true (take 1 names) = take 1 names.
Proof.
  intros names.
  destruct (shorten_absolute_names true names) as (_ & _ & Hshort).
  destruct (shorten_absolute_names true (take 1 names)) as (_ & Hone & _).
  split; [vm_compute; reflexivity |]. split.
  - apply Hshort. vm_compute. discriminate.
  - apply Hone. cbn. lia.
Defined.

(** ** The name of the output of a scaling task *)

Lemma is_prefix_before (x : ascii) (pat u w : str) :
  x ∉ pat →
  Str.is_prefix pat (u ++ x :: w) = true → Str.is_prefix pat u = true.
Proof.
  revert u. induction pat as [| r pat IH]; intros u Hx H; [reflexivity |].
  apply not_elem_of_cons in Hx as [Hxr Hx].
  destruct u as [| d u]; cbn [app Str.is_prefix] in *.
  - apply andb_true_iff in H as [Hr _]. apply Ascii.eqb_eq in Hr. congruence.
  - apply andb_true_iff in H as [Hr H]. rewrite Hr. exact (IH u Hx H).
Qed.

Lemma replace_from_skip old new count (r t : str) :
  Str.replace_from old new count (length r) (r ++ t)
  = Str.replace_from old new count 0 t.
Proof. induction r as [| c r IH]; [reflexivity | exact IH]. Qed.

Lemma is_prefix_app (pat t : str) : Str.is_prefix pat (pat ++ t) = true.
Proof. apply is_prefix_spec. exists t. reflexivity. Qed.

(** The first occurrence of a pattern whose first character is not
    found again in it. *)
Lemma replace_first_occurrence (x : ascii) (pat new u t : str) :
  x ∉ pat →
  Str.contains (x :: pat) u = false →
  Str.replace_from (x :: pat) new None 0 (u ++ (x :: pat) ++ t)
  = u ++ new ++ Str.replace_from (x :: pat) new None 0 t.
Proof.
  intros Hx. induction u as [| c u IH]; intros Hu.
  - change ([] ++ (x :: pat) ++ t) with (x :: (pat ++ t)).
    cbn [Str.replace_from Str.more Str.less andb length pred app].
    change (x :: pat ++ t) with ((x :: pat) ++ t).
    rewrite is_prefix_app, replace_from_skip. reflexivity.
  - cbn [Str.contains] in Hu. apply orb_false_iff in Hu as [Hp Hs].
    change ((c :: u) ++ (x :: pat) ++ t) with (c :: (u ++ x :: (pat ++ t))).
    cbn [Str.replace_from Str.more andb].
    assert (Hpre : Str.is_prefix (x :: pat) (c :: (u ++ x :: (pat ++ t)))
                   = false).
    { destruct (Str.is_prefix (x :: pat) (c :: (u ++ x :: (pat ++ t))))
        eqn:E; [| reflexivity].
      cbn [Str.is_prefix] in E, Hp. apply andb_true_iff in E as [Ec E].
      rewrite Ec, (is_prefix_before x pat u _ Hx E) in Hp. discriminate. }
    rewrite Hpre. change (u ++ x :: pat ++ t) with (u ++ (x :: pat) ++ t).
    rewrite (IH Hs). reflexivity.
Qed.

(** X22: the name of the output of a scaling task is the name of its
    input when [".arr"] is not found in that name; otherwise the
    first [".arr"] of the name is replaced, and the others after it in
    the same way: a name that ends in its only [".arr"] gets the new
    ending. *)
Theorem output_name_cases (new : str) :
  (∀ arr, Str.contains ["."; "a"; "r"; "r"]%char arr = false →
          output_name new arr = arr)
  ∧ (∀ u t, Str.contains ["."; "a"; "r"; "r"]%char u = false →
            output_name new (u ++ ["."; "a"; "r"; "r"]%char ++ t)
            = u ++ new ++ output_name new t)
  ∧ (∀ stem, Str.contains ["."; "a"; "r"; "r"]%char stem = false →
             output_name new (stem ++ ["."; "a"; "r"; "r"]%char)
             = stem ++ new).
Proof.
  assert (Hx : "."%char ∉ ["a"; "r"; "r"]%char).
  { intros H. repeat (apply elem_of_cons in H as [H | H]; [discriminate H |]).
    inversion H. }
  unfold output_name, Str.replace. split; [| split].
  - intros arr H. apply replace_from_absent, H.
  - intros u t H. apply replace_first_occurrence; assumption.
  - intros stem H.
    rewrite <- (app_nil_r (stem ++ ["."; "a"; "r"; "r"]%char)), <- app_assoc.
    rewrite replace_first_occurrence by assumption.
    cbn [Str.replace_from]. rewrite app_nil_r. reflexivity.
Qed.

Lemma output_name_cases_witness :
  scaled_name (list_ascii_of_string "deseq") (list_ascii_of_string "run1_cnt.arr")
  = list_ascii_of_string "run1_cnt_deseq.arr"
  ∧ scaled_name (list_ascii_of_string "deseq") (list_ascii_of_string "counts.txt")
    = list_ascii_of_string "counts.txt"
  ∧ output_name (list_ascii_of_string "_lvl.arr")
      (list_ascii_of_string "out.arrays/run1.arr")
    = list_ascii_of_string "out_lvl.arrays/run1_lvl.arr".
Proof.
  split; [| split].
  - exact (proj2 (proj2 (output_name_cases
                           (list_ascii_of_string "_deseq.arr")))
             (list_ascii_of_string "run1_cnt") eq_refl).
  - exact (proj1 (output_name_cases (list_ascii_of_string "_deseq.arr"))
             (list_ascii_of_string "counts.txt") eq_refl).
  - etransitivity.
    + exact (proj1 (proj2 (output_name_cases (list_ascii_of_string "_lvl.arr")))
               (list_ascii_of_string "out")
               (list_ascii_of_string "ays/run1.arr") eq_refl).
    + reflexivity.
Defined.

(** ** The matcher and the names it reads as patterns *)

Lemma translate_literal (s : str) : ∀ fuel,
  (length s ≤ fuel)%nat →
  forallb (λ c, negb (Ascii.eqb c "*"%char) && negb (Ascii.eqb c "?"%char)
                && negb (Ascii.eqb c "["%char)) s = true →
  Fnmatch.translate fuel s = map Fnmatch.Lit s.
Proof.
  induction s as [| c s IH]; intros fuel Hfuel Hlit.
  - destruct fuel; reflexivity.
  - destruct fuel as [| fuel]; [cbn in Hfuel; lia |].
    cbn [forallb] in Hlit. rewrite !andb_true_iff in Hlit.
    destruct Hlit as [[[H1 H2] H3] Hs].
    apply negb_true_iff in H1, H2, H3.
    cbn [Fnmatch.translate map]. rewrite H1, H2, H3.
    rewrite (IH fuel) by (cbn in Hfuel; lia || exact Hs). reflexivity.
Qed.

Lemma matches_literal (s : str) :
  Fnmatch.matches (map Fnmatch.Lit s) s = true.
Proof.
  induction s as [| c s IH]; [reflexivity |].
  cbn [map Fnmatch.matches]. rewrite Ascii.eqb_refl. exact IH.
Qed.

Lemma pieces_literal_ok (s : str) :
  forallb Fnmatch.piece_ok (map Fnmatch.Lit s) = true.
Proof. induction s as [| c s IH]; [reflexivity | exact IH]. Qed.

(** A name without [*], [?] and [[] matches itself. *)
Lemma fnmatch_literal (name : string) :
  literal name = true → listdir_matcher name name = true.
Proof.
  intros H. unfold listdir_matcher, Fnmatch.fnmatch.
  rewrite translate_literal by (reflexivity || exact H).
  rewrite pieces_literal_ok, matches_literal. reflexivity.
Qed.

Lemma list_ascii_of_string_app (s t : string) :
  list_ascii_of_string (s +:+ t)
  = list_ascii_of_string s ++ list_ascii_of_string t.
Proof.
  induction s as [| c s IH]; [reflexivity |].
  cbn [list_ascii_of_string app]. change (String c s +:+ t) with (String c (s +:+ t)).
  cbn [list_ascii_of_string]. rewrite IH. reflexivity.
Qed.

Lemma literal_app (s t : string) :
  literal s = true → literal t = true → literal (s +:+ t) = true.
Proof.
  unfold literal. intros Hs Ht.
  rewrite list_ascii_of_string_app, forallb_app, Hs, Ht. reflexivity.
Qed.

(** C8, at a run identifier that [path.listdir] reads as a pattern:
    the output file of the run ["run[1]"] is in the target directory,
    but the pattern ["run[1]_lvl.arr"] stands for the name
    ["run1_lvl.arr"] and not for its own. The check finds nothing,
    [extract_absolute] goes on to read the alignment file, and the
    existing output is written over. *)
Theorem extraction_overwrites_existing_output :
  ∀ (hash_absolute : path → list path → string)
    (absolute_names : bool → list path → list string),
  let bed := ("in", "regions.bed") in
  let bam := ("in", "a.bam") in
  let out := ("out", "run[1]_lvl.arr") in
  let reg := {| chrom := "chr1"; chromStart := 0; chromEnd := 100;
                bed_rest := [] |} in
  let w0 := {| files := <[ out := ArrFile ["old"] [] ]>
                          (<[ bed := BedFile [reg] ]>
                             {[ bam := BamFile {| count := λ _ _ _, 5%nat |} ]});
               dirs := {[ "out" ]}; trace := [] |} in
  let run := extract_absolute listdir_matcher hash_absolute absolute_names
               (Some bed) (Some [bam]) "out" (Some "run[1]") false w0 in
  Fnmatch.fnmatch "run[1]_lvl.arr" "run[1]_lvl.arr" = Some false
  ∧ Fnmatch.fnmatch "run1_lvl.arr" "run[1]_lvl.arr" = Some true
  ∧ files w0 !! out = Some (ArrFile ["old"] [])
  ∧ run.1 = Ok out
  ∧ files run.2 !! out
    = Some (ArrFile (absolute_names false [bam]) [[Fin (INR 5 / IZR (100 - 0))]])
  ∧ trace run.2 = [EvMkdir "out"; EvOpenBam bam; EvWrite out].
Proof.
  intros hash_absolute absolute_names bed bam out reg w0 run.
  repeat split; vm_compute; reflexivity.
Qed.



(** ** The location of the double sigmoid *)



(** ** Whitening a single sample *)

(** X27: a column of a single finite value has no standard deviation
    with [ddof = 1] (zero over zero), and whitening turns it into
    NaN. *)
Theorem scarr_whiten_single_sample x :
  np_std 1 [Fin x] = NaN ∧ scarr_whiten_row [Fin x] = [NaN].
Proof.
  split; [apply np_std_single |].
  apply (scarr_whiten_row_undefined [Fin x]). right. apply np_std_single.
Qed.

(** ** The gain/loss walk on the arrays read from a file *)

Lemma loadtxt_matrix (rows : list (list float)) n :
  (2 ≤ length rows)%nat → (2 ≤ n)%nat →
  Forall (λ row, length row = n) rows →
  loadtxt rows = Ok (Arr2 rows).
Proof.
  intros Hrows Hn Hrect. unfold loadtxt.
  assert (Hw : width rows = n).
  { destruct rows as [| r rows']; [cbn in Hrows; lia |].
    apply Forall_cons in Hrect as [Hr _]. exact Hr. }
  assert (Hall : forallb (λ row, (length row =? width rows)%nat) rows = true).
  { apply forallb_forall. intros row Hin. rewrite Hw.
    rewrite List.Forall_forall in Hrect. rewrite (Hrect row Hin).
    apply Nat.eqb_refl. }
  rewrite Hall, Hw.
  destruct rows as [| r1 [| r2 rows']]; [cbn in Hrows; lia .. |].
  destruct (Nat.eqb_spec n 1) as [-> | _]; [lia |].
  destruct r1 as [| x [| y r1']]; reflexivity.
Qed.

Lemma loadtxt_vector (rows : list (list float)) n :
  (length rows < 2)%nat → (2 ≤ n)%nat →
  Forall (λ row, length row = n) rows →
  ∃ v, loadtxt rows = Ok (Arr1 v).
Proof.
  intros Hrows Hn Hrect.
  destruct rows as [| r1 [| r2 rows']]; [| | cbn in Hrows; lia].
  - exists []. reflexivity.
  - apply Forall_cons in Hrect as [Hr _]. exists r1. unfold loadtxt.
    cbn [forallb width]. rewrite Nat.eqb_refl. cbn [andb].
    destruct r1 as [| x [| y r1']]; [cbn in Hr; lia .. | reflexivity].
Qed.

(** X25: on the array that [np.loadtxt] reads from rows of one even
    number of columns, two at least, the walk of [scale_differential]
    either returns or stops with [IndexError], and it returns exactly
    when there are two rows at least and the deltas of the last row hold
    a NaN. *)
Theorem scale_differential_loaded (rows : list (list float)) m :
  (0 < m)%nat →
  Forall (λ row, length row = (2 * m)%nat) rows →
  ∃ scaled,
    loadtxt rows = Ok scaled
    ∧ (is_ok (scale_differential_array scaled)
       ∨ scale_differential_array scaled = Raise IndexError)
    ∧ (is_ok (scale_differential_array scaled)
       ↔ (2 ≤ length rows)%nat
         ∧ ∃ row, last rows = Some row ∧ existsb isnan (deltas row) = true).
Proof.
  intros Hm Hrect.
  destruct (le_lt_dec 2 (length rows)) as [Hrows | Hrows].
  - exists (Arr2 rows).
    split; [apply (loadtxt_matrix rows (2 * m)); [exact Hrows | lia | exact Hrect] |].
    cbn [scale_differential_array].
    destruct (scale_differential_ends_iff rows m Hrect) as [Hcases Hiff].
    split; [exact Hcases |]. rewrite Hiff. split.
    + intros [-> | Hlast]; [cbn in Hrows; lia | split; [exact Hrows | exact Hlast]].
    + intros [_ Hlast]. right. exact Hlast.
  - destruct (loadtxt_vector rows (2 * m)) as (v & Hv);
      [exact Hrows | lia | exact Hrect |].
    exists (Arr1 v). split; [exact Hv |]. cbn [scale_differential_array].
    split; [right; reflexivity |]. split.
    + intros [gl Hgl]. discriminate.
    + intros [Hge _]. lia.
Qed.

Lemma scale_differential_loaded_witness :
  ∃ scaled,
    loadtxt [[Fin 0; Fin 5]; [NaN; NaN]] = Ok scaled
    ∧ is_ok (scale_differential_array scaled).
Proof.
  destruct (scale_differential_loaded [[Fin 0; Fin 5]; [NaN; NaN]] 1)
    as (scaled & Hload & _ & Hiff); [lia | repeat constructor |].
  exists scaled. split; [exact Hload |]. apply Hiff.
  split; [cbn [length]; lia |]. exists [NaN; NaN]. split; reflexivity.
Defined.

Lemma savetxt_d_shape counts n :
  Forall (λ row : list Z, length row = n) counts →
  Forall (λ row, length row = n) (savetxt_d counts).
Proof.
  intros H. unfold savetxt_d. apply List.Forall_forall. intros row Hin.
  apply in_map_iff in Hin as (zs & <- & Hzs). rewrite length_map.
  rewrite List.Forall_forall in H. exact (H zs Hzs).
Qed.

Lemma last_savetxt_d counts zs :
  last counts = Some zs →
  last (savetxt_d counts) = Some (map (λ z, Fin (IZR z)) zs).
Proof. intros H. unfold savetxt_d. rewrite last_map, H. reflexivity. Qed.

(** X26: the counts that [extract_differential] writes for one pair of
    files at least and a positive step go through [scale_pairs] and
    [scale_differential] exactly when they have two rows at least: with
    no region the file holds no row, with a single region without a
    window it holds the one row of sentinels, and in both cases the
    array read back has one dimension only and the scaling stops with
    an exception. *)
Theorem differential_counts_scaled pairs regs step counts :
  pairs ≠ [] → (0 < step)%Z →
  differential_counts pairs regs step = Ok counts →
  (is_ok (scale_pairs_differential counts) ↔ (2 ≤ length counts)%nat)
  ∧ (regs = [] → ¬ is_ok (scale_pairs_differential counts)).
Proof.
  intros Hpairs Hstep Hcounts.
  destruct (differential_counts_shape pairs regs step Hpairs Hstep)
    as (counts' & Hc' & Hrect & Hnone & Hlast).
  rewrite Hcounts in Hc'. injection Hc' as <-.
  set (p := length pairs) in *.
  assert (Hp : (0 < p)%nat).
  { subst p. destruct pairs; [contradiction | cbn; lia]. }
  assert (Hiff : is_ok (scale_pairs_differential counts)
                 ↔ (2 ≤ length counts)%nat).
  { unfold scale_pairs_differential.
    pose proof (savetxt_d_shape counts (2 * p) Hrect) as Hraw.
    assert (Hlen : length (savetxt_d counts) = length counts)
      by (unfold savetxt_d; apply length_map).
    destruct (le_lt_dec 2 (length counts)) as [Hrows | Hrows].
    - rewrite (loadtxt_matrix (savetxt_d counts) (2 * p)) by (lia || exact Hraw).
      cbn [bind scapair_array]. rewrite scapair_rows. cbn [bind].
      assert (Hregs : regs ≠ []).
      { intros ->. rewrite (Hnone eq_refl) in Hrows. cbn in Hrows. lia. }
      assert (Hl : last (savetxt_d counts) = Some (repeat (Fin (-1)) (2 * p))).
      { rewrite (last_savetxt_d counts _ (Hlast Hregs)), map_repeat.
        reflexivity. }
      destruct (scaled_counts_walked (savetxt_d counts) p Hp Hraw Hl)
        as (Hsrect & _ & Hok).
      rewrite (loadtxt_matrix _ (2 * p)); [| rewrite length_map; lia | lia
                                            | exact Hsrect].
      cbn [bind scale_differential_array]. split; [intros _; exact Hrows |].
      intros _. exact Hok.
    - destruct (loadtxt_vector (savetxt_d counts) (2 * p)) as (v & ->);
        [lia | lia | exact Hraw |].
      cbn [bind scapair_array]. change (String.eqb "deseq" "deseq") with true.
      cbn [bind]. split; [intros [gl Hgl]; discriminate | lia]. }
  split; [exact Hiff |].
  intros ->. rewrite Hiff, (Hnone eq_refl). cbn [length]. lia.
Qed.

Lemma differential_counts_scaled_witness :
  let abam := {| count := λ _ _ _, 3%nat |} in
  let bbam := {| count := λ _ _ _, 4%nat |} in
  let reg := {| chrom := "chr1"; chromStart := 0; chromEnd := 100;
                bed_rest := [] |} in
  differential_counts [(abam, bbam)] [reg] 100 = Ok [[3; 4]; [-1; -1]]%Z
  ∧ is_ok (scale_pairs_differential [[3; 4]; [-1; -1]]%Z).
Proof.
  intros abam bbam reg.
  assert (Hc : differential_counts [(abam, bbam)] [reg] 100
               = Ok [[3; 4]; [-1; -1]]%Z) by (vm_compute; reflexivity).
  split; [exact Hc |].
  apply (proj1 (differential_counts_scaled [(abam, bbam)] [reg] 100 _
                  ltac:(discriminate) ltac:(lia) Hc)).
  cbn [length]. lia.
Defined.
